(** * A verification model of the hg / hgraph time-series runtime

    The first part embeds, function by function, the parts of the Python
    sources that the specification talks about:

    - [Tss]     : src/hg/_impl/_types/_tss.py          (set outputs and their deltas)
    - [Tsb]     : src/hg/_impl/_types/_tsb.py          (bundle inputs)
    - [Builder] : src/hg/_impl/_builder/_graph_builder.py
    - [Engine]  : src/hg/_impl/_runtime/_graph_engine.py
    - [Wiring]  : src/src/hgraph/_wiring/_graph_builder.py (toposort)

    Each module ends with the predicates the statements are written in and
    the concrete inputs they are tried on. The second part, [TssFacts] to
    [WiringFacts], proves what holds of the embedded code.

    Python exceptions are values of [Exn]; a call that may raise returns a
    [pyresult]. Loops that Python does not bound take a fuel argument and
    say so when it runs out. *)

From Stdlib Require Import ZArith Lia.
From stdpp Require Import base option list gmap strings sorting.

Set Warnings "-register-all,-clear-no-such-hyp".
Local Open Scope Z_scope.

(** ** Exceptions and results *)

Inductive Exn :=
| ValueError (msg : string)
| RuntimeError (msg : string)
| TypeError
| KeyError
| IndexError
| AttributeError
| NotImplementedError
| CustomMessageWiringError
| UserError.

Inductive pyresult (A : Type) :=
| Ok (a : A)
| Raise (e : Exn).
Arguments Ok {A} a.
Arguments Raise {A} e.

#[global] Instance pyresult_ret : MRet pyresult := fun A a => Ok a.
#[global] Instance pyresult_bind : MBind pyresult := fun A B k r =>
  match r with
  | Ok a => k a
  | Raise e => Raise e
  end.

Definition raises {A} (r : pyresult A) : Prop := exists e, r = Raise e.

(** Engine time: an instant on a discrete time line (microseconds). *)
Definition datetime := Z.

(** ** Set outputs: src/hg/_impl/_types/_tss.py *)

Module Tss.
Section WithScalar.
Context {SCALAR : Type} {SCALAR_eq : EqDecision SCALAR} {SCALAR_countable : Countable SCALAR}.

(** [PythonSetDelta]: the frozen dataclass with its two frozensets. *)
Record PythonSetDelta := {
  added : gset SCALAR;
  removed : gset SCALAR
}.

(** [PythonTimeSeriesSetOutput]. [_value], [_added] and [_removed] are the
    fields of the class; [_added] and [_removed] are [None] until a result
    is applied and again after [_reset]. *)
Record PythonTimeSeriesSetOutput := {
  _value : gset SCALAR;
  _added : option (gset SCALAR);
  _removed : option (gset SCALAR);
  valid : bool;
  last_modified_time : datetime;
  after_evaluation_resets : nat
}.

(** Modelled from the spec: [PythonTimeSeriesOutput.mark_modified] of
    hg/_impl/_types/_output.py is not among the sources. The spec gives an
    output a validity flag and a last-modified engine time, and calls it
    modified in the tick whose engine time is its last-modified time; so
    the base method makes the output valid and stamps it with the current
    engine time [now]. The override in _tss.py then queues [_reset] on the
    owning graph's context, counted in [after_evaluation_resets]. *)
Definition mark_modified (now : datetime) (o : PythonTimeSeriesSetOutput)
  : PythonTimeSeriesSetOutput :=
  {| _value := _value o;
     _added := _added o;
     _removed := _removed o;
     valid := true;
     last_modified_time := now;
     after_evaluation_resets := S (after_evaluation_resets o) |}.

(** [_reset]: the callback the graph runs once the tick is over. *)
Definition _reset (o : PythonTimeSeriesSetOutput) : PythonTimeSeriesSetOutput :=
  {| _value := _value o;
     _added := None;
     _removed := None;
     valid := valid o;
     last_modified_time := last_modified_time o;
     after_evaluation_resets := after_evaluation_resets o |}.

(** [delta_value]: [frozenset(None)] raises a TypeError. *)
Definition delta_value (o : PythonTimeSeriesSetOutput) : pyresult PythonSetDelta :=
  match _added o, _removed o with
  | Some a, Some r => Ok {| added := a; removed := r |}
  | _, _ => Raise TypeError
  end.

(** The values [apply_result] is called with: [None], a [SetDelta], or
    anything else, which the code takes to be a set of elements. *)
Inductive Result :=
| ResultNone
| ResultDelta (d : PythonSetDelta)
| ResultSet (s : gset SCALAR).

(** The two comprehensions of [apply_result]. *)
Definition filter_added (value : gset SCALAR) (d : PythonSetDelta) : gset SCALAR :=
  filter (fun e => e ∉ value) (added d).
Definition filter_removed (value : gset SCALAR) (d : PythonSetDelta) : gset SCALAR :=
  filter (fun e => e ∈ value) (removed d).

Definition is_empty_set (s : gset SCALAR) : bool := bool_decide (s = ∅).

(** The last statement of [apply_result]:
    [if self._added or self._removed or not self.valid: self.mark_modified()]. *)
Definition mark_if_changed (now : datetime) (o : PythonTimeSeriesSetOutput)
  : PythonTimeSeriesSetOutput :=
  match _added o, _removed o with
  | Some a, Some r =>
      if negb (is_empty_set a) || negb (is_empty_set r) || negb (valid o)
      then mark_modified now o else o
  | _, _ => o
  end.

Definition apply_result (now : datetime) (o : PythonTimeSeriesSetOutput) (result : Result)
  : pyresult PythonTimeSeriesSetOutput :=
  match result with
  | ResultNone => Ok o
  | ResultDelta d =>
      let a := filter_added (_value o) d in
      let r := filter_removed (_value o) d in
      if is_empty_set (r ∩ a) then
        Ok (mark_if_changed now
              {| _value := (_value o ∪ a) ∖ r;
                 _added := Some a;
                 _removed := Some r;
                 valid := valid o;
                 last_modified_time := last_modified_time o;
                 after_evaluation_resets := after_evaluation_resets o |})
      else Raise (ValueError "Cannot remove and add the same element")
  | ResultSet s =>
      Ok (mark_if_changed now
            {| _value := _value o ∪ s;
               _added := Some s;
               _removed := Some ∅;
               valid := valid o;
               last_modified_time := last_modified_time o;
               after_evaluation_resets := after_evaluation_resets o |})
  end.

(** Two deltas are equivalent when they add the same elements and remove
    the same elements. *)
Definition delta_equiv (d1 d2 : PythonSetDelta) : Prop :=
  added d1 = added d2 /\ removed d1 = removed d2.

(** [copy_from_output], called with another set output: the elements of
    [output.value] that this output lacks become the added set; the value
    grows, and the output is marked modified, only when there are any. *)
Definition copy_from_output (now : datetime) (o output : PythonTimeSeriesSetOutput)
  : PythonTimeSeriesSetOutput :=
  let a := _value output ∖ _value o in
  if is_empty_set a then
    {| _value := _value o;
       _added := Some a;
       _removed := Some ∅;
       valid := valid o;
       last_modified_time := last_modified_time o;
       after_evaluation_resets := after_evaluation_resets o |}
  else
    mark_modified now
      {| _value := _value o ∪ a;
         _added := Some a;
         _removed := Some ∅;
         valid := valid o;
         last_modified_time := last_modified_time o;
         after_evaluation_resets := after_evaluation_resets o |}.

(** [__contains__]: [item in self._value]. *)
Definition __contains__ (o : PythonTimeSeriesSetOutput) (item : SCALAR) : bool :=
  bool_decide (item ∈ _value o).

(** [was_added] and [was_removed]: [item in self._added] and
    [item in self._removed]; [item in None] raises a TypeError. *)
Definition was_added (o : PythonTimeSeriesSetOutput) (item : SCALAR) : pyresult bool :=
  match _added o with
  | Some a => Ok (bool_decide (item ∈ a))
  | None => Raise TypeError
  end.

Definition was_removed (o : PythonTimeSeriesSetOutput) (item : SCALAR) : pyresult bool :=
  match _removed o with
  | Some r => Ok (bool_decide (item ∈ r))
  | None => Raise TypeError
  end.

(** [PythonTimeSeriesSetInput]: the methods of the input go to the output
    it is bound to. *)
Record PythonTimeSeriesSetInput := {
  output : PythonTimeSeriesSetOutput
}.

Definition input_contains (i : PythonTimeSeriesSetInput) (item : SCALAR) : bool :=
  __contains__ (output i) item.

Definition input_was_added (i : PythonTimeSeriesSetInput) (item : SCALAR) : pyresult bool :=
  was_added (output i) item.

(** The outcome of a call that may nest without end: it finishes, or the
    interpreter's limit on nested calls is reached. *)
Inductive Nested (A : Type) :=
| Finished (r : pyresult A)
| RecursionLimit.

(** [PythonTimeSeriesSetInput.was_removed] is
    [return self.was_removed(item)]: the method of the input calls itself,
    not the output. [limit] is the number of nested calls the interpreter
    still allows. *)
Fixpoint input_was_removed (limit : nat) (i : PythonTimeSeriesSetInput) (item : SCALAR)
  : Nested bool :=
  match limit with
  | O => RecursionLimit bool
  | S limit' => input_was_removed limit' i item
  end.

End WithScalar.
Arguments PythonSetDelta SCALAR {_ _}.
Arguments PythonTimeSeriesSetOutput SCALAR {_ _}.
Arguments Result SCALAR {_ _}.
Arguments PythonTimeSeriesSetInput SCALAR {_ _}.

(** A set output that holds 1, and a delta that adds 1 again. *)
Definition holds_one : PythonTimeSeriesSetOutput Z :=
  {| _value := {[ 1%Z ]}; _added := None; _removed := None;
     valid := true; last_modified_time := 0%Z; after_evaluation_resets := 0 |}.
Definition adds_one : PythonSetDelta Z := {| added := {[ 1%Z ]}; removed := ∅ |}.

End Tss.

(** ** Bundle inputs: src/hg/_impl/_types/_tsb.py *)

Module Tsb.

(** Outputs as the inputs see them: every output carries the header
    (validity, last-modified engine time); a bundle output also maps its
    field names to child outputs. *)
Inductive TimeSeriesOutput :=
| PythonTimeSeriesValueOutput (out_valid : bool) (out_modified_at : datetime)
| PythonTimeSeriesBundleOutput (out_valid : bool) (out_modified_at : datetime)
    (_ts_value : list (string * TimeSeriesOutput)).

Definition output_valid (o : TimeSeriesOutput) : bool :=
  match o with
  | PythonTimeSeriesValueOutput v _ => v
  | PythonTimeSeriesBundleOutput v _ _ => v
  end.

Definition output_last_modified_time (o : TimeSeriesOutput) : datetime :=
  match o with
  | PythonTimeSeriesValueOutput _ t => t
  | PythonTimeSeriesBundleOutput _ t _ => t
  end.

(** [output[k]]: a bundle output looks the field up, anything else cannot
    be subscripted. *)
Fixpoint lookup_field {A} (k : string) (fields : list (string * A)) : option A :=
  match fields with
  | [] => None
  | (k', v) :: rest => if String.eqb k k' then Some v else lookup_field k rest
  end.

Definition output_getitem (o : TimeSeriesOutput) (k : string) : pyresult TimeSeriesOutput :=
  match o with
  | PythonTimeSeriesValueOutput _ _ => Raise TypeError
  | PythonTimeSeriesBundleOutput _ _ fields =>
      match lookup_field k fields with
      | Some child => Ok child
      | None => Raise KeyError
      end
  end.

(** Inputs: a plain bound input, or a bundle input with its child inputs in
    schema order. [_output] is the bound output ([None] when there is
    none) and [_active] the input's own flag. *)
Inductive TimeSeriesInput :=
| PythonBoundTimeSeriesInput (_output : option TimeSeriesOutput) (_active : bool)
| PythonTimeSeriesBundleInput (_output : option TimeSeriesOutput) (_active : bool)
    (_ts_value : list (string * TimeSeriesInput)).

Definition input_output (i : TimeSeriesInput) : option TimeSeriesOutput :=
  match i with
  | PythonBoundTimeSeriesInput o _ => o
  | PythonTimeSeriesBundleInput o _ _ => o
  end.

Definition input_active_flag (i : TimeSeriesInput) : bool :=
  match i with
  | PythonBoundTimeSeriesInput _ a => a
  | PythonTimeSeriesBundleInput _ a _ => a
  end.

(** Modelled from the spec: the base class [PythonBoundTimeSeriesInput] of
    hg/_impl/_types/_input.py is not among the sources; the bundle input
    reaches its [bound], [valid], [modified] and [active] through
    [super()]. The spec: an input stores a bound output (possibly null).
    [super().bound] says whether there is one. *)
Definition super_bound (i : TimeSeriesInput) : bool :=
  bool_decide (is_Some (input_output i)).

(** Modelled from the spec: [PythonBoundTimeSeriesInput.valid], not among
    the sources. The spec: an input is valid iff the output it resolves to
    is valid; an input without an output resolves to none. *)
Definition super_valid (i : TimeSeriesInput) : bool :=
  match input_output i with
  | Some o => output_valid o
  | None => false
  end.

(** Modelled from the spec: [PythonBoundTimeSeriesInput.modified], not
    among the sources. The spec: an input is modified iff its bound
    output's last-modified time equals the current engine time. *)
Definition super_modified (now : datetime) (i : TimeSeriesInput) : bool :=
  match input_output i with
  | Some o => bool_decide (output_last_modified_time o = now)
  | None => false
  end.

(** Modelled from the spec: [PythonBoundTimeSeriesInput.active], not among
    the sources. The spec: each input stores its [active] flag. *)
Definition super_active (i : TimeSeriesInput) : bool := input_active_flag i.

(** [has_peer]: [super().bound]. *)
Definition has_peer (i : TimeSeriesInput) : bool := super_bound i.

(** [valid]: a bundle with a peer asks the base class, one without asks its
    children, [any(ts.valid for ts in self.values())]. *)
Fixpoint valid (i : TimeSeriesInput) : bool :=
  match i with
  | PythonBoundTimeSeriesInput _ _ => super_valid i
  | PythonTimeSeriesBundleInput _ _ children =>
      if has_peer i then super_valid i
      else existsb (fun kv => valid (snd kv)) children
  end.

(** [all_valid]: [all(ts.valid for ts in self.values())]. *)
Definition all_valid (i : TimeSeriesInput) : bool :=
  match i with
  | PythonBoundTimeSeriesInput _ _ => valid i
  | PythonTimeSeriesBundleInput _ _ children => forallb (fun kv => valid (snd kv)) children
  end.

Fixpoint modified (now : datetime) (i : TimeSeriesInput) : bool :=
  match i with
  | PythonBoundTimeSeriesInput _ _ => super_modified now i
  | PythonTimeSeriesBundleInput _ _ children =>
      if has_peer i then super_modified now i
      else existsb (fun kv => modified now (snd kv)) children
  end.

Fixpoint active (i : TimeSeriesInput) : bool :=
  match i with
  | PythonBoundTimeSeriesInput _ _ => super_active i
  | PythonTimeSeriesBundleInput _ _ children =>
      if has_peer i then super_active i
      else existsb (fun kv => active (snd kv)) children
  end.

Fixpoint bound (i : TimeSeriesInput) : bool :=
  match i with
  | PythonBoundTimeSeriesInput _ _ => super_bound i
  | PythonTimeSeriesBundleInput _ _ children =>
      super_bound i || existsb (fun kv => bound (snd kv)) children
  end.

(** [bind_output]: the base class stores the output; the bundle then binds
    every child to the output's field of the same name. *)
Fixpoint bind_output (i : TimeSeriesInput) (output : TimeSeriesOutput)
  : pyresult TimeSeriesInput :=
  match i with
  | PythonBoundTimeSeriesInput _ a => Ok (PythonBoundTimeSeriesInput (Some output) a)
  | PythonTimeSeriesBundleInput _ a children =>
      children' ←
        (fix bind_children (cs : list (string * TimeSeriesInput))
           : pyresult (list (string * TimeSeriesInput)) :=
           match cs with
           | [] => Ok []
           | (k, ts) :: rest =>
               child ← output_getitem output k;
               ts' ← bind_output ts child;
               rest' ← bind_children rest;
               Ok ((k, ts') :: rest')
           end) children;
      Ok (PythonTimeSeriesBundleInput (Some output) a children')
  end.

End Tsb.

(** ** The graph builder: src/hg/_impl/_builder/_graph_builder.py *)

Module Builder.

(** The output tree of a node: a composite output is subscripted by
    position, a leaf cannot be subscripted. *)
Inductive TimeSeriesOutput :=
| OutputLeaf
| OutputComposite (children : list TimeSeriesOutput).

(** An input holds a reference to the output object it is attached to.
    The object is named by the place it lives at: the index of the producer
    node and the path below that node's output. *)
Record OutputRef := {
  ref_node : nat;
  ref_path : list nat
}.

Inductive TimeSeriesInput :=
| InputLeaf (output : option OutputRef)
| InputComposite (output : option OutputRef) (children : list TimeSeriesInput).

Record Node := {
  node_ndx : nat;
  input : option TimeSeriesInput;
  output : option TimeSeriesOutput;
  initialised : bool
}.

(** [Edge]: the 4-tuple of the builder. Indices and path items are
    naturals: the wiring layer emits no negative ones. *)
Record Edge := {
  src_node : nat;
  dst_node : nat;
  output_path : list nat;
  input_path : list nat
}.

(** A node builder is used through [make_instance] only, which returns the
    new node or raises. *)
Record NodeBuilder := {
  nb_make_instance : list Z -> pyresult Node
}.

Record PythonGraphBuilder := {
  node_builders : list NodeBuilder;
  edges : list Edge
}.

Record GraphImpl := {
  graph_id : list Z;
  nodes : list Node
}.

(** [output = output[item]], on what [node.output] may hold. *)
Definition output_getitem (o : option TimeSeriesOutput) (item : nat)
  : pyresult (option TimeSeriesOutput) :=
  match o with
  | None => Raise TypeError
  | Some OutputLeaf => Raise TypeError
  | Some (OutputComposite children) =>
      match children !! item with
      | Some c => Ok (Some c)
      | None => Raise IndexError
      end
  end.

Definition input_getitem (i : option TimeSeriesInput) (item : nat)
  : pyresult (option TimeSeriesInput) :=
  match i with
  | None => Raise TypeError
  | Some (InputLeaf _) => Raise TypeError
  | Some (InputComposite _ children) =>
      match children !! item with
      | Some c => Ok (Some c)
      | None => Raise IndexError
      end
  end.

(** The [for item in path] loops. *)
Fixpoint walk_output (o : option TimeSeriesOutput) (path : list nat)
  : pyresult (option TimeSeriesOutput) :=
  match path with
  | [] => Ok o
  | item :: rest => o' ← output_getitem o item; walk_output o' rest
  end.

Fixpoint walk_input (i : option TimeSeriesInput) (path : list nat)
  : pyresult (option TimeSeriesInput) :=
  match path with
  | [] => Ok i
  | item :: rest => i' ← input_getitem i item; walk_input i' rest
  end.

Definition _extract_output (node : Node) (path : list nat)
  : pyresult (option TimeSeriesOutput) :=
  match path with
  | [] => Raise (RuntimeError "No path to find an output for")
  | _ => walk_output (output node) path
  end.

Definition _extract_input (node : Node) (path : list nat)
  : pyresult (option TimeSeriesInput) :=
  match path with
  | [] => Raise (RuntimeError "No path to find an input for")
  | _ => walk_input (input node) path
  end.

(** [input_.output = output] on the input object found at [path]: the
    object is part of the consumer's input tree, so the tree changes at
    that place. Setting an attribute on [None] raises. *)
Definition set_output (i : TimeSeriesInput) (r : OutputRef) : TimeSeriesInput :=
  match i with
  | InputLeaf _ => InputLeaf (Some r)
  | InputComposite _ children => InputComposite (Some r) children
  end.

Fixpoint attach (i : TimeSeriesInput) (path : list nat) (r : OutputRef)
  : TimeSeriesInput :=
  match path with
  | [] => set_output i r
  | item :: rest =>
      match i with
      | InputLeaf o => InputLeaf o
      | InputComposite o children =>
          InputComposite o
            (match children !! item with
             | Some c => <[item := attach c rest r]> children
             | None => children
             end)
      end
  end.

Definition attach_node (node : Node) (path : list nat) (r : OutputRef) : Node :=
  {| node_ndx := node_ndx node;
     input := (fun i => attach i path r) <$> input node;
     output := output node;
     initialised := initialised node |}.

(** [nodes[i]] on the list of nodes just built. *)
Definition nodes_getitem (nodes : list Node) (i : nat) : pyresult Node :=
  match nodes !! i with
  | Some n => Ok n
  | None => Raise IndexError
  end.

(** The body of [for edge in self.edges]. *)
Definition wire_edge (nodes : list Node) (edge : Edge) : pyresult (list Node) :=
  src ← nodes_getitem nodes (src_node edge);
  dst ← nodes_getitem nodes (dst_node edge);
  out ← _extract_output src (output_path edge);
  input_ ← _extract_input dst (input_path edge);
  match input_ with
  | None => Raise AttributeError
  | Some _ =>
      Ok (<[dst_node edge :=
             attach_node dst (input_path edge)
               {| ref_node := src_node edge; ref_path := output_path edge |}]> nodes)
  end.

Fixpoint wire_edges (nodes : list Node) (edges : list Edge) : pyresult (list Node) :=
  match edges with
  | [] => Ok nodes
  | edge :: rest => nodes' ← wire_edge nodes edge; wire_edges nodes' rest
  end.

(** [[nb.make_instance(graph_id) for nb in self.node_builders]]. *)
Fixpoint make_nodes (graph_id : list Z) (builders : list NodeBuilder)
  : pyresult (list Node) :=
  match builders with
  | [] => Ok []
  | nb :: rest =>
      n ← nb_make_instance nb graph_id;
      ns ← make_nodes graph_id rest;
      Ok (n :: ns)
  end.

(** [node.initialise()]. *)
Definition initialise (node : Node) : Node :=
  {| node_ndx := node_ndx node;
     input := input node;
     output := output node;
     initialised := true |}.

Definition make_instance (b : PythonGraphBuilder) (graph_id : list Z) : pyresult GraphImpl :=
  nodes ← make_nodes graph_id (node_builders b);
  wired ← wire_edges nodes (edges b);
  Ok {| graph_id := graph_id; nodes := initialise <$> wired |}.

(** An edge one of whose paths is empty. *)
Definition has_empty_path (edge : Edge) : Prop :=
  output_path edge = [] \/ input_path edge = [].

(** A concrete builder: a producer with one output field, a consumer with
    one input field, and an edge that names no output path. *)
Definition producer : Node :=
  {| node_ndx := 0; input := None;
     output := Some (OutputComposite [OutputLeaf]); initialised := false |}.
Definition consumer : Node :=
  {| node_ndx := 1; input := Some (InputComposite None [InputLeaf None]);
     output := None; initialised := false |}.
Definition pathless_edge : Edge :=
  {| src_node := 0; dst_node := 1; output_path := []; input_path := [0%nat] |}.
Definition good_edge : Edge :=
  {| src_node := 0; dst_node := 1; output_path := [0%nat]; input_path := [0%nat] |}.
Definition pathless_builder : PythonGraphBuilder :=
  {| node_builders := [ {| nb_make_instance := fun _ => Ok producer |};
                        {| nb_make_instance := fun _ => Ok consumer |} ];
     edges := [good_edge; pathless_edge] |}.

(** The same two nodes with the one well-formed edge. *)
Definition good_builder : PythonGraphBuilder :=
  {| node_builders := [ {| nb_make_instance := fun _ => Ok producer |};
                        {| nb_make_instance := fun _ => Ok consumer |} ];
     edges := [good_edge] |}.

(** The nodes of the graph that [make_instance] builds from it: the
    consumer's input field is attached to the producer's output field. *)
Definition nodes_of_good_graph : list Node :=
  [ {| node_ndx := 0; input := None;
       output := Some (OutputComposite [OutputLeaf]); initialised := true |};
    {| node_ndx := 1;
       input := Some (InputComposite None
                        [InputLeaf (Some {| ref_node := 0; ref_path := [0%nat] |})]);
       output := None; initialised := true |} ].

(** The [output] attribute of an input object. *)
Definition input_output (i : TimeSeriesInput) : option OutputRef :=
  match i with
  | InputLeaf o => o
  | InputComposite o _ => o
  end.

(** The output that the input found at [path] below [node.input] is
    attached to, if there is such an input and it is attached. *)
Definition attached_output (node : Node) (path : list nat) : option OutputRef :=
  match walk_input (input node) path with
  | Ok (Some i) => input_output i
  | _ => None
  end.

(** The place of the input that an edge attaches. *)
Definition target (edge : Edge) : nat * list nat := (dst_node edge, input_path edge).

(** [release_instance]. What it does is calls on other objects, recorded
    in the order they are made: [node_builder.release_instance(node)] on
    the builder at a given position, [node.dispose()], and
    [item.dispose()] on the graph. *)
Inductive Release :=
| release_instance_of (builder : nat) (node : Node)
| dispose_node (node : Node)
| dispose_graph.

(** [zip(item.nodes, self.node_builders)] stops at the shorter of the
    two. *)
Definition release_instance (b : PythonGraphBuilder) (item : GraphImpl) : list Release :=
  imap (fun i node => release_instance_of i node)
       (take (length (node_builders b)) (nodes item))
  ++ map dispose_node (nodes item)
  ++ [dispose_graph].

End Builder.

(** ** The graph engine: src/hg/_impl/_runtime/_graph_engine.py *)

Module Engine.

(** *** The world outside the engine *)

Inductive RunMode := REAL_TIME | BACK_TEST.

Inductive Callback :=
| on_before_start
| on_after_start
| on_before_stop
| on_after_stop
| on_before_evaluation
| on_after_evaluation
| on_before_node_evaluation (node : nat)
| on_after_node_evaluation (node : nat)
| on_before_start_node (node : nat)
| on_after_start_node (node : nat)
| on_before_stop_node (node : nat)
| on_after_stop_node (node : nat).

Inductive Method := Start | Eval | Stop.

(** What the engine does to the outside, in the order it does it: a
    callback on a life-cycle observer, a call of a queued notification
    receiver, a call of a node's method. *)
Inductive Event :=
| Observer (observer : nat) (cb : Callback)
| Receiver (receiver : nat)
| NodeCall (m : Method) (node : nat).

(** The world: the host clock, read through [datetime.now()], and the
    calls made so far. The n-th reading of the clock is [readings n]. *)
Record World := {
  readings : nat -> datetime;
  reads : nat;
  trace : list Event
}.

(** The outcome of a computation on a state [S]: it returns, raises, or
    is still running when the fuel of a loop is used up. *)
Inductive Res (S A : Type) :=
| Done (a : A) (s : S) (w : World)
| Failed (e : Exn) (s : S) (w : World)
| OutOfFuel (s : S) (w : World).
Arguments Done {S A} a s w.
Arguments Failed {S A} e s w.
Arguments OutOfFuel {S A} s w.

Definition Eff (S A : Type) : Type := S -> World -> Res S A.

Definition ret {S A} (a : A) : Eff S A := fun s w => Done a s w.

Definition and_then {S A B} (m : Eff S A) (k : A -> Eff S B) : Eff S B :=
  fun s w =>
    match m s w with
    | Done a s' w' => k a s' w'
    | Failed e s' w' => Failed e s' w'
    | OutOfFuel s' w' => OutOfFuel s' w'
    end.

Notation "x <~ m ; k" := (and_then m (fun x => k))
  (at level 100, m at next level, right associativity, only parsing).
Notation "m ;; k" := (and_then m (fun _ => k))
  (at level 100, right associativity, only parsing).

Definition get {S} : Eff S S := fun s w => Done s s w.
Definition modify {S} (f : S -> S) : Eff S unit := fun s w => Done tt (f s) w.
Definition raise {S A} (e : Exn) : Eff S A := fun s w => Failed e s w.
Definition emit {S} (ev : Event) : Eff S unit :=
  fun s w => Done tt s {| readings := readings w; reads := reads w; trace := trace w ++ [ev] |}.

(** [datetime.now()]. *)
Definition now (w : World) : datetime * World :=
  (readings w (reads w),
   {| readings := readings w; reads := S (reads w); trace := trace w |}).

(** [try: body finally: handler]. *)
Definition finally {S A} (body : Eff S A) (handler : Eff S unit) : Eff S A :=
  fun s w =>
    match body s w with
    | Done a s' w' =>
        match handler s' w' with
        | Done _ s'' w'' => Done a s'' w''
        | Failed e s'' w'' => Failed e s'' w''
        | OutOfFuel s'' w'' => OutOfFuel s'' w''
        end
    | Failed e s' w' =>
        match handler s' w' with
        | Done _ s'' w'' => Failed e s'' w''
        | Failed e' s'' w'' => Failed e' s'' w''
        | OutOfFuel s'' w'' => OutOfFuel s'' w''
        end
    | OutOfFuel s' w' => OutOfFuel s' w'
    end.

Fixpoint for_each {S A} (l : list A) (body : A -> Eff S unit) : Eff S unit :=
  match l with
  | [] => ret tt
  | x :: rest => (body x ;; for_each rest body)
  end.

(** *** Constants

    hg/_runtime/_constants.py is not among the sources: the two sentinels
    are parameters of the development. *)
Class Constants := {
  MIN_DT : datetime;
  MAX_DT : datetime
}.

(** *** Execution contexts *)

(** The interface [ExecutionContext] as the engine uses it. An operation
    that may read the host clock takes the world and returns it. *)
Class ExecutionContext (C : Type) := {
  current_engine_time : C -> datetime;
  set_current_engine_time : datetime -> C -> World -> C * World;
  proposed_next_engine_time : C -> datetime;
  wall_clock_time : C -> World -> datetime * World;
  push_has_pending_values : C -> bool;
  reset_push_has_pending_values : C -> C;
  wait_until_proposed_engine_time : datetime -> C -> World -> C * World
}.

Record BackTestExecutionContext := {
  _current_time : datetime;
  _wall_clock_time_at_current_time : datetime;
  _proposed_next_engine_time : datetime
}.

(** The setter of [current_engine_time]. *)
Definition bt_set_current_engine_time (value : datetime) (c : BackTestExecutionContext)
    (w : World) : BackTestExecutionContext * World :=
  let '(t, w') := now w in
  ({| _current_time := value;
      _wall_clock_time_at_current_time := t;
      _proposed_next_engine_time := _proposed_next_engine_time c |}, w').

(** [__init__]: the setter runs on the fresh object, then the proposal is
    set to [MAX_DT]. *)
Definition bt_init `{Constants} (current_time : datetime) (w : World)
  : BackTestExecutionContext * World :=
  let '(t, w') := now w in
  ({| _current_time := current_time;
      _wall_clock_time_at_current_time := t;
      _proposed_next_engine_time := MAX_DT |}, w').

Definition bt_wait_until_proposed_engine_time (proposed_engine_time : datetime)
    (c : BackTestExecutionContext) (w : World) : BackTestExecutionContext * World :=
  ({| _current_time := proposed_engine_time;
      _wall_clock_time_at_current_time := _wall_clock_time_at_current_time c;
      _proposed_next_engine_time := _proposed_next_engine_time c |}, w).

(** [engine_lag] and [wall_clock_time]. *)
Definition bt_engine_lag (c : BackTestExecutionContext) (w : World) : Z * World :=
  let '(t, w') := now w in (t - _wall_clock_time_at_current_time c, w').

Definition bt_wall_clock_time (c : BackTestExecutionContext) (w : World)
  : datetime * World :=
  let '(lag, w') := bt_engine_lag c w in (_current_time c + lag, w').

#[global] Instance back_test_context : ExecutionContext BackTestExecutionContext := {
  current_engine_time := _current_time;
  set_current_engine_time := bt_set_current_engine_time;
  proposed_next_engine_time := _proposed_next_engine_time;
  wall_clock_time := bt_wall_clock_time;
  push_has_pending_values := fun _ => false;
  reset_push_has_pending_values := fun c => c;
  wait_until_proposed_engine_time := bt_wait_until_proposed_engine_time
}.

(** *** Nodes and graphs

    [Graph] and [Node] of hg/_runtime are not among the sources. The engine
    uses an element of [graph.nodes] in two ways: as a node, whose
    [start()], [eval()] and [stop()] it calls, and, in [evaluate_graph],
    unpacked as [scheduled_time, node]. A [Node] here answers both: it has
    the time the unpacking yields and the three methods. A method returns,
    calls [request_stop()] on the engine and returns, or raises. *)
Inductive Action := Returns | RequestsStop | Raises.

Record Node := {
  node_ndx : nat;
  scheduled_time : datetime;
  start_fn : Action;
  eval_fn : datetime -> Action;
  stop_fn : Action
}.

Record Graph := {
  nodes : list Node;
  push_source_nodes_end : nat
}.

(** *** The engine *)

(** The attributes of an engine. The class is a [@dataclass] with an
    [__init__] of its own, which the decorator keeps. A field with a plain
    default ([is_started], [_stop_requested], [_execution_context], ...)
    is left as a class attribute and can be read on every instance. The
    three lists are declared with [field(default_factory=list)]: the
    decorator leaves no class attribute for them, and [__init__] does not
    assign them, so an instance has them only once they have been assigned
    from outside. Such an attribute is an [option]: [None] says that the
    instance has no such attribute. *)
Record PythonGraphEngine (C : Type) := {
  graph : Graph;
  is_started : bool;
  _stop_requested : bool;
  _start_time : datetime;
  _end_time : datetime;
  _scheduler : option (list datetime);
  _execution_context : option C;
  _run_mode : RunMode;
  _life_cycle_observers : option (list nat);
  _before_evaluation_notification : option (list nat);
  _after_evaluation_notification : option (list nat)
}.
Arguments graph {C} _.
Arguments is_started {C} _.
Arguments _stop_requested {C} _.
Arguments _start_time {C} _.
Arguments _end_time {C} _.
Arguments _scheduler {C} _.
Arguments _execution_context {C} _.
Arguments _run_mode {C} _.
Arguments _life_cycle_observers {C} _.
Arguments _before_evaluation_notification {C} _.
Arguments _after_evaluation_notification {C} _.

Section Assignments.
Context {C : Type}.
Implicit Type e : PythonGraphEngine C.

Definition with_is_started e (b : bool) : PythonGraphEngine C :=
  {| graph := graph e; is_started := b; _stop_requested := _stop_requested e;
     _start_time := _start_time e; _end_time := _end_time e;
     _scheduler := _scheduler e; _execution_context := _execution_context e;
     _run_mode := _run_mode e; _life_cycle_observers := _life_cycle_observers e;
     _before_evaluation_notification := _before_evaluation_notification e;
     _after_evaluation_notification := _after_evaluation_notification e |}.

Definition with_stop_requested e (b : bool) : PythonGraphEngine C :=
  {| graph := graph e; is_started := is_started e; _stop_requested := b;
     _start_time := _start_time e; _end_time := _end_time e;
     _scheduler := _scheduler e; _execution_context := _execution_context e;
     _run_mode := _run_mode e; _life_cycle_observers := _life_cycle_observers e;
     _before_evaluation_notification := _before_evaluation_notification e;
     _after_evaluation_notification := _after_evaluation_notification e |}.

Definition with_times e (start_time end_time : datetime) : PythonGraphEngine C :=
  {| graph := graph e; is_started := is_started e; _stop_requested := _stop_requested e;
     _start_time := start_time; _end_time := end_time;
     _scheduler := _scheduler e; _execution_context := _execution_context e;
     _run_mode := _run_mode e; _life_cycle_observers := _life_cycle_observers e;
     _before_evaluation_notification := _before_evaluation_notification e;
     _after_evaluation_notification := _after_evaluation_notification e |}.

Definition with_scheduler e (slots : option (list datetime)) : PythonGraphEngine C :=
  {| graph := graph e; is_started := is_started e; _stop_requested := _stop_requested e;
     _start_time := _start_time e; _end_time := _end_time e;
     _scheduler := slots; _execution_context := _execution_context e;
     _run_mode := _run_mode e; _life_cycle_observers := _life_cycle_observers e;
     _before_evaluation_notification := _before_evaluation_notification e;
     _after_evaluation_notification := _after_evaluation_notification e |}.

Definition with_context e (ctx : option C) : PythonGraphEngine C :=
  {| graph := graph e; is_started := is_started e; _stop_requested := _stop_requested e;
     _start_time := _start_time e; _end_time := _end_time e;
     _scheduler := _scheduler e; _execution_context := ctx;
     _run_mode := _run_mode e; _life_cycle_observers := _life_cycle_observers e;
     _before_evaluation_notification := _before_evaluation_notification e;
     _after_evaluation_notification := _after_evaluation_notification e |}.

(** The engine whose list [_before_evaluation_notification] holds [l]. *)
Definition with_before_notifications e (l : list nat) : PythonGraphEngine C :=
  {| graph := graph e; is_started := is_started e; _stop_requested := _stop_requested e;
     _start_time := _start_time e; _end_time := _end_time e;
     _scheduler := _scheduler e; _execution_context := _execution_context e;
     _run_mode := _run_mode e; _life_cycle_observers := _life_cycle_observers e;
     _before_evaluation_notification := Some l;
     _after_evaluation_notification := _after_evaluation_notification e |}.

(** The engine whose list [_after_evaluation_notification] holds [l]. *)
Definition with_after_notifications e (l : list nat) : PythonGraphEngine C :=
  {| graph := graph e; is_started := is_started e; _stop_requested := _stop_requested e;
     _start_time := _start_time e; _end_time := _end_time e;
     _scheduler := _scheduler e; _execution_context := _execution_context e;
     _run_mode := _run_mode e; _life_cycle_observers := _life_cycle_observers e;
     _before_evaluation_notification := _before_evaluation_notification e;
     _after_evaluation_notification := Some l |}.

(** The engine whose list [_life_cycle_observers] holds [l]. *)
Definition with_observers e (l : list nat) : PythonGraphEngine C :=
  {| graph := graph e; is_started := is_started e; _stop_requested := _stop_requested e;
     _start_time := _start_time e; _end_time := _end_time e;
     _scheduler := _scheduler e; _execution_context := _execution_context e;
     _run_mode := _run_mode e; _life_cycle_observers := Some l;
     _before_evaluation_notification := _before_evaluation_notification e;
     _after_evaluation_notification := _after_evaluation_notification e |}.

(** The engine once the three lists have been assigned from outside: the
    observers [l] and two empty queues. *)
Definition with_lists e (l : list nat) : PythonGraphEngine C :=
  with_after_notifications (with_before_notifications (with_observers e l) []) [].

(** The observers and the queued receivers of an engine that has the
    lists. *)
Definition observers e : list nat := default [] (_life_cycle_observers e).
Definition before_receivers e : list nat := default [] (_before_evaluation_notification e).
Definition after_receivers e : list nat := default [] (_after_evaluation_notification e).

(** The engine has the three lists. *)
Definition has_lists e : Prop :=
  is_Some (_life_cycle_observers e)
  /\ is_Some (_before_evaluation_notification e)
  /\ is_Some (_after_evaluation_notification e).

End Assignments.

Section Methods.
Context {C : Type} `{ExecutionContext C}.
#[local] Abbreviation Engine := (PythonGraphEngine C).

(** Reading an attribute that the instance does not have raises an
    AttributeError. *)
Definition attribute {A} (field : Engine -> option A) : Eff Engine A :=
  e <~ get;
  match field e with
  | Some a => ret a
  | None => raise AttributeError
  end.

(** Reading [self._execution_context.<attribute>] when the context is
    [None] raises an AttributeError. *)
Definition the_context : Eff Engine C :=
  e <~ get;
  match _execution_context e with
  | Some ctx => ret ctx
  | None => raise AttributeError
  end.

(** A context operation, run on the engine's context and the world. *)
Definition on_context {A} (op : C -> World -> A * C * World) : Eff Engine A :=
  fun e w =>
    match _execution_context e with
    | Some ctx => let '(a, ctx', w') := op ctx w in Done a (with_context e (Some ctx')) w'
    | None => Failed AttributeError e w
    end.

Definition assign_current_engine_time (value : datetime) : Eff Engine unit :=
  on_context (fun ctx w => let '(ctx', w') := set_current_engine_time value ctx w in (tt, ctx', w')).

Definition read_wall_clock_time : Eff Engine datetime :=
  on_context (fun ctx w => let '(t, w') := wall_clock_time ctx w in (t, ctx, w')).

Definition call_wait_until_proposed_engine_time (p : datetime) : Eff Engine unit :=
  on_context (fun ctx w =>
    let '(ctx', w') := wait_until_proposed_engine_time p ctx w in (tt, ctx', w')).

Definition call_reset_push_has_pending_values : Eff Engine unit :=
  on_context (fun ctx w => (tt, reset_push_has_pending_values ctx, w)).

(** [initialise]. *)
Definition initialise `{Constants} : Eff Engine unit :=
  modify (fun e => with_scheduler e (Some (replicate (length (nodes (graph e))) MIN_DT))).

(** [request_stop]. *)
Definition request_stop : Eff Engine unit :=
  modify (fun e => with_stop_requested e true).

(** The twelve [notify_*] methods have one shape: every observer gets
    the callback, in the order of the list. [notify_before_evaluation] and
    [notify_after_evaluation] first call and clear the queued receivers. *)
Definition notify (cb : Callback) : Eff Engine unit :=
  life_cycle_observers <~ attribute _life_cycle_observers;
  for_each life_cycle_observers (fun o => emit (Observer o cb)).

Definition notify_before_evaluation : Eff Engine unit :=
  receivers <~ attribute _before_evaluation_notification;
  for_each receivers (fun r => emit (Receiver r)) ;;
  modify (fun e => with_before_notifications e []) ;;
  notify on_before_evaluation.

Definition notify_after_evaluation : Eff Engine unit :=
  receivers <~ attribute _after_evaluation_notification;
  for_each receivers (fun r => emit (Receiver r)) ;;
  modify (fun e => with_after_notifications e []) ;;
  notify on_after_evaluation.

(** A call of a node's method: the call is recorded, then the node does
    what its [Action] says. *)
Definition call_node (m : Method) (n : Node) (a : Action) : Eff Engine unit :=
  emit (NodeCall m (node_ndx n)) ;;
  match a with
  | Returns => ret tt
  | RequestsStop => request_stop
  | Raises => raise UserError
  end.

(** [stop]. *)
Definition stop : Eff Engine unit :=
  e <~ get;
  if is_started e then
    modify (fun e => with_is_started e false) ;;
    notify on_before_stop ;;
    for_each (nodes (graph e)) (fun node =>
      notify (on_before_stop_node (node_ndx node)) ;;
      call_node Stop node (stop_fn node) ;;
      notify (on_before_start_node (node_ndx node))) ;;
    notify on_after_stop ;;
    modify (fun e => with_context e None)
  else ret tt.

(** [advance_engine_time]. *)
Definition advance_engine_time : Eff Engine unit :=
  e <~ get;
  if _stop_requested e then assign_current_engine_time (_end_time e)
  else
    ctx <~ the_context;
    let proposed_next_engine_time := proposed_next_engine_time ctx in
    wall_clock_time <~ read_wall_clock_time;
    if bool_decide (wall_clock_time >= proposed_next_engine_time)
    then assign_current_engine_time proposed_next_engine_time
    else
      ctx <~ the_context;
      if push_has_pending_values ctx
      then assign_current_engine_time wall_clock_time
      else call_wait_until_proposed_engine_time proposed_next_engine_time.

(** [nodes[i]] for [i] in [range(n)]. *)
Definition nodes_getitem (nodes : list Node) (i : nat) : Eff Engine Node :=
  match nodes !! i with
  | Some n => ret n
  | None => raise IndexError
  end.

(** [evaluate_graph]. *)
Definition evaluate_graph : Eff Engine unit :=
  notify_before_evaluation ;;
  ctx <~ the_context;
  let now := current_engine_time ctx in
  e <~ get;
  let nodes := nodes (graph e) in
  (if push_has_pending_values ctx then
     call_reset_push_has_pending_values ;;
     for_each (seq 0 (push_source_nodes_end (graph e))) (fun i =>
       node <~ nodes_getitem nodes i;
       call_node Eval node (eval_fn node now))
   else ret tt) ;;
  for_each (drop (push_source_nodes_end (graph e)) nodes) (fun node =>
    if bool_decide (scheduled_time node = now) then
      notify (on_before_node_evaluation (node_ndx node)) ;;
      call_node Eval node (eval_fn node now) ;;
      notify (on_after_node_evaluation (node_ndx node))
    else ret tt) ;;
  notify_after_evaluation.

(** The test of the [while] of [run]. *)
Definition loop_condition (end_time : datetime) : Eff Engine bool :=
  ctx <~ the_context;
  ret (bool_decide (current_engine_time ctx <= end_time)).

(** The [while] of [run]; every iteration uses one unit of fuel. *)
Fixpoint run_loop (fuel : nat) (end_time : datetime) : Eff Engine unit :=
  match fuel with
  | O => fun e w => OutOfFuel e w
  | S fuel' =>
      go_on <~ loop_condition end_time;
      if go_on then
        evaluate_graph ;;
        advance_engine_time ;;
        run_loop fuel' end_time
      else ret tt
  end.

End Methods.

Section BackTest.
Context `{Constants}.
#[local] Abbreviation Engine := (PythonGraphEngine BackTestExecutionContext).

(** [start]. Only the back-test context exists: [REAL_TIME] raises. *)
Definition start : Eff Engine unit :=
  e <~ get;
  if is_started e then ret tt
  else
    modify (fun e => with_is_started e true) ;;
    modify (fun e => with_stop_requested e false) ;;
    match _run_mode e with
    | REAL_TIME => raise NotImplementedError
    | BACK_TEST =>
        fun e w =>
          let '(ctx, w') := bt_init (_start_time e) w in
          Done tt (with_context e (Some ctx)) w'
    end ;;
    notify on_before_start ;;
    for_each (nodes (graph e)) (fun node =>
      notify (on_before_start_node (node_ndx node)) ;;
      call_node Start node (start_fn node) ;;
      notify (on_after_start_node (node_ndx node))) ;;
    notify on_after_start.

(** Modelled from the spec: [start_stop_context] of hg/_runtime/_lifecycle.py
    is not among the sources. The spec puts the loop of [run] under a
    scoped start/stop and promises that [stop()] runs on every exit path,
    error included: [start()] and the body run under a [try] whose
    [finally] calls [stop()], so [stop()] runs whether they returned or
    raised, [start()] included. *)
Definition start_stop_context {A} (body : Eff Engine A) : Eff Engine A :=
  finally (start ;; body) stop.

(** [run]. *)
Definition run (fuel : nat) (start_time end_time : datetime) : Eff Engine unit :=
  modify (fun e => with_times e start_time end_time) ;;
  if bool_decide (end_time < start_time)
  then raise (ValueError "End time cannot be before the start time")
  else start_stop_context (run_loop fuel end_time).

End BackTest.

(** *** The precedence of [advance_engine_time], as the specification
    words it: a relation between the context and world before and after. *)
Inductive advances {C} `{ExecutionContext C} (stop_requested : bool) (end_time : datetime)
    (ctx : C) (w : World) : C -> World -> Prop :=
| advances_to_end_time ctx' w' :
    stop_requested = true ->
    set_current_engine_time end_time ctx w = (ctx', w') ->
    advances stop_requested end_time ctx w ctx' w'
| advances_to_proposed_time t w1 ctx' w' :
    stop_requested = false ->
    wall_clock_time ctx w = (t, w1) ->
    t >= proposed_next_engine_time ctx ->
    set_current_engine_time (proposed_next_engine_time ctx) ctx w1 = (ctx', w') ->
    advances stop_requested end_time ctx w ctx' w'
| advances_to_wall_clock_time t w1 ctx' w' :
    stop_requested = false ->
    wall_clock_time ctx w = (t, w1) ->
    t < proposed_next_engine_time ctx ->
    push_has_pending_values ctx = true ->
    set_current_engine_time t ctx w1 = (ctx', w') ->
    advances stop_requested end_time ctx w ctx' w'
| advances_by_waiting t w1 ctx' w' :
    stop_requested = false ->
    wall_clock_time ctx w = (t, w1) ->
    t < proposed_next_engine_time ctx ->
    push_has_pending_values ctx = false ->
    wait_until_proposed_engine_time (proposed_next_engine_time ctx) ctx w1 = (ctx', w') ->
    advances stop_requested end_time ctx w ctx' w'.

(** *** Time range *)

(** An exception other than the ValueError of [run]. *)
Definition not_value_error (x : Exn) : Prop := forall msg, x <> ValueError msg.

(** *** The states of a run

    The engine states at the points of [run] between its steps: after
    [start], after each [evaluate_graph], after each
    [advance_engine_time]. *)
Inductive during_run `{Constants} (e0 : PythonGraphEngine BackTestExecutionContext)
    (w0 : World) (start_time end_time : datetime)
  : PythonGraphEngine BackTestExecutionContext -> World -> Prop :=
| run_started e w :
    start (with_times e0 start_time end_time) w0 = Done tt e w ->
    during_run e0 w0 start_time end_time e w
| run_evaluated e w e' w' :
    during_run e0 w0 start_time end_time e w ->
    evaluate_graph e w = Done tt e' w' ->
    during_run e0 w0 start_time end_time e' w'
| run_advanced e w e' w' :
    during_run e0 w0 start_time end_time e w ->
    advance_engine_time e w = Done tt e' w' ->
    during_run e0 w0 start_time end_time e' w'.

(** The minimum, over the non-push nodes, of the scheduler slots, as the
    specification defines the proposed next engine time; [MAX_DT] when
    there is no such node. *)
Definition earliest_scheduler_slot `{Constants}
    (e : PythonGraphEngine BackTestExecutionContext) : option datetime :=
  slots ← _scheduler e;
  Some (foldr Z.min MAX_DT (drop (push_source_nodes_end (graph e)) slots)).

(** The engine has a context, and the context proposes [MAX_DT]. *)
Definition proposes_max `{Constants} (e : PythonGraphEngine BackTestExecutionContext)
  : Prop :=
  exists ctx, _execution_context e = Some ctx /\ proposed_next_engine_time ctx = MAX_DT.

(** An [on_after_stop_node] callback, on any observer, for any node. *)
Definition fires_after_stop_node (ev : Event) : Prop :=
  exists o n, ev = Observer o (on_after_stop_node n).

(** *** Judgments on [Eff] computations

    [spec P m Q X F]: from a state and world in [P], the computation [m]
    ends in [Q] when it returns, in [X] when it raises, and in [F] when a
    loop runs out of fuel. *)
Definition spec {S A} (P : S -> World -> Prop) (m : Eff S A)
    (Q : A -> S -> World -> Prop) (X : Exn -> S -> World -> Prop)
    (F : S -> World -> Prop) : Prop :=
  forall s w, P s w ->
    match m s w with
    | Done a s' w' => Q a s' w'
    | Failed e s' w' => X e s' w'
    | OutOfFuel s' w' => F s' w'
    end.

(** [inv I X D m]: [m] keeps [I] however it ends, raises only exceptions
    in [X], and runs out of fuel only if [D]. *)
Definition inv {S A} (I : S -> World -> Prop) (X : Exn -> Prop) (D : Prop) (m : Eff S A)
  : Prop :=
  spec I m (fun _ => I) (fun e s w => X e /\ I s w) (fun s w => D /\ I s w).

(** The world once [emit] has recorded an event. *)
Definition add_event (w : World) (ev : Event) : World :=
  {| readings := readings w; reads := reads w; trace := trace w ++ [ev] |}.

(** The part of [start] that follows the making of the context. *)
Definition start_nodes (e0 : PythonGraphEngine BackTestExecutionContext)
  : Eff (PythonGraphEngine BackTestExecutionContext) unit :=
  notify on_before_start ;;
  for_each (nodes (graph e0)) (fun node =>
    notify (on_before_start_node (node_ndx node)) ;;
    call_node Start node (start_fn node) ;;
    notify (on_after_start_node (node_ndx node))) ;;
  notify on_after_start.

(** The engine as [start] leaves it once the context is made. *)
Definition started `{Constants} (e : PythonGraphEngine BackTestExecutionContext) (w : World)
  : PythonGraphEngine BackTestExecutionContext :=
  with_context (with_stop_requested (with_is_started e true) false)
    (Some (bt_init (_start_time e) w).1).

(** The state in which a stop has been requested and the engine time has
    been set to the end time. *)
Definition stopped_at_end (e0 e : PythonGraphEngine BackTestExecutionContext) : Prop :=
  graph e = graph e0 /\ _end_time e = _end_time e0 /\ _stop_requested e = true
  /\ has_lists e
  /\ exists ctx, _execution_context e = Some ctx /\ _current_time ctx = _end_time e0.

(** *** Concrete engines *)

(** Sample values of the two sentinels (the first instant of 1970 and of
    2300, in microseconds). *)
Definition sample_constants : Constants :=
  {| MIN_DT := 0; MAX_DT := 10413792000000000 |}.

(** A host clock that moves on by one at every reading. *)
Definition world0 : World :=
  {| readings := fun n => Z.of_nat n; reads := 0; trace := [] |}.

(** [PythonGraphEngine(graph, run_mode)]: [__init__] assigns [_graph] and
    [_run_mode] and nothing else. The other attributes read as their class
    defaults, and the three lists do not exist. ([_start_time] and
    [_end_time] default to [None]; the model gives them the value 0 until
    [run] assigns them.) *)
Definition new_engine (g : Graph) (mode : RunMode)
  : PythonGraphEngine BackTestExecutionContext :=
  {| graph := g; is_started := false; _stop_requested := false;
     _start_time := 0; _end_time := 0; _scheduler := None;
     _execution_context := None; _run_mode := mode;
     _life_cycle_observers := None;
     _before_evaluation_notification := None;
     _after_evaluation_notification := None |}.

(** A node, scheduled at time 0, whose [eval] requests a stop. *)
Definition stopper : Node :=
  {| node_ndx := 0; scheduled_time := 0; start_fn := Returns;
     eval_fn := fun _ => RequestsStop; stop_fn := Returns |}.

(** A node that only returns. *)
Definition quiet (ndx : nat) : Node :=
  {| node_ndx := ndx; scheduled_time := 0; start_fn := Returns;
     eval_fn := fun _ => Returns; stop_fn := Returns |}.

Definition graph_of (ns : list Node) : Graph :=
  {| nodes := ns; push_source_nodes_end := 0 |}.

(** Engines whose three lists have been assigned after construction. *)
Definition stopping_engine := with_lists (new_engine (graph_of [stopper]) BACK_TEST) [].
Definition observed_engine := with_lists (new_engine (graph_of [quiet 7]) BACK_TEST) [0%nat].
Definition back_test_engine := with_lists (new_engine (graph_of [quiet 0]) BACK_TEST) [].

(** The engine with one non-push node, as [initialise] leaves it. *)
Definition initialised_engine : PythonGraphEngine BackTestExecutionContext :=
  with_scheduler back_test_engine (Some [@MIN_DT sample_constants]).

(** *** Observers

    [add_life_cycle_observer] appends to the list;
    [remove_life_cycle_observer] is [list.remove]: it takes out the first
    occurrence and raises a ValueError when there is none. Both read the
    attribute first. *)
Definition add_life_cycle_observer {C} (observer : nat) : Eff (PythonGraphEngine C) unit :=
  life_cycle_observers <~ attribute _life_cycle_observers;
  modify (fun e => with_observers e (life_cycle_observers ++ [observer])).

Fixpoint list_remove (x : nat) (l : list nat) : option (list nat) :=
  match l with
  | [] => None
  | y :: rest => if decide (x = y) then Some rest else (y ::.) <$> list_remove x rest
  end.

Definition remove_life_cycle_observer {C} (observer : nat) : Eff (PythonGraphEngine C) unit :=
  life_cycle_observers <~ attribute _life_cycle_observers;
  match list_remove observer life_cycle_observers with
  | Some l => modify (fun e => with_observers e l)
  | None => raise (ValueError "list.remove(x): x not in list")
  end.

(** *** What a method records

    The world once the events [evs] have been recorded, and the events
    that the parts of [start], [stop] and [evaluate_graph] record on an
    engine [e]. *)
Definition add_events (w : World) (evs : list Event) : World :=
  {| readings := readings w; reads := reads w; trace := trace w ++ evs |}.

(** [notify cb]: the callback on every observer, in the order of the
    list. *)
Definition notified {C} (e : PythonGraphEngine C) (cb : Callback) : list Event :=
  (fun o => Observer o cb) <$> observers e.

(** A call of method [m] of a node between two callbacks. *)
Definition bracketed {C} (e : PythonGraphEngine C) (before : nat -> Callback) (m : Method)
    (after : nat -> Callback) (n : Node) : list Event :=
  notified e (before (node_ndx n)) ++ [NodeCall m (node_ndx n)]
  ++ notified e (after (node_ndx n)).

Definition start_events {C} (e : PythonGraphEngine C) : list Event :=
  notified e on_before_start
  ++ concat (bracketed e on_before_start_node Start on_after_start_node <$> nodes (graph e))
  ++ notified e on_after_start.

(** [stop] tells [on_before_start_node] after a node has stopped. *)
Definition stop_events {C} (e : PythonGraphEngine C) : list Event :=
  notified e on_before_stop
  ++ concat (bracketed e on_before_stop_node Stop on_before_start_node <$> nodes (graph e))
  ++ notified e on_after_stop.

(** The nodes that [evaluate_graph] evaluates when a push is pending,
    without telling the observers, and the nodes it evaluates in every
    case: those from [push_source_nodes_end] on that are scheduled at
    [now]. *)
Definition push_nodes {C} (e : PythonGraphEngine C) : list Node :=
  take (push_source_nodes_end (graph e)) (nodes (graph e)).

Definition scheduled_nodes {C} (e : PythonGraphEngine C) (now : datetime) : list Node :=
  filter (fun n => scheduled_time n = now)
    (drop (push_source_nodes_end (graph e)) (nodes (graph e))).

Definition evaluated_nodes {C} `{ExecutionContext C} (e : PythonGraphEngine C) (ctx : C)
  : list Node :=
  (if push_has_pending_values ctx then push_nodes e else [])
  ++ scheduled_nodes e (current_engine_time ctx).

(** What [evaluate_graph] records up to the loop over the scheduled
    nodes, and in all when no node raises. *)
Definition evaluation_start {C} `{ExecutionContext C} (e : PythonGraphEngine C) (ctx : C)
  : list Event :=
  (Receiver <$> before_receivers e)
  ++ notified e on_before_evaluation
  ++ (if push_has_pending_values ctx
      then (fun n => NodeCall Eval (node_ndx n)) <$> push_nodes e else []).

Definition evaluation {C} `{ExecutionContext C} (e : PythonGraphEngine C) (ctx : C)
  : list Event :=
  evaluation_start e ctx
  ++ concat (bracketed e on_before_node_evaluation Eval on_after_node_evaluation
               <$> scheduled_nodes e (current_engine_time ctx))
  ++ (Receiver <$> after_receivers e)
  ++ notified e on_after_evaluation.

Definition requests_stop (a : Action) : bool :=
  match a with
  | RequestsStop => true
  | _ => false
  end.

(** The engine once a node's method has done [a] and returned. *)
Definition acted {C} (a : Action) (e : PythonGraphEngine C) : PythonGraphEngine C :=
  if requests_stop a then with_stop_requested e true else e.

(** The engine once [evaluate_graph] has returned: the queues are empty,
    the context is [ctx'] and the stop flag is [stop]. *)
Definition after_evaluation {C} (e : PythonGraphEngine C) (ctx' : C) (stop : bool)
  : PythonGraphEngine C :=
  with_after_notifications
    (with_before_notifications (with_stop_requested (with_context e (Some ctx')) stop) []) [].

(** A graph of two quiet nodes, and an engine on it that has been
    started: it has a context, at time 0, that proposes 20. *)
Definition started_engine : PythonGraphEngine BackTestExecutionContext :=
  with_context
    (with_is_started (with_lists (new_engine (graph_of [quiet 0; quiet 1]) BACK_TEST) [5%nat])
       true)
    (Some {| _current_time := 0; _wall_clock_time_at_current_time := 0;
             _proposed_next_engine_time := 20 |}).

(** A node whose methods raise, and a started engine that has it between
    two quiet nodes. *)
Definition faulty (ndx : nat) : Node :=
  {| node_ndx := ndx; scheduled_time := 0; start_fn := Raises;
     eval_fn := fun _ => Raises; stop_fn := Raises |}.

Definition faulty_engine : PythonGraphEngine BackTestExecutionContext :=
  with_context
    (with_is_started
       (with_lists (new_engine (graph_of [quiet 0; faulty 1; quiet 2]) BACK_TEST) [5%nat])
       true)
    (Some {| _current_time := 0; _wall_clock_time_at_current_time := 0;
             _proposed_next_engine_time := 20 |}).

(** The same engine with a stop requested and the end time 10. *)
Definition stop_requested_engine : PythonGraphEngine BackTestExecutionContext :=
  with_times (with_stop_requested started_engine true) 0 10.

End Engine.

(** ** Topological ranking: src/src/hgraph/_wiring/_graph_builder.py *)

Module Wiring.
#[local] Open Scope nat_scope.

(** A wiring node instance is an object; [node] is its identity. *)
Definition node := nat.

(** A value of [to_node.inputs]: a [WiringPort], which leads to the node
    it comes from, or anything else. *)
Inductive WiringInput :=
| WiringPort (node_instance : node)
| NotAPort.

(** What [toposort] reads of a [WiringNodeInstance] (the class is not
    among the sources): the values of [inputs] and of [rank_marker], in
    the order of the dictionaries; [is_source_node]; [is_stub]; and the
    outcome of the two identity tests on [resolved_signature.node_type],
    the one against [NodeTypeEnum.PUSH_SOURCE_NODE] and the one against
    [WiringNodeType.PUSH_SOURCE_NODE]. *)
Record WiringNodeInstance := {
  inputs : list WiringInput;
  rank_marker : list node;
  is_source_node : bool;
  is_stub : bool;
  node_type_is_NodeTypeEnum_PUSH_SOURCE_NODE : bool;
  node_type_is_WiringNodeType_PUSH_SOURCE_NODE : bool
}.

(** *** Insertion-ordered dictionaries ([processed_nodes]) *)

Definition dict := list (node * nat).

Fixpoint dict_get (k : node) (d : dict) : option nat :=
  match d with
  | [] => None
  | (k', v) :: rest => if decide (k = k') then Some v else dict_get k rest
  end.

(** [d[k] = v]: a key that is present keeps its place, a new key goes to
    the end. *)
Fixpoint dict_set (k : node) (v : nat) (d : dict) : dict :=
  match d with
  | [] => [(k, v)]
  | (k', v') :: rest =>
      if decide (k = k') then (k, v) :: rest else (k', v') :: dict_set k v rest
  end.

Definition dict_mem (k : node) (d : dict) : bool := bool_decide (is_Some (dict_get k d)).

Definition keys (d : dict) : list node := map fst d.

(** [s.add(x)] on a set. Python iterates a set in an order of its own;
    the model iterates it in the order of insertion. *)
Definition set_add (x : node) (s : list node) : list node :=
  if decide (x ∈ s) then s else s ++ [x].

(** [mapping[k]] on the [defaultdict(set)]. *)
Definition consumers (mapping : gmap node (list node)) (k : node) : list node :=
  default [] (mapping !! k).

(** [mapping[from_node].add(to_node)]. *)
Definition add_edge (from_node to_node : node) (mapping : gmap node (list node))
  : gmap node (list node) :=
  <[from_node := set_add to_node (consumers mapping from_node)]> mapping.

(** *** [sorted], on the [(rank, node)] tuples

    Tuples compare by rank, and by the nodes when the ranks are equal.
    [sorted] is stable and uses [<] only. *)
Section Sorting.
Context (node_lt : node -> node -> bool).

Definition tuple_lt (a b : nat * node) : bool :=
  if decide (a.1 = b.1) then
    if decide (a.2 = b.2) then false else node_lt a.2 b.2
  else bool_decide (a.1 < b.1)%nat.

Fixpoint insert_sorted (x : nat * node) (l : list (nat * node)) : list (nat * node) :=
  match l with
  | [] => [x]
  | y :: rest => if tuple_lt y x then y :: insert_sorted x rest else x :: y :: rest
  end.

Definition sorted (l : list (nat * node)) : list (nat * node) :=
  foldr insert_sorted [] l.

End Sorting.

Section Toposort.
(** The objects: what each node identity holds. *)
Context (heap : node -> WiringNodeInstance).
(** [WiringNodeInstance.__lt__], which the comparison of two tuples of
    equal rank falls back on. *)
Context (node_lt : node -> node -> bool).

(** [ts_nodes]: the node instances of the ports among the inputs, then
    the rank markers. *)
Definition ts_nodes (to_node : node) : list node :=
  omap (fun i => match i with WiringPort n => Some n | NotAPort => None end)
       (inputs (heap to_node))
  ++ rank_marker (heap to_node).

(** The variables of the first loop. *)
Record Discovery := {
  nodes_to_process : list node;
  processed_nodes : dict;
  mapping : gmap node (list node);
  source_nodes : list node
}.

(** The body of [for from_node in ts_nodes]. *)
Definition visit_input (to_node : node) (st : Discovery) (from_node : node) : Discovery :=
  if is_source_node (heap from_node) then
    {| nodes_to_process := nodes_to_process st;
       processed_nodes := dict_set from_node 1 (processed_nodes st);
       mapping := add_edge from_node to_node (mapping st);
       source_nodes := set_add from_node (source_nodes st) |}
  else
    {| nodes_to_process := nodes_to_process st ++ [from_node];
       processed_nodes := processed_nodes st;
       mapping := add_edge from_node to_node (mapping st);
       source_nodes := source_nodes st |}.

(** One iteration of the first [while], [to_node] being the node that
    [popleft] returned and [st] the variables after the pop. *)
Definition discover_node (to_node : node) (st : Discovery) : Discovery :=
  if dict_mem to_node (processed_nodes st) then st
  else
    foldl (visit_input to_node)
      {| nodes_to_process := nodes_to_process st;
         processed_nodes := dict_set to_node 1 (processed_nodes st);
         mapping := mapping st;
         source_nodes := source_nodes st |}
      (ts_nodes to_node).

(** The first [while]. *)
Fixpoint discover (fuel : nat) (st : Discovery) : option Discovery :=
  match nodes_to_process st with
  | [] => Some st
  | to_node :: rest =>
      match fuel with
      | O => None
      | S fuel' =>
          discover fuel'
            (discover_node to_node
               {| nodes_to_process := rest;
                  processed_nodes := processed_nodes st;
                  mapping := mapping st;
                  source_nodes := source_nodes st |})
      end
  end.

Definition discovery_start (nodes : list node) : Discovery :=
  {| nodes_to_process := nodes; processed_nodes := []; mapping := ∅; source_nodes := [] |}.

(** The variables of the second loop. [worklist] is the deque with its
    right end first: [pop()] takes the head and [append] conses. *)
Record Ranking := {
  worklist : list node;
  ranks : dict;
  max_rank : nat
}.

Definition dict_getitem (k : node) (d : dict) : pyresult nat :=
  match dict_get k d with
  | Some v => Ok v
  | None => Raise KeyError
  end.

(** The body of [for to_node in mapping[from_node]]. *)
Definition rank_consumer (from_node : node) (rk : Ranking) (to_node : node)
  : pyresult Ranking :=
  r_to ← dict_getitem to_node (ranks rk);
  r_from ← dict_getitem from_node (ranks rk);
  let r := Nat.max r_to (r_from + 1) in
  Ok {| worklist := to_node :: worklist rk;
        ranks := dict_set to_node r (ranks rk);
        max_rank := Nat.max (max_rank rk) r |}.

Fixpoint rank_consumers (from_node : node) (rk : Ranking) (to_nodes : list node)
  : pyresult Ranking :=
  match to_nodes with
  | [] => Ok rk
  | to_node :: rest =>
      rk' ← rank_consumer from_node rk to_node;
      rank_consumers from_node rk' rest
  end.

(** One iteration of the second [while], [from_node] being the node that
    [pop] returned. *)
Definition rank_node (supports_push_nodes : bool) (mapping : gmap node (list node))
    (from_node : node) (rk : Ranking) : pyresult Ranking :=
  if negb supports_push_nodes
     && node_type_is_NodeTypeEnum_PUSH_SOURCE_NODE (heap from_node)
  then Raise CustomMessageWiringError
  else
    let rk' :=
      if node_type_is_WiringNodeType_PUSH_SOURCE_NODE (heap from_node)
      then {| worklist := worklist rk;
              ranks := dict_set from_node 0 (ranks rk);
              max_rank := max_rank rk |}
      else rk in
    rank_consumers from_node rk' (consumers mapping from_node).

(** The second [while]. *)
Fixpoint rank_nodes (fuel : nat) (supports_push_nodes : bool)
    (mapping : gmap node (list node)) (rk : Ranking) : option (pyresult Ranking) :=
  match worklist rk with
  | [] => Some (Ok rk)
  | from_node :: rest =>
      match fuel with
      | O => None
      | S fuel' =>
          match rank_node supports_push_nodes mapping from_node
                  {| worklist := rest; ranks := ranks rk; max_rank := max_rank rk |} with
          | Ok rk' => rank_nodes fuel' supports_push_nodes mapping rk'
          | Raise e => Some (Raise e)
          end
      end
  end.

(** [nodes_to_process.extend(source_nodes); max_rank = 0]. *)
Definition ranking_start (st : Discovery) : Ranking :=
  {| worklist := reverse (source_nodes st); ranks := processed_nodes st; max_rank := 0 |}.

(** [for node in nodes: processed_nodes[node] = max_rank]. *)
Definition rank_sinks (nodes : list node) (rk : Ranking) : dict :=
  foldl (fun d n => dict_set n (max_rank rk) d) (ranks rk) nodes.

(** [processed_nodes] as [toposort] has it when it sorts. *)
Definition toposort_ranks (fuel : nat) (nodes : list node) (supports_push_nodes : bool)
  : option (pyresult dict) :=
  st ← discover fuel (discovery_start nodes);
  r ← rank_nodes fuel supports_push_nodes (mapping st) (ranking_start st);
  Some (rk ← r; Ok (rank_sinks nodes rk)).

(** The last statement: sort the [(rank, node)] tuples, keep the nodes
    that are no stubs. *)
Definition emit_nodes (table : dict) : list node :=
  filter (fun n => is_stub (heap n) = false)
    (map snd (sorted node_lt (map (fun kv => (kv.2, kv.1)) table))).

Definition toposort (fuel : nat) (nodes : list node) (supports_push_nodes : bool)
  : option (pyresult (list node)) :=
  r ← toposort_ranks fuel nodes supports_push_nodes;
  Some (table ← r; Ok (emit_nodes table)).

End Toposort.

(** *** The ranking as the specification words it

    The same traversal collects the nodes, in the order they are met, and
    the adjacency; then: every rank starts at 0 (step 2 names the source
    nodes); ranks are propagated from the source nodes until nothing is
    left to do (step 3); the push sources are set to 0 (step 4); the sinks
    are set to the largest rank (step 5); the nodes are emitted by rank,
    in the order they were met when ranks are equal, stubs dropped
    (step 6). *)
Section ToposortSpec.
Context (heap : node -> WiringNodeInstance).

Definition spec_rank (d : dict) (n : node) : nat := default 0 (dict_get n d).

Definition spec_propagate_node (mapping : gmap node (list node)) (from_node : node)
    (st : list node * dict) : list node * dict :=
  foldl (fun acc to_node =>
           (to_node :: acc.1,
            dict_set to_node
              (Nat.max (spec_rank acc.2 to_node) (spec_rank acc.2 from_node + 1)) acc.2))
        st (consumers mapping from_node).

Fixpoint spec_propagate (fuel : nat) (mapping : gmap node (list node))
    (work : list node) (d : dict) : option dict :=
  match work with
  | [] => Some d
  | from_node :: rest =>
      match fuel with
      | O => None
      | S fuel' =>
          let '(work', d') := spec_propagate_node mapping from_node (rest, d) in
          spec_propagate fuel' mapping work' d'
      end
  end.

Definition spec_reset_push_sources (sources : list node) (d : dict) : dict :=
  foldl (fun d n =>
           if node_type_is_WiringNodeType_PUSH_SOURCE_NODE (heap n)
           then dict_set n 0 d else d) d sources.

Definition spec_max_rank (d : dict) : nat := foldr Nat.max 0 (map snd d).

(** Stable insertion by rank alone: equal ranks keep the order in which
    the nodes were met. *)
Fixpoint spec_insert (x : node * nat) (l : dict) : dict :=
  match l with
  | [] => [x]
  | y :: rest => if bool_decide (y.2 < x.2) then y :: spec_insert x rest else x :: y :: rest
  end.

Definition toposort_spec (fuel : nat) (nodes : list node) : option (list node) :=
  st ← discover heap fuel (discovery_start nodes);
  let d0 := map (fun kv => (kv.1, 0)) (processed_nodes st) in
  d1 ← spec_propagate fuel (mapping st) (reverse (source_nodes st)) d0;
  let d2 := spec_reset_push_sources (source_nodes st) d1 in
  let d3 := foldl (fun d n => dict_set n (spec_max_rank d2) d) d2 nodes in
  Some (filter (fun n => is_stub (heap n) = false)
          (map fst (foldr spec_insert [] d3))).

End ToposortSpec.

(** *** Invariants and measures of the two loops *)

(** The order of two tuples by rank alone. *)
Definition rank_le (a b : nat * node) : Prop := a.1 <= b.1.

(** [path m g f]: [f] is [g] or a consumer, direct or not, of [g]. *)
Inductive path (m : gmap node (list node)) : node -> node -> Prop :=
| path_here g : path m g g
| path_next g t f : t ∈ consumers m g -> path m t f -> path m g f.

(** The nodes that propagation reaches: the source nodes found by the
    first loop and all their consumers. *)
Definition reached (st : Discovery) (f : node) : Prop :=
  exists s, s ∈ source_nodes st /\ path (mapping st) s f.

Definition never_consumer (st : Discovery) (n : node) : Prop :=
  forall f, n ∉ consumers (mapping st) f.

Definition is_push (heap : node -> WiringNodeInstance) (n : node) : bool :=
  node_type_is_WiringNodeType_PUSH_SOURCE_NODE (heap n).

Section Invariants.
Context (heap : node -> WiringNodeInstance) (height : node -> nat) (sinks : list node).

(** The height of the highest sink, for a height function on nodes. *)
Definition top : nat := foldr Nat.max 0 (height <$> sinks).

(** A node the first loop may take from the queue: a sink, or a node
    that is no source; it lies no higher than the highest sink. *)
Definition expandable (n : node) : Prop :=
  (n ∈ sinks \/ is_source_node (heap n) = false) /\ height n <= top.

(** What holds of the variables of the first loop at every iteration. *)
Record discovered (st : Discovery) : Prop := {
  disc_nodup : NoDup (keys (processed_nodes st));
  disc_rank : forall n r, dict_get n (processed_nodes st) = Some r -> r = 1;
  disc_edge : forall f t, t ∈ consumers (mapping st) f ->
      f ∈ ts_nodes heap t /\ t ∈ keys (processed_nodes st) /\ expandable t;
  disc_source : forall s, s ∈ source_nodes st ->
      s ∈ keys (processed_nodes st) /\ is_source_node (heap s) = true;
  disc_queue : forall q, q ∈ nodes_to_process st -> expandable q
}.

(** Every sink is still in the queue or already among the processed
    nodes. *)
Definition sinks_seen (st : Discovery) : Prop :=
  forall k, k ∈ sinks -> k ∈ nodes_to_process st \/ k ∈ keys (processed_nodes st).

(** The measure of the first loop: the number of paths that lead down
    from a node. *)
Fixpoint weight (h : nat) (n : node) : nat :=
  match h with
  | O => 1
  | S h' => S (sum_list_with (weight h') (ts_nodes heap n))
  end.

Definition cost (n : node) : nat := weight (height n) n.

(** A node whose consumers all rank above it, and below [max_rank]. A
    consumer that is itself a push source is set to 0 when it is taken
    from the worklist, so nothing is said of its rank. *)
Definition settled (st : Discovery) (rk : Ranking) (f : node) : Prop :=
  forall t, t ∈ consumers (mapping st) f ->
    exists rf rt,
      dict_get f (ranks rk) = Some rf /\ dict_get t (ranks rk) = Some rt
      /\ rf + 1 <= max_rank rk
      /\ (is_push heap t = false -> rf + 1 <= rt).

(** What holds of the variables of the second loop at every iteration,
    [st] being the outcome of the first loop. *)
Record ranked (st : Discovery) (rk : Ranking) : Prop := {
  rk_keys : keys (ranks rk) = keys (processed_nodes st);
  rk_work : forall q, q ∈ worklist rk -> q ∈ keys (processed_nodes st);
  rk_settled : forall f, reached st f ->
      settled st rk f \/ exists g, g ∈ worklist rk /\ path (mapping st) g f;
  rk_bound : forall n r, dict_get n (ranks rk) = Some r -> r <= Nat.max 1 (max_rank rk);
  rk_push : forall n, n ∈ source_nodes st -> never_consumer st n ->
      is_push heap n = true ->
      n ∈ worklist rk \/ dict_get n (ranks rk) = Some 0;
  rk_keep : forall n, never_consumer st n -> is_push heap n = false ->
      dict_get n (ranks rk) = dict_get n (processed_nodes st)
}.

(** The state after the pop and the reset of a push source. *)
Definition after_reset (g : node) (rest : list node) (rk : Ranking) : Ranking :=
  if is_push heap g
  then {| worklist := rest; ranks := dict_set g 0 (ranks rk); max_rank := max_rank rk |}
  else {| worklist := rest; ranks := ranks rk; max_rank := max_rank rk |}.

(** The measure of the second loop: the number of paths that lead up
    from a node. *)
Fixpoint up_weight (st : Discovery) (k : nat) (n : node) : nat :=
  match k with
  | O => 1
  | S k' => S (sum_list_with (up_weight st k') (consumers (mapping st) n))
  end.

Definition up_cost (st : Discovery) (n : node) : nat :=
  up_weight st (top - height n) n.

End Invariants.

(** The rank a table gives a node. *)
Definition rank_in (table : dict) (n : node) : nat := default 0 (dict_get n table).

(** Every reached node that is no sink ranks strictly below each of its
    consumers (a consumer that is a push source and no sink is set to 0
    and left out). *)
Definition ranks_ascend (heap : node -> WiringNodeInstance) (sinks : list node)
    (st : Discovery) (table : dict) : Prop :=
  forall f t,
    reached st f -> t ∈ consumers (mapping st) f -> f ∉ sinks ->
    t ∈ sinks \/ is_push heap t = false ->
    exists rf rt, dict_get f table = Some rf /\ dict_get t table = Some rt /\ rf + 1 <= rt.

(** The source nodes found, sinks apart, end at 0 when they are push
    sources and at 1, their first rank, when they are not. *)
Definition sources_ranked (heap : node -> WiringNodeInstance) (sinks : list node)
    (st : Discovery) (table : dict) : Prop :=
  forall s, s ∈ source_nodes st -> s ∉ sinks ->
    dict_get s table = Some (if is_push heap s then 0 else 1).

(** *** A small graph: a sink fed by a pull source and a push source *)

Definition sink_node : node := 0.
Definition pull_source : node := 1.
Definition push_source : node := 2.

Definition small_graph (n : node) : WiringNodeInstance :=
  match n with
  | 0 => {| inputs := [WiringPort pull_source; WiringPort push_source];
            rank_marker := []; is_source_node := false; is_stub := false;
            node_type_is_NodeTypeEnum_PUSH_SOURCE_NODE := false;
            node_type_is_WiringNodeType_PUSH_SOURCE_NODE := false |}
  | 1 => {| inputs := []; rank_marker := []; is_source_node := true; is_stub := false;
            node_type_is_NodeTypeEnum_PUSH_SOURCE_NODE := false;
            node_type_is_WiringNodeType_PUSH_SOURCE_NODE := false |}
  | _ => {| inputs := []; rank_marker := []; is_source_node := true; is_stub := false;
            node_type_is_NodeTypeEnum_PUSH_SOURCE_NODE := false;
            node_type_is_WiringNodeType_PUSH_SOURCE_NODE := true |}
  end.

(** The small graph has no cycle: the sink lies above its two sources. *)
Definition small_height (n : node) : nat :=
  match n with
  | 0 => 1
  | _ => 0
  end.

(** *** The nodes met, and the order of the result *)

(** [before l a b]: [a] stands in [l] at an earlier place than [b]. *)
Definition before (l : list node) (a b : node) : Prop :=
  exists i j, l !! i = Some a /\ l !! j = Some b /\ i < j.

(** The nodes upstream of the sinks: a sink, or an input, direct or not,
    of a sink. *)
Inductive upstream (heap : node -> WiringNodeInstance) (sinks : list node)
  : node -> Prop :=
| upstream_sink k : k ∈ sinks -> upstream heap sinks k
| upstream_input t f :
    upstream heap sinks t -> f ∈ ts_nodes heap t -> upstream heap sinks f.

(** The same, going up through nodes that are no source nodes only: the
    first loop does not take the inputs of a source node. *)
Inductive explored (heap : node -> WiringNodeInstance) (sinks : list node)
  : node -> Prop :=
| explored_sink k : k ∈ sinks -> explored heap sinks k
| explored_input t f :
    explored heap sinks t -> is_source_node (heap t) = false ->
    f ∈ ts_nodes heap t -> explored heap sinks f.

(** What holds of the variables of the first loop, whatever the shape of
    the graph, once the inputs [f] of the nodes [t] with [visited t f] have
    been visited. *)
Record surveyed_upto (heap : node -> WiringNodeInstance) (sinks : list node)
    (visited : node -> node -> Prop) (st : Discovery) : Prop := {
  sv_upstream : forall n,
      n ∈ keys (processed_nodes st) \/ n ∈ nodes_to_process st -> upstream heap sinks n;
  sv_queue : forall q,
      q ∈ nodes_to_process st -> q ∈ sinks \/ is_source_node (heap q) = false;
  sv_keys : forall n, n ∈ keys (processed_nodes st) ->
      n ∈ sinks \/ is_source_node (heap n) = false \/ n ∈ source_nodes st;
  sv_inputs : forall t f,
      t ∈ keys (processed_nodes st) -> is_source_node (heap t) = false ->
      f ∈ ts_nodes heap t -> visited t f ->
      (f ∈ keys (processed_nodes st) \/ f ∈ nodes_to_process st)
      /\ t ∈ consumers (mapping st) f;
  sv_edge : forall f t, t ∈ consumers (mapping st) f ->
      f ∈ ts_nodes heap t /\ t ∈ keys (processed_nodes st)
      /\ (is_source_node (heap f) = true -> f ∈ source_nodes st);
  sv_source : forall s, s ∈ source_nodes st ->
      s ∈ keys (processed_nodes st) /\ is_source_node (heap s) = true
      /\ exists t, t ∈ consumers (mapping st) s;
  sv_sinks : forall k,
      k ∈ sinks -> k ∈ keys (processed_nodes st) \/ k ∈ nodes_to_process st
}.

(** Between two iterations of the first loop every input of a node that
    has been taken from the queue has been visited. *)
Definition surveyed (heap : node -> WiringNodeInstance) (sinks : list node)
    (st : Discovery) : Prop :=
  surveyed_upto heap sinks (fun _ _ => True) st.

(** No rank of a node that is no push source is below 1. *)
Definition ranks_low (heap : node -> WiringNodeInstance) (d : dict) : Prop :=
  forall n r, dict_get n d = Some r -> is_push heap n = false -> 1 <= r.

(** The rank a producer hands on: a push source hands on 0. *)
Definition handed_on (heap : node -> WiringNodeInstance) (f : node) (rf : nat) : nat :=
  if is_push heap f then 0 else rf.

(** No rank is higher than needed: a rank above 1 is one more than what
    some producer of the node hands on, or less. *)
Definition ranks_tight (heap : node -> WiringNodeInstance) (m : gmap node (list node))
    (d : dict) : Prop :=
  forall t r, dict_get t d = Some r -> is_push heap t = false ->
    r <= 1 \/ exists f rf, t ∈ consumers m f /\ dict_get f d = Some rf
                           /\ r <= handed_on heap f rf + 1.

(** The test that makes [toposort] refuse a node when push nodes are not
    supported. *)
Definition is_NodeTypeEnum_push (heap : node -> WiringNodeInstance) (n : node) : bool :=
  node_type_is_NodeTypeEnum_PUSH_SOURCE_NODE (heap n).

(** A chain of three nodes above two sources: node 0 is the sink and reads
    node 1, which reads the pull source 2 and the push source 3. *)
Definition chain_graph (n : node) : WiringNodeInstance :=
  match n with
  | 0 => {| inputs := [WiringPort 1]; rank_marker := [];
            is_source_node := false; is_stub := false;
            node_type_is_NodeTypeEnum_PUSH_SOURCE_NODE := false;
            node_type_is_WiringNodeType_PUSH_SOURCE_NODE := false |}
  | 1 => {| inputs := [WiringPort 2; NotAPort; WiringPort 3]; rank_marker := [];
            is_source_node := false; is_stub := false;
            node_type_is_NodeTypeEnum_PUSH_SOURCE_NODE := false;
            node_type_is_WiringNodeType_PUSH_SOURCE_NODE := false |}
  | 2 => {| inputs := []; rank_marker := []; is_source_node := true; is_stub := false;
            node_type_is_NodeTypeEnum_PUSH_SOURCE_NODE := false;
            node_type_is_WiringNodeType_PUSH_SOURCE_NODE := false |}
  | _ => {| inputs := []; rank_marker := []; is_source_node := true; is_stub := false;
            node_type_is_NodeTypeEnum_PUSH_SOURCE_NODE := true;
            node_type_is_WiringNodeType_PUSH_SOURCE_NODE := true |}
  end.

Definition chain_height (n : node) : nat :=
  match n with
  | 0 => 2
  | 1 => 1
  | _ => 0
  end.

(** [feeds heap sinks f t]: [f] is an input, direct or not, of [t], and
    every node on the way from [f] to [t], [f] apart, is met going up from
    the sinks and is no source node. *)
Inductive feeds (heap : node -> WiringNodeInstance) (sinks : list node)
  : node -> node -> Prop :=
| feeds_input f t :
    explored heap sinks t -> is_source_node (heap t) = false ->
    f ∈ ts_nodes heap t -> feeds heap sinks f t
| feeds_through f u t :
    explored heap sinks u -> is_source_node (heap u) = false ->
    f ∈ ts_nodes heap u -> feeds heap sinks u t -> feeds heap sinks f t.

(** [g] leads to a node that is on a cycle of the adjacency [m]. *)
Definition leads_to_cycle (m : gmap node (list node)) (g : node) : Prop :=
  exists c t, path m g c /\ t ∈ consumers m c /\ path m t c.

(** A graph with a cycle: node 0 is the sink and reads node 1; node 1
    reads node 2 and the source 3; node 2 reads node 1. *)
Definition loop_graph (n : node) : WiringNodeInstance :=
  match n with
  | 0 => {| inputs := [WiringPort 1]; rank_marker := [];
            is_source_node := false; is_stub := false;
            node_type_is_NodeTypeEnum_PUSH_SOURCE_NODE := false;
            node_type_is_WiringNodeType_PUSH_SOURCE_NODE := false |}
  | 1 => {| inputs := [WiringPort 2; WiringPort 3]; rank_marker := [];
            is_source_node := false; is_stub := false;
            node_type_is_NodeTypeEnum_PUSH_SOURCE_NODE := false;
            node_type_is_WiringNodeType_PUSH_SOURCE_NODE := false |}
  | 2 => {| inputs := [WiringPort 1]; rank_marker := [];
            is_source_node := false; is_stub := false;
            node_type_is_NodeTypeEnum_PUSH_SOURCE_NODE := false;
            node_type_is_WiringNodeType_PUSH_SOURCE_NODE := false |}
  | _ => {| inputs := []; rank_marker := []; is_source_node := true; is_stub := false;
            node_type_is_NodeTypeEnum_PUSH_SOURCE_NODE := false;
            node_type_is_WiringNodeType_PUSH_SOURCE_NODE := false |}
  end.

(** *** The order of the tuples, and the largest rank *)

(** The order in which two (rank, node) tuples compare: by rank, and by
    the nodes' own comparison when the ranks are equal. [tuple_le] allows
    the two tuples to hold the same node. *)
Definition tuple_le (node_lt : node -> node -> bool) (a b : nat * node) : Prop :=
  a.1 < b.1 \/ (a.1 = b.1 /\ (a.2 = b.2 \/ node_lt a.2 b.2 = true)).

(** The same order, read on the nodes of a table of ranks. *)
Definition tuple_order (node_lt : node -> node -> bool) (table : dict) (a b : node) : Prop :=
  rank_in table a < rank_in table b
  \/ (rank_in table a = rank_in table b /\ node_lt a b = true).

(** The comparison of nodes is a strict total order. *)
Record strict_total_order (node_lt : node -> node -> bool) : Prop := {
  lt_irreflexive : forall a, node_lt a a = false;
  lt_transitive : forall a b c,
      node_lt a b = true -> node_lt b c = true -> node_lt a c = true;
  lt_total : forall a b, a <> b -> node_lt a b = true \/ node_lt b a = true
}.

(** [mr] is a rank that the second loop has assigned: it is still 0,
    nothing having been assigned, or some consumer was given a rank of at
    least [mr] and has it still, unless that consumer is a push source,
    which the loop sets back to 0 when it takes it from the worklist. *)
Definition max_rank_assigned (heap : node -> WiringNodeInstance)
    (m : gmap node (list node)) (d : dict) (mr : nat) : Prop :=
  mr = 0
  \/ exists t f, t ∈ consumers m f
       /\ (is_push heap t = true \/ exists r, dict_get t d = Some r /\ mr <= r).

(** A sink that reads two pull sources, node 2 before node 1: the two
    sources get the same rank. *)
Definition tie_graph (n : node) : WiringNodeInstance :=
  match n with
  | 0 => {| inputs := [WiringPort 2; WiringPort 1]; rank_marker := [];
            is_source_node := false; is_stub := false;
            node_type_is_NodeTypeEnum_PUSH_SOURCE_NODE := false;
            node_type_is_WiringNodeType_PUSH_SOURCE_NODE := false |}
  | _ => {| inputs := []; rank_marker := []; is_source_node := true; is_stub := false;
            node_type_is_NodeTypeEnum_PUSH_SOURCE_NODE := false;
            node_type_is_WiringNodeType_PUSH_SOURCE_NODE := false |}
  end.

End Wiring.

(** * Facts

    The models above are the embedding; what follows is proved of them. *)

(** ** Set outputs: facts *)

Module TssFacts.
Import Tss.

Section WithScalar.
Context {SCALAR : Type} {SCALAR_eq : EqDecision SCALAR} {SCALAR_countable : Countable SCALAR}.

(** *** Facts about [apply_result] and [delta_value] *)

Lemma filter_added_difference (value : gset SCALAR) (d : PythonSetDelta SCALAR) :
  filter_added value d = added d ∖ value.
Proof. unfold filter_added. set_solver. Qed.

Lemma filter_removed_intersection (value : gset SCALAR) (d : PythonSetDelta SCALAR) :
  filter_removed value d = removed d ∩ value.
Proof. unfold filter_removed. set_solver. Qed.

Lemma filtered_sets_disjoint (value : gset SCALAR) (d : PythonSetDelta SCALAR) :
  filter_removed value d ∩ filter_added value d = ∅.
Proof.
  rewrite filter_added_difference, filter_removed_intersection. set_solver.
Qed.

Lemma is_empty_set_true (s : gset SCALAR) : is_empty_set s = true <-> s = ∅.
Proof. unfold is_empty_set. apply bool_decide_eq_true. Qed.

Lemma mark_if_changed_delta (now : datetime) (o : PythonTimeSeriesSetOutput SCALAR) :
  _added (mark_if_changed now o) = _added o /\
  _removed (mark_if_changed now o) = _removed o /\
  _value (mark_if_changed now o) = _value o.
Proof.
  unfold mark_if_changed.
  destruct (_added o) as [a|] eqn:Ha, (_removed o) as [r|] eqn:Hr; auto.
  destruct (negb (is_empty_set a) || negb (is_empty_set r) || negb (valid o)); simpl; auto.
Qed.

Lemma apply_result_delta_ok (now : datetime) (o : PythonTimeSeriesSetOutput SCALAR)
    (d : PythonSetDelta SCALAR) :
  exists o', apply_result now o (ResultDelta d) = Ok o'
    /\ _added o' = Some (filter_added (_value o) d)
    /\ _removed o' = Some (filter_removed (_value o) d)
    /\ _value o' = (_value o ∪ filter_added (_value o) d) ∖ filter_removed (_value o) d.
Proof.
  unfold apply_result.
  assert (E : is_empty_set (filter_removed (_value o) d ∩ filter_added (_value o) d) = true)
    by (apply is_empty_set_true, filtered_sets_disjoint).
  rewrite E. eexists. split; [reflexivity|].
  match goal with |- context [mark_if_changed now ?x] =>
    destruct (mark_if_changed_delta now x) as (-> & -> & ->) end.
  simpl. auto.
Qed.

(** C9. Whatever set the output holds and whatever delta is applied, the
    filtered removed set and the filtered added set of [apply_result] have
    no element in common; so no call of [apply_result], with any result,
    raises: the ValueError is unreachable. *)
Theorem apply_result_never_raises (now : datetime) (o : PythonTimeSeriesSetOutput SCALAR)
    (d : PythonSetDelta SCALAR) :
  filter_removed (_value o) d ∩ filter_added (_value o) d = ∅
  /\ (forall result, exists o', apply_result now o result = Ok o').
Proof.
  split; [apply filtered_sets_disjoint|].
  intros [| d' | s].
  - by eexists.
  - destruct (apply_result_delta_ok now o d') as (o' & E & _). by exists o'.
  - by eexists.
Qed.

(** C6, as amended. Reading [delta_value] in the tick in which
    [apply_result] took the delta [d] returns the part of [d] that changed
    the set: the added elements that were not members and the removed
    elements that were. That delta is equivalent to [d] exactly when no
    added element was a member and every removed element was one. *)
Theorem apply_result_then_delta_value (now : datetime) (o : PythonTimeSeriesSetOutput SCALAR)
    (d : PythonSetDelta SCALAR) :
  exists o',
    apply_result now o (ResultDelta d) = Ok o'
    /\ delta_value o' = Ok {| added := added d ∖ _value o; removed := removed d ∩ _value o |}
    /\ (delta_equiv {| added := added d ∖ _value o; removed := removed d ∩ _value o |} d
        <-> added d ## _value o /\ removed d ⊆ _value o).
Proof.
  destruct (apply_result_delta_ok now o d) as (o' & E & Ha & Hr & _).
  exists o'. split; [exact E|]. split.
  - unfold delta_value. rewrite Ha, Hr.
    by rewrite filter_added_difference, filter_removed_intersection.
  - unfold delta_equiv; simpl. set_solver.
Qed.

(** *** More about [apply_result]: what the stored delta says *)

Lemma apply_result_set_ok (now : datetime) (o : PythonTimeSeriesSetOutput SCALAR)
    (s : gset SCALAR) :
  exists o', apply_result now o (ResultSet s) = Ok o'
    /\ _added o' = Some s /\ _removed o' = Some ∅ /\ _value o' = _value o ∪ s.
Proof.
  unfold apply_result. eexists. split; [reflexivity|].
  match goal with |- context [mark_if_changed now ?x] =>
    destruct (mark_if_changed_delta now x) as (-> & -> & ->) end.
  simpl. auto.
Qed.

(** [mark_if_changed] queues [_reset] once, or leaves the output alone. *)
Lemma mark_if_changed_resets (now : datetime) (o : PythonTimeSeriesSetOutput SCALAR)
    (a r : gset SCALAR) :
  _added o = Some a -> _removed o = Some r ->
  after_evaluation_resets (mark_if_changed now o)
  = (after_evaluation_resets o
     + if bool_decide (a = ∅ /\ r = ∅) && valid o then 0 else 1)%nat.
Proof.
  intros Ha Hr. unfold mark_if_changed, is_empty_set. rewrite Ha, Hr.
  destruct (valid o); repeat case_bool_decide; simpl; try lia; tauto.
Qed.

(** X1. After [apply_result] has taken a [SetDelta], the stored delta is
    exactly the change of the value: the added set holds the elements
    that are members now and were not before, the removed set the elements
    that were members before and are not now. *)
Theorem apply_result_delta_is_the_change (now : datetime)
    (o : PythonTimeSeriesSetOutput SCALAR) (d : PythonSetDelta SCALAR) :
  exists o',
    apply_result now o (ResultDelta d) = Ok o'
    /\ _added o' = Some (_value o' ∖ _value o)
    /\ _removed o' = Some (_value o ∖ _value o').
Proof.
  destruct (apply_result_delta_ok now o d) as (o' & E & Ha & Hr & Hv).
  exists o'. split; [exact E|]. rewrite Ha, Hr, Hv.
  rewrite filter_added_difference, filter_removed_intersection.
  split; f_equal; apply set_eq; intros x;
    destruct (decide (x ∈ _value o)), (decide (x ∈ removed d)); set_solver.
Qed.

(** X2. When [apply_result] is given a plain set instead of a [SetDelta],
    the whole set is stored as added, members included: the value grows by
    the set and nothing is removed, but the stored added set is the change
    of the value only when no element of the set was a member already. *)
Theorem apply_result_set_reports_members (now : datetime)
    (o : PythonTimeSeriesSetOutput SCALAR) (s : gset SCALAR) :
  exists o',
    apply_result now o (ResultSet s) = Ok o'
    /\ _value o' = _value o ∪ s
    /\ delta_value o' = Ok {| added := s; removed := ∅ |}
    /\ (forall x, was_added o' x = Ok (bool_decide (x ∈ s)))
    /\ (s = _value o' ∖ _value o <-> s ## _value o).
Proof.
  destruct (apply_result_set_ok now o s) as (o' & E & Ha & Hr & Hv).
  exists o'. split; [exact E|]. split; [exact Hv|]. split.
  { unfold delta_value. by rewrite Ha, Hr. }
  split.
  { intros x. unfold was_added. by rewrite Ha. }
  rewrite Hv. set_solver.
Qed.

(** X3. Applying the same [SetDelta] a second time, when its added and
    removed sets share no element, leaves the value as the first
    application made it, and replaces the stored delta by an empty one:
    [delta_value] then reports no change, even in the same tick. *)
Theorem apply_result_same_delta_twice (now now' : datetime)
    (o : PythonTimeSeriesSetOutput SCALAR) (d : PythonSetDelta SCALAR) :
  added d ## removed d ->
  exists o1 o2,
    apply_result now o (ResultDelta d) = Ok o1
    /\ apply_result now' o1 (ResultDelta d) = Ok o2
    /\ _value o2 = _value o1
    /\ delta_value o2 = Ok {| added := ∅; removed := ∅ |}.
Proof.
  intros Hdisj.
  destruct (apply_result_delta_ok now o d) as (o1 & E1 & _ & _ & Hv1).
  destruct (apply_result_delta_ok now' o1 d) as (o2 & E2 & Ha2 & Hr2 & Hv2).
  exists o1, o2. split; [exact E1|]. split; [exact E2|].
  rewrite filter_added_difference, filter_removed_intersection in *.
  assert (Ha : added d ∖ _value o1 = ∅) by (rewrite Hv1; set_solver).
  assert (Hr : removed d ∩ _value o1 = ∅) by (rewrite Hv1; set_solver).
  split.
  - rewrite Hv2, Ha, Hr. set_solver.
  - unfold delta_value. by rewrite Ha2, Hr2, Ha, Hr.
Qed.

(** X4. Membership after [apply_result] has taken a [SetDelta]: an element
    is a member afterwards exactly when it was a member and is not listed
    as removed, or was no member and is listed as added. An element listed
    both as added and as removed is thus toggled. *)
Theorem contains_after_apply_result (now : datetime)
    (o : PythonTimeSeriesSetOutput SCALAR) (d : PythonSetDelta SCALAR) (x : SCALAR) :
  exists o',
    apply_result now o (ResultDelta d) = Ok o'
    /\ (__contains__ o' x = true
        <-> ((x ∈ _value o /\ ~ x ∈ removed d) \/ (~ x ∈ _value o /\ x ∈ added d))).
Proof.
  destruct (apply_result_delta_ok now o d) as (o' & E & _ & _ & Hv).
  exists o'. split; [exact E|].
  unfold __contains__. rewrite bool_decide_eq_true, Hv.
  rewrite filter_added_difference, filter_removed_intersection.
  destruct (decide (x ∈ _value o)); set_solver.
Qed.

(** X5. [apply_result] queues the [_reset] callback at most once: not at
    all for [None]; for a [SetDelta], once unless the value is unchanged
    and the output is valid; for a plain set, once unless the set is empty
    and the output is valid (a non-empty set of elements that are all
    members already still marks the output modified). *)
Theorem apply_result_queues_reset (now : datetime)
    (o : PythonTimeSeriesSetOutput SCALAR) (result : Result SCALAR) :
  exists o',
    apply_result now o result = Ok o'
    /\ after_evaluation_resets o'
       = (after_evaluation_resets o
          + match result with
            | ResultNone => 0
            | ResultDelta _ =>
                if bool_decide (_value o' = _value o) && valid o then 0 else 1
            | ResultSet s => if bool_decide (s = ∅) && valid o then 0 else 1
            end)%nat.
Proof.
  destruct result as [|d|s].
  - exists o. split; [reflexivity|]. lia.
  - destruct (apply_result_delta_ok now o d) as (o' & E & _ & _ & Hv).
    exists o'. split; [exact E|].
    assert (Hsame : _value o' = _value o
                    <-> filter_added (_value o) d = ∅ /\ filter_removed (_value o) d = ∅).
    { rewrite Hv, filter_added_difference, filter_removed_intersection. set_solver. }
    unfold apply_result in E.
    rewrite (proj2 (is_empty_set_true _) (filtered_sets_disjoint (_value o) d)) in E.
    injection E as <-.
    erewrite mark_if_changed_resets by reflexivity. simpl. f_equal.
    match goal with |- context [mark_if_changed now ?x] =>
      destruct (mark_if_changed_delta now x) as (_ & _ & Hv') end.
    rewrite Hv' in Hsame. simpl in Hsame. rewrite Hv. clear Hv Hv'.
    destruct (valid o); repeat case_bool_decide; simpl; try lia; tauto.
  - eexists. split; [reflexivity|].
    erewrite mark_if_changed_resets by reflexivity. simpl. f_equal.
    destruct (valid o); repeat case_bool_decide; simpl; try lia; set_solver.
Qed.

(** X6. [copy_from_output] only ever adds: the value becomes the union of
    the old value and the other output's value, the stored delta lists the
    other output's elements that were missing and removes nothing, and the
    two values agree afterwards only if the old value held nothing that the
    other output lacks. [_reset] is queued when something was added. *)
Theorem copy_from_output_only_adds (now : datetime)
    (o other : PythonTimeSeriesSetOutput SCALAR) :
  _value (copy_from_output now o other) = _value o ∪ _value other
  /\ delta_value (copy_from_output now o other)
     = Ok {| added := _value other ∖ _value o; removed := ∅ |}
  /\ (_value (copy_from_output now o other) = _value other <-> _value o ⊆ _value other)
  /\ after_evaluation_resets (copy_from_output now o other)
     = (after_evaluation_resets o
        + if bool_decide (_value other ⊆ _value o) then 0 else 1)%nat.
Proof.
  unfold copy_from_output, is_empty_set.
  assert (Hv : _value o ∪ _value other ∖ _value o = _value o ∪ _value other).
  { apply set_eq. intros x. destruct (decide (x ∈ _value o)); set_solver. }
  assert (Hsub : _value other ∖ _value o = ∅ <-> _value other ⊆ _value o).
  { split; [|set_solver]. intros He x Hx.
    destruct (decide (x ∈ _value o)); [done|].
    assert (x ∈ _value other ∖ _value o) by set_solver. set_solver. }
  case_bool_decide as He; simpl.
  - apply Hsub in He as Hs. split; [set_solver|]. split; [reflexivity|].
    split; [set_solver|]. rewrite bool_decide_eq_true_2 by done. lia.
  - rewrite Hv. split; [reflexivity|]. split; [reflexivity|].
    split; [set_solver|]. rewrite bool_decide_eq_false_2 by (by rewrite <- Hsub). lia.
Qed.

(** X7. [was_removed] of a set input calls itself: whatever the number of
    nested calls the interpreter allows, the call reaches that limit and
    yields no answer. [was_added] and [__contains__] of the same input
    answer from the output the input is bound to. *)
Theorem input_was_removed_never_finishes (limit : nat)
    (i : PythonTimeSeriesSetInput SCALAR) (item : SCALAR) :
  input_was_removed limit i item = RecursionLimit bool
  /\ input_was_added i item = was_added (output i) item
  /\ input_contains i item = __contains__ (output i) item.
Proof.
  split; [|split; reflexivity].
  induction limit as [|limit IH]; [reflexivity|exact IH].
Qed.

End WithScalar.

Lemma apply_result_same_delta_twice_witness :
  added adds_one ## removed adds_one
  /\ exists o1 o2,
       apply_result 5%Z holds_one (ResultDelta adds_one) = Ok o1
       /\ apply_result 5%Z o1 (ResultDelta adds_one) = Ok o2
       /\ _value o2 = _value o1
       /\ delta_value o2 = Ok {| added := ∅; removed := ∅ |}.
Proof.
  assert (Hdisj : added adds_one ## removed adds_one) by (simpl; set_solver).
  split; [exact Hdisj|].
  exact (apply_result_same_delta_twice 5%Z 5%Z holds_one adds_one Hdisj).
Defined.

(** C6 as stated fails: the output holds 1, the delta adds 1, and the delta
    read back in the same tick adds nothing. *)
Lemma delta_value_drops_present_element :
  exists o' d',
    apply_result 5%Z holds_one (ResultDelta adds_one) = Ok o'
    /\ delta_value o' = Ok d'
    /\ added d' = ∅
    /\ ~ delta_equiv d' adds_one.
Proof.
  destruct (apply_result_delta_ok 5%Z holds_one adds_one) as (o' & E & Ha & Hr & _).
  exists o', {| added := filter_added (_value holds_one) adds_one;
               removed := filter_removed (_value holds_one) adds_one |}.
  split; [exact E|]. split; [unfold delta_value; by rewrite Ha, Hr|].
  rewrite filter_added_difference. simpl.
  split; [set_solver|].
  unfold delta_equiv; simpl. intros [Hadd _].
  assert (1%Z ∈ ({[1%Z]} ∖ {[1%Z]} : gset Z)) by (rewrite Hadd; set_solver).
  set_solver.
Qed.

End TssFacts.

(** ** Bundle inputs: facts *)

Module TsbFacts.
Import Tsb.

(** *** Facts about [valid] *)

Lemma has_peer_bound_output (o : TimeSeriesOutput) (a : bool)
    (children : list (string * TimeSeriesInput)) :
  has_peer (PythonTimeSeriesBundleInput (Some o) a children) = true.
Proof. reflexivity. Qed.

Lemma has_peer_no_output (a : bool) (children : list (string * TimeSeriesInput)) :
  has_peer (PythonTimeSeriesBundleInput None a children) = false.
Proof. reflexivity. Qed.

Lemma bind_output_has_output (i i' : TimeSeriesInput) (o : TimeSeriesOutput) :
  bind_output i o = Ok i' -> input_output i' = Some o.
Proof.
  destruct i as [o0 a | o0 a children]; simpl.
  - intros [= <-]. reflexivity.
  - match goal with |- context [mbind _ ?r] => destruct r as [cs'|e] end; simpl.
    + intros [= <-]. reflexivity.
    + discriminate.
Qed.

(** After a successful [bind_output] the input has a peer and is valid
    exactly when the output it was bound to is. *)
Lemma valid_after_bind_output (i i' : TimeSeriesInput) (o : TimeSeriesOutput) :
  bind_output i o = Ok i' -> valid i' = output_valid o.
Proof.
  intros Hb. pose proof (bind_output_has_output _ _ _ Hb) as Ho.
  destruct i' as [o' a | o' a children]; simpl in *; subst o'; reflexivity.
Qed.

(** C7. A bundle input bound to a peer output is valid exactly when that
    output is; a bundle input without a peer is valid exactly when at least
    one of its child inputs is. *)
Theorem bundle_input_valid (o : TimeSeriesOutput) (a : bool)
    (children : list (string * TimeSeriesInput)) :
  valid (PythonTimeSeriesBundleInput (Some o) a children) = output_valid o
  /\ valid (PythonTimeSeriesBundleInput None a children)
     = existsb valid (map snd children).
Proof.
  split; [reflexivity|].
  simpl. induction children as [|[k ts] rest IH]; simpl; [reflexivity|].
  f_equal. exact IH.
Qed.


(** X27. For a bundle input without a peer, [all_valid] gives [valid] as
    soon as the bundle has a child: all of the children being valid, one
    is. A bundle input without a peer and without children is [all_valid]
    and not [valid]. *)
Theorem all_valid_unbound_bundle (a : bool) (children : list (string * TimeSeriesInput)) :
  (children <> [] ->
   all_valid (PythonTimeSeriesBundleInput None a children) = true ->
   valid (PythonTimeSeriesBundleInput None a children) = true)
  /\ all_valid (PythonTimeSeriesBundleInput None a []) = true
  /\ valid (PythonTimeSeriesBundleInput None a []) = false.
Proof.
  split; [|split; reflexivity].
  destruct children as [|[k ts] rest]; [done|]. intros _. simpl.
  destruct (valid ts); [done|]. discriminate.
Qed.

End TsbFacts.

(** ** The graph builder: facts *)

Module BuilderFacts.
Import Builder.

(** *** Facts about [make_instance] *)

Lemma _extract_output_empty (node : Node) :
  _extract_output node [] = Raise (RuntimeError "No path to find an output for").
Proof. reflexivity. Qed.

Lemma _extract_input_empty (node : Node) :
  _extract_input node [] = Raise (RuntimeError "No path to find an input for").
Proof. reflexivity. Qed.

Lemma wire_edge_empty_path (nodes : list Node) (edge : Edge) :
  has_empty_path edge -> raises (wire_edge nodes edge).
Proof.
  intros Hempty. unfold wire_edge, raises.
  destruct (nodes_getitem nodes (src_node edge)) as [src|e]; simpl; [|by eexists].
  destruct (nodes_getitem nodes (dst_node edge)) as [dst|e]; simpl; [|by eexists].
  destruct Hempty as [Ho | Hi].
  - rewrite Ho. simpl. by eexists.
  - destruct (_extract_output src (output_path edge)) as [out|e]; simpl; [|by eexists].
    rewrite Hi. simpl. by eexists.
Qed.

Lemma wire_edges_empty_path (edges : list Edge) :
  forall nodes, Exists has_empty_path edges -> raises (wire_edges nodes edges).
Proof.
  induction edges as [|edge rest IH]; intros nodes Hex.
  - inversion Hex.
  - simpl. destruct (wire_edge nodes edge) as [nodes'|e] eqn:Hw; simpl.
    + apply Exists_cons in Hex as [Hhere | Hlater].
      * destruct (wire_edge_empty_path nodes edge Hhere) as [e He]. congruence.
      * by apply IH.
    + by eexists.
Qed.

(** The edge that fails first decides the error: when every node exists
    and the edge names no output path, the error is the RuntimeError of
    [_extract_output]. *)
Lemma wire_edge_no_output_path (nodes : list Node) (edge : Edge) (src dst : Node) :
  nodes !! src_node edge = Some src ->
  nodes !! dst_node edge = Some dst ->
  output_path edge = [] ->
  wire_edge nodes edge = Raise (RuntimeError "No path to find an output for").
Proof.
  intros Hs Hd Ho. unfold wire_edge, nodes_getitem. rewrite Hs, Hd, Ho. reflexivity.
Qed.

(** C10. When some declared edge has an empty output path or an empty
    input path, [make_instance] raises; it returns a graph only when every
    path of every edge is non-empty. *)
Theorem make_instance_empty_path_raises (b : PythonGraphBuilder) (graph_id : list Z) :
  Exists has_empty_path (edges b) -> raises (make_instance b graph_id).
Proof.
  intros Hex. unfold make_instance.
  destruct (make_nodes graph_id (node_builders b)) as [nodes|e]; simpl; [|by eexists].
  destruct (wire_edges_empty_path (edges b) nodes Hex) as [e ->]. simpl. by eexists.
Qed.

Lemma make_instance_empty_path_raises_witness :
  Exists has_empty_path (edges pathless_builder)
  /\ raises (make_instance pathless_builder []).
Proof.
  assert (Hex : Exists has_empty_path (edges pathless_builder)).
  { simpl. apply Exists_cons_tl, Exists_cons_hd. left. reflexivity. }
  split; [exact Hex|].
  exact (make_instance_empty_path_raises pathless_builder [] Hex).
Defined.

(** The other direction of the same fact: a graph comes back only when no
    edge has an empty path. *)
Lemma make_instance_ok_paths_nonempty (b : PythonGraphBuilder) (graph_id : list Z)
    (g : GraphImpl) :
  make_instance b graph_id = Ok g ->
  Forall (fun edge => output_path edge <> [] /\ input_path edge <> []) (edges b).
Proof.
  unfold make_instance. intros Hok.
  destruct (make_nodes graph_id (node_builders b)) as [nodes|e]; simpl in Hok; [|done].
  destruct (wire_edges nodes (edges b)) as [wired|e] eqn:Hw; simpl in Hok; [|done].
  apply Forall_forall. intros edge Hin.
  assert (Hne : ~ has_empty_path edge).
  { intros Hempty.
    destruct (wire_edges_empty_path (edges b) nodes) as [e He]; [|congruence].
    apply Exists_exists. by exists edge. }
  unfold has_empty_path in Hne. tauto.
Qed.

(** *** What [make_instance] builds *)

Section MakeInstance.
#[local] Open Scope nat_scope.

Lemma make_nodes_Forall2 (graph_id : list Z) (builders : list NodeBuilder) :
  forall nodes,
    make_nodes graph_id builders = Ok nodes ->
    Forall2 (fun nb n => nb_make_instance nb graph_id = Ok n) builders nodes.
Proof.
  induction builders as [|nb rest IH]; intros nodes; simpl.
  - intros [= <-]. constructor.
  - destruct (nb_make_instance nb graph_id) as [n|e] eqn:Hn; simpl; [|done].
    destruct (make_nodes graph_id rest) as [ns|e]; simpl; [|done].
    intros [= <-]. constructor; [done|by apply IH].
Qed.

Lemma wire_edge_Some (nodes nodes' : list Node) (edge : Edge) :
  wire_edge nodes edge = Ok nodes' ->
  exists src dst out i,
    nodes !! src_node edge = Some src
    /\ nodes !! dst_node edge = Some dst
    /\ _extract_output src (output_path edge) = Ok out
    /\ _extract_input dst (input_path edge) = Ok (Some i)
    /\ nodes' = <[dst_node edge :=
                   attach_node dst (input_path edge)
                     {| ref_node := src_node edge; ref_path := output_path edge |}]> nodes.
Proof.
  unfold wire_edge, nodes_getitem.
  destruct (nodes !! src_node edge) as [src|] eqn:Hs; simpl; [|done].
  destruct (nodes !! dst_node edge) as [dst|] eqn:Hd; simpl; [|done].
  destruct (_extract_output src (output_path edge)) as [out|] eqn:Ho; simpl; [|done].
  destruct (_extract_input dst (input_path edge)) as [[i|]|] eqn:Hi; simpl; [|done|done].
  intros [= <-]. by exists src, dst, out, i.
Qed.

(** Wiring an edge changes the input of the consumer and nothing else. *)
Lemma wire_edge_lookup (nodes nodes' : list Node) (edge : Edge) (k : nat) (n' : Node) :
  wire_edge nodes edge = Ok nodes' -> nodes' !! k = Some n' ->
  exists n, nodes !! k = Some n
    /\ node_ndx n' = node_ndx n /\ output n' = output n /\ initialised n' = initialised n
    /\ (k <> dst_node edge -> n' = n).
Proof.
  intros (src & dst & out & i & Hs & Hd & _ & _ & ->)%wire_edge_Some Hk.
  destruct (decide (dst_node edge = k)) as [<-|Hne].
  - rewrite list_lookup_insert_eq in Hk by (by eapply lookup_lt_Some).
    injection Hk as <-. exists dst. by repeat split.
  - rewrite list_lookup_insert_ne in Hk by done. exists n'. by repeat split.
Qed.

Lemma wire_edge_length (nodes nodes' : list Node) (edge : Edge) :
  wire_edge nodes edge = Ok nodes' -> length nodes' = length nodes.
Proof.
  intros (src & dst & out & i & _ & _ & _ & _ & ->)%wire_edge_Some. apply length_insert.
Qed.

Lemma wire_edges_lookup (edges : list Edge) :
  forall nodes nodes' k n',
    wire_edges nodes edges = Ok nodes' -> nodes' !! k = Some n' ->
    exists n, nodes !! k = Some n
      /\ node_ndx n' = node_ndx n /\ output n' = output n /\ initialised n' = initialised n.
Proof.
  induction edges as [|edge rest IH]; intros nodes nodes' k n'; simpl.
  - intros [= <-] Hk. exists n'. by repeat split.
  - destruct (wire_edge nodes edge) as [nodes1|] eqn:Hw; simpl; [|done].
    intros Hrest Hk.
    destruct (IH _ _ _ _ Hrest Hk) as (n1 & Hk1 & Hx & Ho & Hi).
    destruct (wire_edge_lookup _ _ _ _ _ Hw Hk1) as (n & Hk0 & Hx0 & Ho0 & Hi0 & _).
    exists n. repeat split; congruence.
Qed.

Lemma wire_edges_length (edges : list Edge) :
  forall nodes nodes', wire_edges nodes edges = Ok nodes' -> length nodes' = length nodes.
Proof.
  induction edges as [|edge rest IH]; intros nodes nodes'; simpl.
  - by intros [= <-].
  - destruct (wire_edge nodes edge) as [nodes1|] eqn:Hw; simpl; [|done].
    intros Hrest. rewrite (IH _ _ Hrest). by eapply wire_edge_length.
Qed.

Lemma wire_edges_app (l1 l2 : list Edge) :
  forall nodes,
    wire_edges nodes (l1 ++ l2) = (nodes' ← wire_edges nodes l1; wire_edges nodes' l2).
Proof.
  induction l1 as [|edge rest IH]; intros nodes; simpl; [done|].
  destruct (wire_edge nodes edge); simpl; [apply IH|done].
Qed.

Lemma make_instance_Some (b : PythonGraphBuilder) (graph_id : list Z) (g : GraphImpl) :
  make_instance b graph_id = Ok g ->
  exists made wired,
    make_nodes graph_id (node_builders b) = Ok made
    /\ wire_edges made (edges b) = Ok wired
    /\ g = {| Builder.graph_id := graph_id; nodes := initialise <$> wired |}.
Proof.
  unfold make_instance.
  destruct (make_nodes graph_id (node_builders b)) as [made|] eqn:Hm; simpl; [|done].
  destruct (wire_edges made (edges b)) as [wired|] eqn:Hw; simpl; [|done].
  intros [= <-]. by exists made, wired.
Qed.

(** X8. When [make_instance] returns a graph, the graph carries the given
    id and has one node for each node builder, in the order of the
    builders; every node is the one its builder made, with the same output,
    and has been initialised. Wiring the edges touches inputs only. *)
Theorem make_instance_nodes (b : PythonGraphBuilder) (graph_id : list Z) (g : GraphImpl) :
  make_instance b graph_id = Ok g ->
  Builder.graph_id g = graph_id
  /\ Forall2 (fun nb n =>
                initialised n = true
                /\ exists made, nb_make_instance nb graph_id = Ok made
                                /\ node_ndx n = node_ndx made
                                /\ output n = output made)
       (node_builders b) (nodes g).
Proof.
  intros (made & wired & Hmade & Hwired & ->)%make_instance_Some. simpl.
  split; [reflexivity|].
  apply make_nodes_Forall2 in Hmade.
  apply Forall2_same_length_lookup. split.
  - rewrite length_fmap, (wire_edges_length _ _ _ Hwired). by eapply Forall2_length.
  - intros k nb n Hnb Hn. rewrite list_lookup_fmap in Hn.
    destruct (wired !! k) as [n1|] eqn:Hk; [|done]. injection Hn as <-.
    split; [reflexivity|].
    destruct (wire_edges_lookup _ _ _ _ _ Hwired Hk) as (n0 & Hk0 & Hx & Ho & _).
    exists n0. split; [|by split].
    by eapply (Forall2_lookup_lr _ _ _ _ _ _ Hmade).
Qed.

(** An input object that is not the one an edge attaches keeps its
    [output] attribute. *)
Lemma attach_other (r : OutputRef) (p : list nat) :
  forall (i ip : TimeSeriesInput) (q : list nat),
    p <> q ->
    walk_input (Some i) p = Ok (Some ip) ->
    exists ip', walk_input (Some (attach i q r)) p = Ok (Some ip')
                /\ input_output ip' = input_output ip.
Proof.
  induction p as [|a p' IH]; intros i ip q Hne; simpl.
  - intros [= <-]. destruct q as [|b q']; [done|]. eexists. split; [reflexivity|].
    by destruct i.
  - destruct i as [o|o children]; simpl; [done|].
    destruct (children !! a) as [c|] eqn:Hc; simpl; [|done].
    intros Hwalk. destruct q as [|b q']; simpl.
    + rewrite Hc. simpl. by exists ip.
    + destruct (decide (a = b)) as [<-|Hab].
      * rewrite Hc. rewrite list_lookup_insert_eq by (by eapply lookup_lt_Some). simpl.
        apply IH; [congruence|done].
      * assert (Hsame : (match children !! b with
                         | Some c0 => <[b:=attach c0 q' r]> children
                         | None => children
                         end) !! a = Some c).
        { destruct (children !! b); [|done]. by rewrite list_lookup_insert_ne. }
        rewrite Hsame. simpl. by exists ip.
Qed.

(** The input object that an edge attaches has the producer's output as
    its [output] attribute afterwards. *)
Lemma attach_same (r : OutputRef) (p : list nat) :
  forall (i ip : TimeSeriesInput),
    walk_input (Some i) p = Ok (Some ip) ->
    walk_input (Some (attach i p r)) p = Ok (Some (set_output ip r)).
Proof.
  induction p as [|a p' IH]; intros i ip; simpl.
  - by intros [= <-].
  - destruct i as [o|o children]; simpl; [done|].
    destruct (children !! a) as [c|] eqn:Hc; simpl; [|done].
    intros Hwalk. rewrite list_lookup_insert_eq by (by eapply lookup_lt_Some). simpl.
    by apply IH.
Qed.

Lemma _extract_input_walk (node : Node) (path : list nat) (r : option TimeSeriesInput) :
  _extract_input node path = Ok r -> walk_input (input node) path = Ok r /\ path <> [].
Proof. destruct path; [done|]. by split. Qed.

Lemma walk_output_Some (path : list nat) :
  forall o r, path <> [] -> walk_output o path = Ok r -> is_Some r.
Proof.
  induction path as [|a rest IH]; intros o r Hne; [done|]. simpl.
  destruct (output_getitem o a) as [o'|] eqn:Hget; simpl; [|done].
  destruct rest as [|b rest'].
  - simpl. intros [= <-]. unfold output_getitem in Hget.
    destruct o as [[|children]|]; try done.
    destruct (children !! a); [|done]. injection Hget as <-. by eexists.
  - by apply IH.
Qed.

(** What an edge has done once it is wired, and what later edges keep. *)
Lemma wire_edge_attaches (nodes nodes' : list Node) (edge : Edge) :
  wire_edge nodes edge = Ok nodes' ->
  exists src dst out,
    nodes' !! src_node edge = Some src
    /\ nodes' !! dst_node edge = Some dst
    /\ walk_output (output src) (output_path edge) = Ok (Some out)
    /\ attached_output dst (input_path edge)
       = Some {| ref_node := src_node edge; ref_path := output_path edge |}.
Proof.
  intros (src & dst & out & i & Hs & Hd & Ho & Hi & ->)%wire_edge_Some.
  apply _extract_input_walk in Hi as [Hi _].
  assert (Hout : exists o, out = Some o /\ walk_output (output src) (output_path edge) = Ok out).
  { unfold _extract_output in Ho. destruct (output_path edge) as [|a rest] eqn:Hp; [done|].
    destruct (walk_output_Some (a :: rest) (output src) out) as [o ->]; [done|done|].
    by exists o. }
  destruct Hout as (o & -> & Hwalk).
  set (dst' := attach_node dst (input_path edge)
                 {| ref_node := src_node edge; ref_path := output_path edge |}).
  assert (Hdst' : <[dst_node edge := dst']> nodes !! dst_node edge = Some dst').
  { apply list_lookup_insert_eq. by eapply lookup_lt_Some. }
  assert (Hsrc' : exists src', <[dst_node edge := dst']> nodes !! src_node edge = Some src'
                               /\ output src' = output src).
  { destruct (decide (dst_node edge = src_node edge)) as [Heq|Hne].
    - rewrite <- Heq, Hdst'. exists dst'. split; [done|]. simpl. congruence.
    - rewrite list_lookup_insert_ne by done. by exists src. }
  destruct Hsrc' as (src' & Hsrc' & Hosrc).
  exists src', dst', o. split; [done|]. split; [done|]. split; [by rewrite Hosrc|].
  unfold attached_output, dst'. simpl.
  destruct (input dst) as [i0|] eqn:Hin; simpl.
  - rewrite (attach_same _ _ _ _ Hi). by destruct i.
  - destruct (input_path edge); simpl in Hi; done.
Qed.

Lemma wire_edge_keeps_attached (nodes nodes' : list Node) (later : Edge)
    (k : nat) (path : list nat) (n : Node) (r : OutputRef) :
  wire_edge nodes later = Ok nodes' ->
  target later <> (k, path) ->
  nodes !! k = Some n -> attached_output n path = Some r ->
  exists n', nodes' !! k = Some n' /\ attached_output n' path = Some r.
Proof.
  intros (src & dst & out & i & Hs & Hd & Ho & Hi & ->)%wire_edge_Some Hne Hk Hatt.
  destruct (decide (dst_node later = k)) as [<-|Hnk].
  - rewrite list_lookup_insert_eq by (by eapply lookup_lt_Some).
    eexists. split; [reflexivity|].
    assert (dst = n) as -> by congruence.
    assert (Hp : path <> input_path later).
    { intros ->. by apply Hne. }
    unfold attached_output in *. simpl.
    destruct (input n) as [i0|]; simpl in *.
    + destruct (walk_input (Some i0) path) as [[ip|]|] eqn:Hw; try done.
      destruct (attach_other {| ref_node := src_node later; ref_path := output_path later |}
                  path i0 ip (input_path later) Hp Hw) as (ip' & -> & Hsame).
      by rewrite Hsame.
    + done.
  - rewrite list_lookup_insert_ne by done. by exists n.
Qed.

Lemma wire_edges_keep_attached (edges : list Edge) (k : nat) (path : list nat)
    (r : OutputRef) :
  forall nodes nodes' n,
    wire_edges nodes edges = Ok nodes' ->
    Forall (fun later => target later <> (k, path)) edges ->
    nodes !! k = Some n -> attached_output n path = Some r ->
    exists n', nodes' !! k = Some n' /\ attached_output n' path = Some r.
Proof.
  induction edges as [|later rest IH]; intros nodes nodes' n; simpl.
  - intros [= <-] _ Hk Hatt. by exists n.
  - destruct (wire_edge nodes later) as [nodes1|] eqn:Hw; simpl; [|done].
    intros Hrest [Hne Hall]%Forall_cons Hk Hatt.
    destruct (wire_edge_keeps_attached _ _ _ _ _ _ _ Hw Hne Hk Hatt) as (n1 & Hk1 & Hatt1).
    by eapply IH.
Qed.

(** X9. When [make_instance] returns a graph, every edge that no later
    edge overrides has been applied: the producer's node has an output at
    the edge's output path, and the input found at the edge's input path
    below the consumer's node is attached to that output. (Of two edges
    with the same consumer and input path the later one wins.) *)
Theorem make_instance_attaches (b : PythonGraphBuilder) (graph_id : list Z)
    (g : GraphImpl) (k : nat) (edge : Edge) :
  make_instance b graph_id = Ok g ->
  edges b !! k = Some edge ->
  (forall j later, k < j -> edges b !! j = Some later -> target later <> target edge) ->
  exists src dst out,
    nodes g !! src_node edge = Some src
    /\ nodes g !! dst_node edge = Some dst
    /\ walk_output (output src) (output_path edge) = Ok (Some out)
    /\ attached_output dst (input_path edge)
       = Some {| ref_node := src_node edge; ref_path := output_path edge |}.
Proof.
  intros (made & wired & Hmade & Hwired & ->)%make_instance_Some Hk Hlater. simpl.
  rewrite <- (take_drop_middle _ _ _ Hk) in Hwired.
  rewrite wire_edges_app in Hwired.
  destruct (wire_edges made (take k (edges b))) as [nodes1|]; simpl in Hwired; [|done].
  destruct (wire_edge nodes1 edge) as [nodes2|] eqn:Hw; simpl in Hwired; [|done].
  destruct (wire_edge_attaches _ _ _ Hw) as (src & dst & out & Hs & Hd & Ho & Hatt).
  assert (Hall : Forall (fun later => target later <> (dst_node edge, input_path edge))
                   (drop (S k) (edges b))).
  { apply Forall_forall. intros later Hin.
    apply list_elem_of_lookup in Hin as [j Hj]. rewrite lookup_drop in Hj.
    apply (Hlater (S k + j)); [lia|done]. }
  destruct (wire_edges_keep_attached _ _ _ _ _ _ _ Hwired Hall Hd Hatt)
    as (dst' & Hd' & Hatt').
  destruct (lookup_lt_is_Some_2 wired (src_node edge)) as [src' Hs'].
  { rewrite (wire_edges_length _ _ _ Hwired). by eapply lookup_lt_Some. }
  destruct (wire_edges_lookup _ _ _ _ _ Hwired Hs') as (src0 & Hs0 & _ & Hosrc & _).
  exists (initialise src'), (initialise dst'), out.
  rewrite !list_lookup_fmap, Hs', Hd'. simpl.
  split; [done|]. split; [done|]. split; [|exact Hatt'].
  assert (src0 = src) as -> by congruence. by rewrite Hosrc.
Qed.

(** X10. [release_instance] hands the node at each position to the node
    builder at the same position, as far as there are builders, then
    disposes of every node, then of the graph. On a graph that
    [make_instance] of the same builder returned no node is left out:
    every node is released by the builder that made it. *)
Theorem release_instance_pairs (b : PythonGraphBuilder) (item : GraphImpl) :
  (forall i n, nodes item !! i = Some n ->
     dispose_node n ∈ release_instance b item
     /\ (release_instance_of i n ∈ release_instance b item
         <-> i < length (node_builders b)))
  /\ (forall graph_id, make_instance b graph_id = Ok item ->
        release_instance b item
        = imap release_instance_of (nodes item)
          ++ map dispose_node (nodes item) ++ [dispose_graph]).
Proof.
  split.
  - intros i n Hn. unfold release_instance. split.
    + rewrite !elem_of_app. right. left. apply list_elem_of_fmap. exists n. split; [done|].
      by eapply list_elem_of_lookup_2.
    + rewrite !elem_of_app. split.
      * intros [Hin|[Hin|Hin]].
        -- apply list_elem_of_lookup in Hin as [j Hj]. rewrite list_lookup_imap in Hj.
           destruct (take (length (node_builders b)) (nodes item) !! j) as [m|] eqn:Hm;
             [|done].
           injection Hj as -> ->. apply lookup_take_Some in Hm. lia.
        -- apply list_elem_of_fmap in Hin as (m & Hm & _). done.
        -- apply list_elem_of_singleton in Hin. done.
      * intros Hlt. left. apply list_elem_of_lookup. exists i.
        rewrite list_lookup_imap, lookup_take_lt by done. by rewrite Hn.
  - intros graph_id Hmake. unfold release_instance.
    destruct (make_instance_nodes b graph_id item Hmake) as [_ Hall].
    rewrite (Forall2_length _ _ _ Hall). by rewrite firstn_all.
Qed.

End MakeInstance.

Lemma make_instance_nodes_witness :
  make_instance good_builder [] = Ok {| graph_id := []; nodes := nodes_of_good_graph |}
  /\ Forall2 (fun nb n =>
                initialised n = true
                /\ exists made, nb_make_instance nb [] = Ok made
                                /\ node_ndx n = node_ndx made
                                /\ output n = output made)
       (node_builders good_builder) nodes_of_good_graph.
Proof.
  assert (Hmake : make_instance good_builder []
                  = Ok {| graph_id := []; nodes := nodes_of_good_graph |}) by reflexivity.
  split; [exact Hmake|].
  exact (proj2 (make_instance_nodes good_builder [] _ Hmake)).
Defined.

Lemma make_instance_attaches_witness :
  exists src dst out,
    nodes_of_good_graph !! 0%nat = Some src
    /\ nodes_of_good_graph !! 1%nat = Some dst
    /\ walk_output (output src) [0%nat] = Ok (Some out)
    /\ attached_output dst [0%nat] = Some {| ref_node := 0; ref_path := [0%nat] |}.
Proof.
  apply (make_instance_attaches good_builder [] {| graph_id := []; nodes := nodes_of_good_graph |}
           0 good_edge).
  - reflexivity.
  - reflexivity.
  - intros [|j] later Hlt; [lia|]. simpl. discriminate.
Defined.

End BuilderFacts.

(** ** The graph engine: facts *)

Module EngineFacts.
Import Engine.

(** *** Rules for [spec] *)

Section Rules.
Context {S : Type}.
Implicit Types (P I F : S -> World -> Prop) (X : Exn -> S -> World -> Prop).

Lemma spec_ret {A} P (a : A) (Q : A -> S -> World -> Prop) X F :
  (forall s w, P s w -> Q a s w) -> spec P (ret a) Q X F.
Proof. intros HQ s w HP. simpl. auto. Qed.

Lemma spec_and_then {A B} P (m : Eff S A) (k : A -> Eff S B)
    (R : A -> S -> World -> Prop) (Q : B -> S -> World -> Prop) X F :
  spec P m R X F -> (forall a, spec (R a) (k a) Q X F) -> spec P (and_then m k) Q X F.
Proof.
  intros Hm Hk s w HP. unfold and_then. specialize (Hm s w HP).
  destruct (m s w) as [a s' w'|e s' w'|s' w']; auto. by apply Hk.
Qed.

Lemma spec_get {A} P (k : S -> Eff S A) (Q : A -> S -> World -> Prop) X F :
  (forall s0, spec (fun s w => P s w /\ s = s0) (k s0) Q X F) ->
  spec P (and_then get k) Q X F.
Proof. intros Hk s w HP. unfold and_then, get. by apply (Hk s). Qed.

Lemma spec_modify P (f : S -> S) (Q : unit -> S -> World -> Prop) X F :
  (forall s w, P s w -> Q tt (f s) w) -> spec P (modify f) Q X F.
Proof. intros HQ s w HP. simpl. auto. Qed.

Lemma spec_raise {A} P (e : Exn) (Q : A -> S -> World -> Prop) X F :
  (forall s w, P s w -> X e s w) -> spec P (raise e) Q X F.
Proof. intros HX s w HP. simpl. auto. Qed.

Lemma spec_emit P (ev : Event) (Q : unit -> S -> World -> Prop) X F :
  (forall s w, P s w ->
     Q tt s {| readings := readings w; reads := reads w; trace := trace w ++ [ev] |}) ->
  spec P (emit ev) Q X F.
Proof. intros HQ s w HP. simpl. auto. Qed.

Lemma spec_weaken {A} P P' (m : Eff S A) (Q Q' : A -> S -> World -> Prop) X X' F F' :
  spec P' m Q' X' F' ->
  (forall s w, P s w -> P' s w) ->
  (forall a s w, Q' a s w -> Q a s w) ->
  (forall e s w, X' e s w -> X e s w) ->
  (forall s w, F' s w -> F s w) ->
  spec P m Q X F.
Proof.
  intros Hm HP HQ HX HF s w Hs. specialize (Hm s w (HP s w Hs)).
  destruct (m s w); auto.
Qed.

Lemma spec_for_each {A} I (l : list A) (body : A -> Eff S unit) X F :
  (forall x, x ∈ l -> spec I (body x) (fun _ => I) X F) ->
  spec I (for_each l body) (fun _ => I) X F.
Proof.
  induction l as [|x rest IH]; intros Hbody.
  - by apply spec_ret.
  - simpl. eapply spec_and_then.
    + apply Hbody. left.
    + intros u. apply IH. intros y Hy. apply Hbody. by right.
Qed.

Lemma spec_finally {A} P (body : Eff S A) (handler : Eff S unit)
    (Q : A -> S -> World -> Prop) (R : A -> S -> World -> Prop)
    (RX : Exn -> S -> World -> Prop) X F :
  spec P body R RX F ->
  (forall a, spec (R a) handler (fun _ => Q a) X F) ->
  (forall e, spec (RX e) handler (fun _ => X e) X F) ->
  spec P (finally body handler) Q X F.
Proof.
  intros Hb Hok Hfail s w HP. unfold finally. specialize (Hb s w HP).
  destruct (body s w) as [a s' w'|e s' w'|s' w']; auto.
  - specialize (Hok a s' w' Hb). destruct (handler s' w'); auto.
  - specialize (Hfail e s' w' Hb). destruct (handler s' w'); auto.
Qed.

End Rules.

Section AdvanceFacts.
Context {C : Type} `{ExecutionContext C}.

Lemma with_context_same (e : PythonGraphEngine C) (ctx : C) :
  _execution_context e = Some ctx -> with_context e (Some ctx) = e.
Proof. destruct e; simpl; intros ->; reflexivity. Qed.

Lemma advance_engine_time_no_context (e : PythonGraphEngine C) (w : World) :
  _execution_context e = None -> advance_engine_time e w = Failed AttributeError e w.
Proof.
  intros Hctx. unfold advance_engine_time, and_then, get.
  destruct (_stop_requested e).
  - unfold assign_current_engine_time, on_context. by rewrite Hctx.
  - unfold the_context, and_then, get, raise. by rewrite Hctx.
Qed.

Lemma advance_engine_time_advances (e : PythonGraphEngine C) (ctx : C) (w : World) :
  _execution_context e = Some ctx ->
  exists ctx' w',
    advance_engine_time e w = Done tt (with_context e (Some ctx')) w'
    /\ advances (_stop_requested e) (_end_time e) ctx w ctx' w'.
Proof.
  intros Hctx. unfold advance_engine_time, and_then, get.
  destruct (_stop_requested e) eqn:Hstop.
  - unfold assign_current_engine_time, on_context. rewrite Hctx.
    destruct (set_current_engine_time (_end_time e) ctx w) as [ctx' w'] eqn:Hset.
    exists ctx', w'. split; [reflexivity|]. by apply advances_to_end_time.
  - unfold the_context, and_then, get, ret. rewrite Hctx.
    unfold read_wall_clock_time, on_context. rewrite Hctx.
    destruct (wall_clock_time ctx w) as [t w1] eqn:Hwall. simpl.
    case_bool_decide as Hge.
    + unfold assign_current_engine_time, on_context. simpl.
      destruct (set_current_engine_time (proposed_next_engine_time ctx) ctx w1)
        as [ctx' w'] eqn:Hset.
      exists ctx', w'. split; [reflexivity|].
      by eapply advances_to_proposed_time.
    + simpl. destruct (push_has_pending_values ctx) eqn:Hpush.
      * unfold assign_current_engine_time, on_context. simpl.
        destruct (set_current_engine_time t ctx w1) as [ctx' w'] eqn:Hset.
        exists ctx', w'. split; [reflexivity|].
        eapply advances_to_wall_clock_time; eauto. lia.
      * unfold call_wait_until_proposed_engine_time, on_context. simpl.
        destruct (wait_until_proposed_engine_time (proposed_next_engine_time ctx) ctx w1)
          as [ctx' w'] eqn:Hwait.
        exists ctx', w'. split; [reflexivity|].
        eapply advances_by_waiting; eauto. lia.
Qed.

(** The four cases exclude one another: the relation is a function. *)
Lemma advances_functional (stop_requested : bool) (end_time : datetime) (ctx : C)
    (w : World) (c1 c2 : C) (w1 w2 : World) :
  advances stop_requested end_time ctx w c1 w1 ->
  advances stop_requested end_time ctx w c2 w2 ->
  c1 = c2 /\ w1 = w2.
Proof.
  intros H1 H2.
  destruct H1; destruct H2;
    repeat match goal with
    | Ha : ?x = (_, _), Hb : ?x = (_, _) |- _ =>
        rewrite Ha in Hb; injection Hb as <- <-
    end;
    try congruence; try lia; auto.
Qed.

(** C2. [advance_engine_time] follows the precedence of the
    specification in every engine state: with a stop requested the engine
    time becomes the end time; otherwise, with the proposed next engine
    time [p] and the wall-clock time [t], the engine time becomes [p] when
    [t >= p], else [t] when a push is pending, else the context waits for
    [p]. Nothing but the context (and the host clock) changes, and without
    a context the method raises. *)
Theorem advance_engine_time_precedence (e : PythonGraphEngine C) (w : World) :
  match _execution_context e with
  | Some ctx =>
      exists ctx' w',
        advance_engine_time e w = Done tt (with_context e (Some ctx')) w'
        /\ advances (_stop_requested e) (_end_time e) ctx w ctx' w'
  | None => advance_engine_time e w = Failed AttributeError e w
  end.
Proof.
  destruct (_execution_context e) as [ctx|] eqn:Hctx.
  - by apply advance_engine_time_advances.
  - by apply advance_engine_time_no_context.
Qed.

End AdvanceFacts.

Section InvRules.
Context {S : Type} (I : S -> World -> Prop) (X : Exn -> Prop) (D : Prop).

Lemma inv_ret {A} (a : A) : inv I X D (ret a).
Proof. by apply spec_ret. Qed.

Lemma inv_and_then {A B} (m : Eff S A) (k : A -> Eff S B) :
  inv I X D m -> (forall a, inv I X D (k a)) -> inv I X D (and_then m k).
Proof. intros Hm Hk. eapply spec_and_then; [exact Hm|]. intros a. apply Hk. Qed.

Lemma inv_get {A} (k : S -> Eff S A) :
  (forall s0 w0, I s0 w0 -> inv I X D (k s0)) -> inv I X D (and_then get k).
Proof.
  intros Hk s w HI. unfold and_then, get. by apply (Hk s w HI s w).
Qed.

Lemma inv_modify (f : S -> S) :
  (forall s w, I s w -> I (f s) w) -> inv I X D (modify f).
Proof. intros Hf. by apply spec_modify. Qed.

Lemma inv_raise {A} (e : Exn) :
  (forall s w, I s w -> X e) -> inv I X D (raise (A := A) e).
Proof. intros HX. apply spec_raise. intros s w HI. split; eauto. Qed.

Lemma inv_emit (ev : Event) :
  (forall s w, I s w -> I s (add_event w ev)) -> inv I X D (emit ev).
Proof. intros Hev. by apply spec_emit. Qed.

Lemma inv_for_each {A} (l : list A) (body : A -> Eff S unit) :
  (forall x, x ∈ l -> inv I X D (body x)) -> inv I X D (for_each l body).
Proof. intros Hbody. by apply spec_for_each. Qed.

Lemma inv_finally {A} (body : Eff S A) (handler : Eff S unit) :
  inv I X D body -> inv I X D handler -> inv I X D (finally body handler).
Proof.
  intros Hb Hh s w HI. unfold finally. specialize (Hb s w HI).
  destruct (body s w) as [a s' w'|e s' w'|s' w']; auto.
  - specialize (Hh s' w' Hb). destruct (handler s' w'); auto.
  - destruct Hb as [HX HI']. specialize (Hh s' w' HI').
    destruct (handler s' w'); intuition.
Qed.

Lemma inv_out_of_fuel : D -> inv (A := unit) I X D (fun s w => OutOfFuel s w).
Proof. intros HD s w HI. simpl. auto. Qed.

End InvRules.

(** What an invariant reads off a finished computation. *)
Lemma inv_done {S A} (I : S -> World -> Prop) X D (m : Eff S A) s w a s' w' :
  inv I X D m -> I s w -> m s w = Done a s' w' -> I s' w'.
Proof. intros Hm HI Heq. specialize (Hm s w HI). by rewrite Heq in Hm. Qed.

Lemma inv_failed {S A} (I : S -> World -> Prop) X D (m : Eff S A) s w e s' w' :
  inv I X D m -> I s w -> m s w = Failed e s' w' -> X e /\ I s' w'.
Proof. intros Hm HI Heq. specialize (Hm s w HI). by rewrite Heq in Hm. Qed.

Lemma inv_returns {S A} (I : S -> World -> Prop) (m : Eff S A) s w :
  inv I (fun _ => False) False m -> I s w ->
  exists a s' w', m s w = Done a s' w' /\ I s' w'.
Proof.
  intros Hm HI. specialize (Hm s w HI).
  destruct (m s w) as [a s' w'|e s' w'|s' w']; [by eauto|tauto|tauto].
Qed.

(** *** The methods keep invariants

    An invariant of the engine that no event and no clock reading
    disturbs ([I] does not read the world) is kept by a method as soon as
    the few assignments of the method keep it. *)
Section MethodInvariants.
Context {C : Type} `{ExecutionContext C}.
Context (I : PythonGraphEngine C -> Prop) (X : Exn -> Prop) (D : Prop).
#[local] Abbreviation J := (fun (e : PythonGraphEngine C) (_ : World) => I e).

Lemma inv_attribute {A B} (field : PythonGraphEngine C -> option A)
    (K : A -> Eff (PythonGraphEngine C) B) :
  ((exists e, I e /\ field e = None) -> X AttributeError) ->
  (forall e a, I e -> field e = Some a -> inv J X D (K a)) ->
  inv J X D (and_then (attribute field) K).
Proof.
  intros Hnone Hsome e w HI. cbv [and_then attribute get ret raise].
  destruct (field e) as [a|] eqn:Hfield.
  - by apply (Hsome e a HI Hfield e w).
  - split; [|done]. apply Hnone. eauto.
Qed.

Lemma lacks_observers (e : PythonGraphEngine C) :
  _life_cycle_observers e = None -> ~ has_lists e.
Proof. intros Hn (Ho & _). rewrite Hn in Ho. by destruct Ho. Qed.

Lemma lacks_before_receivers (e : PythonGraphEngine C) :
  _before_evaluation_notification e = None -> ~ has_lists e.
Proof. intros Hn (_ & Hb & _). rewrite Hn in Hb. by destruct Hb. Qed.

Lemma lacks_after_receivers (e : PythonGraphEngine C) :
  _after_evaluation_notification e = None -> ~ has_lists e.
Proof. intros Hn (_ & _ & Ha). rewrite Hn in Ha. by destruct Ha. Qed.

(** An engine without the lists may raise an AttributeError. *)
#[local] Abbreviation may_lack_lists := ((exists e, I e /\ ~ has_lists e) -> X AttributeError).

Lemma inv_notify (cb : Callback) : may_lack_lists -> inv J X D (notify cb).
Proof.
  intros Hlists. unfold notify. apply inv_attribute.
  - intros (e & HI & Hn). apply Hlists. exists e. split; [done|by apply lacks_observers].
  - intros e0 l _ _. apply inv_for_each. intros o _. by apply inv_emit.
Qed.

Lemma inv_request_stop :
  (forall e, I e -> I (with_stop_requested e true)) -> inv J X D request_stop.
Proof. intros Hstop. apply inv_modify. intros e _. apply Hstop. Qed.

Lemma inv_call_node (m : Method) (n : Node) (a : Action) :
  (forall e, I e -> I (with_stop_requested e true)) ->
  (a = Raises -> X UserError) ->
  inv J X D (call_node m n a).
Proof.
  intros Hstop Hraise. unfold call_node. apply inv_and_then.
  - by apply inv_emit.
  - intros _. destruct a.
    + apply inv_ret.
    + by apply inv_request_stop.
    + apply inv_raise. auto.
Qed.

Lemma inv_the_context (K : C -> Eff (PythonGraphEngine C) unit) :
  ((exists e, I e /\ _execution_context e = None) -> X AttributeError) ->
  (forall e ctx, I e -> _execution_context e = Some ctx -> inv J X D (K ctx)) ->
  inv J X D (and_then the_context K).
Proof.
  intros Hnone Hsome e w HI. cbv [and_then the_context get ret raise].
  destruct (_execution_context e) as [ctx|] eqn:Hctx.
  - by apply (Hsome e ctx HI Hctx e w).
  - split; [|done]. apply Hnone. eauto.
Qed.

Lemma inv_on_context {A} (op : C -> World -> A * C * World) :
  ((exists e, I e /\ _execution_context e = None) -> X AttributeError) ->
  (forall e ctx w, I e -> _execution_context e = Some ctx ->
     I (with_context e (Some (op ctx w).1.2))) ->
  inv J X D (on_context op).
Proof.
  intros Hnone Hsome e w HI. unfold on_context.
  destruct (_execution_context e) as [ctx|] eqn:Hctx.
  - specialize (Hsome e ctx w HI Hctx). by destruct (op ctx w) as [[a ctx'] w'].
  - split; [|done]. apply Hnone. eauto.
Qed.

End MethodInvariants.

Section BackTestInvariants.
Context `{Constants}.
Context (I : PythonGraphEngine BackTestExecutionContext -> Prop) (X : Exn -> Prop) (D : Prop).
#[local] Abbreviation JB :=
  (fun (e : PythonGraphEngine BackTestExecutionContext) (_ : World) => I e).

(** An engine without the lists may raise an AttributeError. *)
#[local] Abbreviation may_lack := ((exists e, I e /\ ~ has_lists e) -> X AttributeError).

Lemma inv_notify_before_evaluation :
  may_lack ->
  (forall e, I e -> I (with_before_notifications e [])) ->
  inv JB X D notify_before_evaluation.
Proof.
  intros Hlists Hclear. unfold notify_before_evaluation. apply inv_attribute.
  { intros (e & HI & Hn). apply Hlists. exists e.
    split; [done|by apply lacks_before_receivers]. }
  intros e0 l _ _. apply inv_and_then.
  - apply inv_for_each. intros r _. by apply inv_emit.
  - intros _. apply inv_and_then; [|intros _; by apply inv_notify].
    apply inv_modify. intros e _. apply Hclear.
Qed.

Lemma inv_notify_after_evaluation :
  may_lack ->
  (forall e, I e -> I (with_after_notifications e [])) ->
  inv JB X D notify_after_evaluation.
Proof.
  intros Hlists Hclear. unfold notify_after_evaluation. apply inv_attribute.
  { intros (e & HI & Hn). apply Hlists. exists e.
    split; [done|by apply lacks_after_receivers]. }
  intros e0 l _ _. apply inv_and_then.
  - apply inv_for_each. intros r _. by apply inv_emit.
  - intros _. apply inv_and_then; [|intros _; by apply inv_notify].
    apply inv_modify. intros e _. apply Hclear.
Qed.

(** [evaluate_graph] assigns the two notification queues and, through
    the nodes, the stop flag; it raises when a list or the context is
    missing or when a node raises. *)
Lemma inv_evaluate_graph :
  may_lack ->
  (forall e, I e -> I (with_before_notifications e [])) ->
  (forall e, I e -> I (with_after_notifications e [])) ->
  (forall e, I e -> I (with_stop_requested e true)) ->
  ((exists e, I e /\ _execution_context e = None) -> X AttributeError) ->
  (forall e n t, I e -> n ∈ nodes (graph e) -> eval_fn n t = Raises -> X UserError) ->
  inv JB X D evaluate_graph.
Proof.
  intros Hlists Hbefore Hafter Hstop Hnone Hraise. unfold evaluate_graph.
  apply inv_and_then; [by apply inv_notify_before_evaluation|]. intros _.
  apply inv_the_context; [exact Hnone|]. intros e ctx HI Hctx.
  apply inv_get. intros e0 w0 HI0. simpl.
  apply inv_and_then; [apply inv_ret|]. intros _.
  apply inv_and_then; [|intros _; by apply inv_notify_after_evaluation].
  apply inv_for_each. intros n Hn.
  case_bool_decide; [|apply inv_ret].
  apply inv_and_then; [by apply inv_notify|]. intros _.
  apply inv_and_then; [|intros _; by apply inv_notify].
  apply inv_call_node; [exact Hstop|].
  intros Hr. apply (Hraise e0 n (_current_time ctx) HI0); [|exact Hr].
  by apply (subseteq_drop (push_source_nodes_end (graph e0))).
Qed.

(** [stop] assigns [is_started] and the context. *)
Lemma inv_stop :
  may_lack ->
  (forall e, I e -> I (with_is_started e false)) ->
  (forall e, I e -> I (with_stop_requested e true)) ->
  (forall e, I e -> I (with_context e None)) ->
  (forall e n, I e -> n ∈ nodes (graph e) -> stop_fn n = Raises -> X UserError) ->
  inv JB X D stop.
Proof.
  intros Hlists Hstarted Hstop Hctx Hraise. unfold stop.
  apply inv_get. intros e0 w0 HI0.
  destruct (is_started e0); [|apply inv_ret].
  apply inv_and_then; [apply inv_modify; intros e _; apply Hstarted|]. intros _.
  apply inv_and_then; [by apply inv_notify|]. intros _.
  apply inv_and_then.
  - apply inv_for_each. intros n Hn.
    apply inv_and_then; [by apply inv_notify|]. intros _.
    apply inv_and_then; [|intros _; by apply inv_notify].
    apply inv_call_node; [exact Hstop|]. intros Hr. by apply (Hraise e0 n HI0).
  - intros _. apply inv_and_then; [by apply inv_notify|]. intros _.
    apply inv_modify. intros e _. apply Hctx.
Qed.

Lemma inv_start_nodes (e0 : PythonGraphEngine BackTestExecutionContext) :
  may_lack ->
  (forall e, I e -> I (with_stop_requested e true)) ->
  (forall n, n ∈ nodes (graph e0) -> start_fn n = Raises -> X UserError) ->
  inv JB X D (start_nodes e0).
Proof.
  intros Hlists Hstop Hraise. unfold start_nodes.
  apply inv_and_then; [by apply inv_notify|]. intros _.
  apply inv_and_then; [|intros _; by apply inv_notify].
  apply inv_for_each. intros n Hn.
  apply inv_and_then; [by apply inv_notify|]. intros _.
  apply inv_and_then; [|intros _; by apply inv_notify].
  apply inv_call_node; [exact Hstop|]. intros Hr. by apply (Hraise n).
Qed.

End BackTestInvariants.

Section StartFacts.
Context `{Constants}.
#[local] Abbreviation BTEngine := (PythonGraphEngine BackTestExecutionContext).

Lemma start_already_started (e : BTEngine) (w : World) :
  is_started e = true -> start e w = Done tt e w.
Proof. intros Hs. unfold start, and_then, get. by rewrite Hs. Qed.

Lemma start_real_time (e : BTEngine) (w : World) :
  is_started e = false -> _run_mode e = REAL_TIME ->
  start e w = Failed NotImplementedError
                (with_stop_requested (with_is_started e true) false) w.
Proof.
  intros Hs Hm. unfold start, and_then, get. rewrite Hs, Hm. reflexivity.
Qed.

Lemma start_back_test (e : BTEngine) (w : World) :
  is_started e = false -> _run_mode e = BACK_TEST ->
  start e w = start_nodes e (started e w) (bt_init (_start_time e) w).2.
Proof.
  intros Hs Hm. unfold start, and_then, get. rewrite Hs, Hm. reflexivity.
Qed.

End StartFacts.

Section RunFacts.
Context `{Constants}.
#[local] Abbreviation BEngine := (PythonGraphEngine BackTestExecutionContext).

Lemma run_loop_step (fuel : nat) (t : datetime) (e : BEngine) (ctx : BackTestExecutionContext)
    (w : World) :
  _execution_context e = Some ctx -> _current_time ctx <= t ->
  run_loop (S fuel) t e w
  = (evaluate_graph ;; advance_engine_time ;; run_loop fuel t) e w.
Proof.
  intros Hctx Hle. simpl. cbv [and_then loop_condition the_context get ret raise].
  rewrite Hctx. simpl. by rewrite bool_decide_eq_true_2.
Qed.

Lemma run_loop_exit (fuel : nat) (t : datetime) (e : BEngine) (ctx : BackTestExecutionContext)
    (w : World) :
  _execution_context e = Some ctx -> t < _current_time ctx ->
  run_loop (S fuel) t e w = Done tt e w.
Proof.
  intros Hctx Hlt. simpl. cbv [and_then loop_condition the_context get ret raise].
  rewrite Hctx. simpl. rewrite bool_decide_eq_false_2; [reflexivity|lia].
Qed.

Lemma run_loop_no_context (fuel : nat) (t : datetime) (e : BEngine) (w : World) :
  _execution_context e = None -> run_loop (S fuel) t e w = Failed AttributeError e w.
Proof.
  intros Hctx. simpl. cbv [and_then loop_condition the_context get ret raise].
  by rewrite Hctx.
Qed.

(** When the loop of [run] returns, the engine time is past the end
    time. *)
Lemma run_loop_returns_past_end (fuel : nat) (t : datetime) :
  forall (e e' : BEngine) (w w' : World),
    run_loop fuel t e w = Done tt e' w' ->
    exists ctx, _execution_context e' = Some ctx /\ t < _current_time ctx.
Proof.
  induction fuel as [|fuel IH]; intros e e' w w' Hrun; [discriminate Hrun|].
  destruct (_execution_context e) as [ctx|] eqn:Hctx.
  - destruct (decide (_current_time ctx <= t)) as [Hle|Hgt].
    + rewrite (run_loop_step fuel t e ctx w Hctx Hle) in Hrun.
      unfold and_then at 1 in Hrun.
      destruct (evaluate_graph e w) as [[] e1 w1| |]; try discriminate Hrun.
      unfold and_then at 1 in Hrun.
      destruct (advance_engine_time e1 w1) as [[] e2 w2| |]; try discriminate Hrun.
      by apply (IH e2 e' w2 w').
    + rewrite (run_loop_exit fuel t e ctx w Hctx) in Hrun by lia.
      injection Hrun as <- <-. exists ctx. split; [done|lia].
  - rewrite (run_loop_no_context fuel t e w Hctx) in Hrun. discriminate Hrun.
Qed.

Lemma advance_engine_time_stop_requested (e : BEngine) (ctx : BackTestExecutionContext)
    (w : World) :
  _execution_context e = Some ctx -> _stop_requested e = true ->
  advance_engine_time e w
  = Done tt (with_context e (Some (bt_set_current_engine_time (_end_time e) ctx w).1))
      (bt_set_current_engine_time (_end_time e) ctx w).2.
Proof.
  intros Hctx Hstop. unfold advance_engine_time, and_then, get. rewrite Hstop.
  unfold assign_current_engine_time, on_context. rewrite Hctx. reflexivity.
Qed.

Lemma has_lists_with_before (e : BEngine) (l : list nat) :
  has_lists e -> has_lists (with_before_notifications e l).
Proof. intros (Ho & _ & Ha). by repeat split. Qed.

Lemma has_lists_with_after (e : BEngine) (l : list nat) :
  has_lists e -> has_lists (with_after_notifications e l).
Proof. intros (Ho & Hb & _). by repeat split. Qed.

Lemma evaluate_graph_stopped_at_end (e0 e : BEngine) (w : World) :
  (forall n t, n ∈ nodes (graph e0) -> eval_fn n t <> Raises) ->
  stopped_at_end e0 e ->
  exists e' w', evaluate_graph e w = Done tt e' w' /\ stopped_at_end e0 e'.
Proof.
  intros Hnodes He.
  destruct (inv_returns (fun e _ => stopped_at_end e0 e) evaluate_graph e w)
    as ([] & e' & w' & Heq & He'); [|exact He|by eauto].
  apply inv_evaluate_graph.
  - intros (s & (_ & _ & _ & Hl & _) & Hnot). done.
  - intros s (Hg & Ht & Hs & Hl & Hc).
    split; [done|]. split; [done|]. split; [done|].
    split; [by apply has_lists_with_before|done].
  - intros s (Hg & Ht & Hs & Hl & Hc).
    split; [done|]. split; [done|]. split; [done|].
    split; [by apply has_lists_with_after|done].
  - intros s (Hg & Ht & _ & Hl & Hc).
    split; [done|]. split; [done|]. split; [done|]. split; [exact Hl|exact Hc].
  - intros (s & (_ & _ & _ & _ & ctx & Hc & _) & Hnone). congruence.
  - intros s n t (Hg & _) Hn Hr. rewrite Hg in Hn. by apply (Hnodes n t).
Qed.

(** Once a stop is requested and the engine time is the end time, the
    loop of [run] goes round for as long as there is fuel. *)
Lemma run_loop_stop_requested (e0 : BEngine) :
  (forall n t, n ∈ nodes (graph e0) -> eval_fn n t <> Raises) ->
  forall fuel e w,
    stopped_at_end e0 e ->
    exists e' w',
      run_loop fuel (_end_time e0) e w = OutOfFuel e' w' /\ stopped_at_end e0 e'.
Proof.
  intros Hnodes. induction fuel as [|fuel IH]; intros e w He.
  - exists e, w. by split.
  - destruct He as (Hg & Ht & Hs & Hl & ctx & Hc & Hnow).
    rewrite (run_loop_step fuel _ e ctx w Hc); [|lia].
    destruct (evaluate_graph_stopped_at_end e0 e w Hnodes) as (e1 & w1 & Heval & He1).
    { unfold stopped_at_end. eauto 10. }
    unfold and_then at 1. rewrite Heval.
    destruct He1 as (Hg1 & Ht1 & Hs1 & Hl1 & ctx1 & Hc1 & Hnow1).
    unfold and_then at 1.
    rewrite (advance_engine_time_stop_requested e1 ctx1 w1 Hc1 Hs1).
    apply IH. unfold stopped_at_end. simpl.
    split; [done|]. split; [done|]. split; [done|]. split; [exact Hl1|].
    eexists. split; [reflexivity|]. simpl.
    unfold bt_set_current_engine_time. simpl. exact Ht1.
Qed.

End RunFacts.

Section RunTheorems.
Context `{Constants}.
#[local] Abbreviation RTEngine := (PythonGraphEngine BackTestExecutionContext).

Lemma run_unfold (fuel : nat) (s t : datetime) (e : RTEngine) (w : World) :
  run fuel s t e w
  = if bool_decide (t < s)
    then Failed (ValueError "End time cannot be before the start time") (with_times e s t) w
    else start_stop_context (run_loop fuel t) (with_times e s t) w.
Proof. unfold run, and_then, modify. by case_bool_decide. Qed.

(** Under [start_stop_context], once [start] has returned, the body runs
    and [stop] follows it; when [start] raises, [stop] runs all the same,
    and what [stop] raises replaces what [start] raised. *)
Lemma start_stop_context_unfold {A} (body : Eff RTEngine A) (e : RTEngine) (w : World) :
  start_stop_context body e w
  = match start e w with
    | Done _ e1 w1 => finally body stop e1 w1
    | Failed x e1 w1 =>
        match stop e1 w1 with
        | Done _ e2 w2 => Failed x e2 w2
        | Failed x' e2 w2 => Failed x' e2 w2
        | OutOfFuel e2 w2 => OutOfFuel e2 w2
        end
    | OutOfFuel e1 w1 => OutOfFuel e1 w1
    end.
Proof.
  unfold start_stop_context, finally, and_then.
  by destruct (start e w) as [[] e1 w1|x e1 w1|e1 w1].
Qed.

Lemma finally_out_of_fuel {A} (body : Eff RTEngine A) (handler : Eff RTEngine unit)
    (e e' : RTEngine) (w w' : World) :
  body e w = OutOfFuel e' w' -> finally body handler e w = OutOfFuel e' w'.
Proof. intros Hb. unfold finally. by rewrite Hb. Qed.

(** C1, at the failing input. The engine has been given its three lists
    after construction (the constructor does not make them, and without
    them [start] raises before any node is evaluated); it runs a graph
    whose one node requests a stop when it is evaluated at the start time.
    The tick completes and the engine time becomes the end time, but the
    loop
    condition [current_engine_time <= end_time] still holds, so the loop
    goes on: whatever the fuel, [run] is still in its loop when the fuel
    is used up, with the stop requested and the engine time at the end
    time. *)
Theorem run_after_request_stop_never_returns :
  forall fuel, exists e' w',
    run (S fuel) 0 10 stopping_engine world0 = OutOfFuel e' w'
    /\ _stop_requested e' = true
    /\ (current_engine_time <$> _execution_context e') = Some 10.
Proof.
  intros fuel. rewrite run_unfold. rewrite bool_decide_eq_false_2 by lia.
  rewrite start_stop_context_unfold.
  destruct (start (with_times stopping_engine 0 10) world0) as [[] e1 w1| |] eqn:Hstart;
    [|discriminate Hstart|discriminate Hstart].
  injection Hstart as <- <-.
  match goal with |- context [finally _ _ ?e ?w] => set (e1 := e); set (w1 := w) end.
  assert (Hctx1 : exists ctx, _execution_context e1 = Some ctx /\ _current_time ctx = 0)
    by (eexists; split; reflexivity).
  destruct Hctx1 as (ctx1 & Hctx1 & Hnow1).
  assert (Hloop : exists e2 w2,
             (evaluate_graph ;; advance_engine_time) e1 w1 = Done tt e2 w2
             /\ stopped_at_end e2 e2 /\ _end_time e2 = 10
             /\ (forall n t, n ∈ nodes (graph e2) -> eval_fn n t <> Raises)).
  { eexists _, _. split; [reflexivity|]. split; [|split; [reflexivity|]].
    - unfold stopped_at_end, has_lists. simpl.
      split; [done|]. split; [done|]. split; [done|].
      split; [by repeat split|]. eexists. split; reflexivity.
    - simpl. intros n t Hn. apply list_elem_of_singleton in Hn as ->. discriminate. }
  destruct Hloop as (e2 & w2 & Htick & Hstopped & Hend & Hnodes).
  destruct (run_loop_stop_requested e2 Hnodes fuel e2 w2 Hstopped) as (e' & w' & Hrun & He').
  exists e', w'. split.
  - apply finally_out_of_fuel. rewrite (run_loop_step fuel 10 e1 ctx1 w1 Hctx1) by lia.
    unfold and_then in Htick |- *.
    destruct (evaluate_graph e1 w1) as [[] e1' w1'| |]; try discriminate Htick.
    rewrite Htick. rewrite <- Hend. exact Hrun.
  - destruct He' as (_ & _ & Hs & _ & ctx & Hc & Hnow). split; [exact Hs|].
    rewrite Hc. simpl. f_equal. change (_current_time ctx = 10). lia.
Qed.

End RunTheorems.

Section LifeCycleTheorems.
Context `{Constants}.
#[local] Abbreviation LEngine := (PythonGraphEngine BackTestExecutionContext).

(** C5, at the failing input. An engine with one observer (0) and one node
    (7) is started and stopped. Around [node.stop()] the observer gets
    [on_before_stop_node] and then [on_before_start_node]: the stop
    sequence never fires [on_after_stop_node]. *)
Theorem stop_fires_before_start_node :
  exists e w,
    (start ;; stop) observed_engine world0 = Done tt e w
    /\ trace w =
       [ Observer 0 on_before_start;
         Observer 0 (on_before_start_node 7);
         NodeCall Start 7;
         Observer 0 (on_after_start_node 7);
         Observer 0 on_after_start;
         Observer 0 on_before_stop;
         Observer 0 (on_before_stop_node 7);
         NodeCall Stop 7;
         Observer 0 (on_before_start_node 7);
         Observer 0 on_after_stop ].
Proof. eexists _, _. split; reflexivity. Qed.

(** The same for every engine: whatever the graph and the observers,
    [stop] adds no [on_after_stop_node] callback to the trace. *)
Lemma stop_never_fires_after_stop_node :
  inv (fun (_ : LEngine) w => Forall (fun ev => ~ fires_after_stop_node ev) (trace w))
      (fun _ => True) False stop.
Proof.
  assert (Hemit : forall ev, ~ fires_after_stop_node ev ->
            inv (fun (_ : LEngine) w =>
                   Forall (fun ev => ~ fires_after_stop_node ev) (trace w))
                (fun _ => True) False (emit ev)).
  { intros ev Hev. apply inv_emit. intros _ w Hw. simpl.
    apply Forall_app. split; [exact Hw|]. by apply Forall_singleton. }
  assert (Hnotify : forall cb, (forall n, cb <> on_after_stop_node n) ->
            inv (fun (_ : LEngine) w =>
                   Forall (fun ev => ~ fires_after_stop_node ev) (trace w))
                (fun _ => True) False (notify cb)).
  { intros cb Hcb e w Hw. unfold notify. cbv [and_then attribute get ret raise].
    destruct (_life_cycle_observers e) as [l|]; [|by split].
    apply (inv_for_each _ _ _ l (fun o => emit (Observer o cb))); [|exact Hw].
    intros o _. apply Hemit.
    intros (o' & n & [= _ Heq]). by apply (Hcb n). }
  unfold stop. apply inv_get. intros e0 _ _.
  destruct (is_started e0); [|apply inv_ret].
  apply inv_and_then; [by apply inv_modify|]. intros _.
  apply inv_and_then; [by apply Hnotify|]. intros _.
  apply inv_and_then.
  - apply inv_for_each. intros n _.
    apply inv_and_then; [by apply Hnotify|]. intros _.
    apply inv_and_then; [|intros _; by apply Hnotify].
    unfold call_node. apply inv_and_then.
    + apply Hemit. by intros (o & n' & [=]).
    + intros _. destruct (stop_fn n).
      * apply inv_ret.
      * by apply inv_modify.
      * by apply inv_raise.
  - intros _. apply inv_and_then; [by apply Hnotify|]. intros _. by apply inv_modify.
Qed.

End LifeCycleTheorems.

Section ProposalTheorems.
Context `{Constants}.
#[local] Abbreviation PEngine := (PythonGraphEngine BackTestExecutionContext).

(** No operation of the back-test context assigns the proposal. *)
Lemma back_test_advances_proposal (stop_requested : bool) (end_time : datetime)
    (ctx ctx' : BackTestExecutionContext) (w w' : World) :
  advances stop_requested end_time ctx w ctx' w' ->
  _proposed_next_engine_time ctx' = _proposed_next_engine_time ctx.
Proof.
  intros Hadv. destruct Hadv as [? ? ? Hset|? ? ? ? ? ? ? Hset|? ? ? ? ? ? ? ? Hset|? ? ? ? ? ? ? ? Hset];
    simpl in Hset; injection Hset as <- _; reflexivity.
Qed.

Lemma start_proposes_max (e e' : PEngine) (w w' : World) :
  is_started e = false -> start e w = Done tt e' w' -> proposes_max e'.
Proof.
  intros Hs Hstart. destruct (_run_mode e) eqn:Hm.
  - rewrite (start_real_time e w Hs Hm) in Hstart. discriminate.
  - rewrite (start_back_test e w Hs Hm) in Hstart.
    eapply (inv_done (fun e _ => proposes_max e) (fun _ => True) True); [|..|exact Hstart].
    + apply inv_start_nodes; [done| |done].
      intros s (ctx & Hc & Hp). by exists ctx.
    + eexists. split; reflexivity.
Qed.

Lemma evaluate_graph_proposes_max (e e' : PEngine) (w w' : World) :
  proposes_max e -> evaluate_graph e w = Done tt e' w' -> proposes_max e'.
Proof.
  intros He Heval.
  eapply (inv_done (fun e _ => proposes_max e) (fun _ => True) True); [|exact He|exact Heval].
  apply inv_evaluate_graph; try done.
  all: intros s (ctx & Hc & Hp); by exists ctx.
Qed.

Lemma advance_engine_time_proposes_max (e e' : PEngine) (w w' : World) :
  proposes_max e -> advance_engine_time e w = Done tt e' w' -> proposes_max e'.
Proof.
  intros (ctx & Hc & Hp) Hadv.
  destruct (advance_engine_time_advances e ctx w Hc) as (ctx' & w1 & Heq & Hrel).
  rewrite Heq in Hadv. injection Hadv as <- <-.
  exists ctx'. split; [reflexivity|].
  simpl in *. by rewrite (back_test_advances_proposal _ _ _ _ _ _ Hrel).
Qed.

(** C3, as amended. At every point of a run of an engine that was not
    yet started, the back-test context exists and its proposed next engine
    time is [MAX_DT], whatever the scheduler slots hold. *)
Theorem proposed_next_engine_time_is_max (e0 e : PEngine) (w0 w : World)
    (start_time end_time : datetime) :
  is_started e0 = false ->
  during_run e0 w0 start_time end_time e w ->
  exists ctx, _execution_context e = Some ctx /\ proposed_next_engine_time ctx = MAX_DT.
Proof.
  intros Hs Hrun. change (proposes_max e).
  induction Hrun as [e w Hstart|e w e' w' _ IH Heval|e w e' w' _ IH Hadv].
  - by apply (start_proposes_max (with_times e0 start_time end_time) e w0 w).
  - by apply (evaluate_graph_proposes_max e e' w w').
  - by apply (advance_engine_time_proposes_max e e' w w').
Qed.

End ProposalTheorems.

Lemma initialise_back_test_engine :
  @initialise _ sample_constants back_test_engine world0 = Done tt initialised_engine world0.
Proof. reflexivity. Qed.

Lemma proposed_next_engine_time_is_max_witness :
  is_started initialised_engine = false
  /\ exists e w ctx,
       @during_run sample_constants initialised_engine world0 0 10 e w
       /\ _execution_context e = Some ctx
       /\ proposed_next_engine_time ctx = @MAX_DT sample_constants.
Proof.
  split; [reflexivity|].
  destruct (@start sample_constants (with_times initialised_engine 0 10) world0)
    as [[] e w| |] eqn:Hstart; [|discriminate Hstart|discriminate Hstart].
  pose proof (@run_started sample_constants initialised_engine world0 0 10 e w Hstart) as Hrun.
  destruct (@proposed_next_engine_time_is_max sample_constants
              initialised_engine e world0 w 0 10 eq_refl Hrun) as (ctx & Hc & Hp).
  exists e, w, ctx. auto.
Defined.

(** C3 as stated fails. After [initialise] every slot is [MIN_DT], so the
    minimum over the one non-push node is [MIN_DT]; the context that
    [start] makes proposes [MAX_DT]. *)
Lemma proposed_next_engine_time_not_earliest_slot :
  @initialise _ sample_constants back_test_engine world0 = Done tt initialised_engine world0
  /\ exists e w ctx,
       @during_run sample_constants initialised_engine world0 0 10 e w
       /\ _execution_context e = Some ctx
       /\ @earliest_scheduler_slot sample_constants e = Some (@MIN_DT sample_constants)
       /\ proposed_next_engine_time ctx = @MAX_DT sample_constants
       /\ Some (proposed_next_engine_time ctx) <> @earliest_scheduler_slot sample_constants e.
Proof.
  split; [reflexivity|].
  eexists _, _, _. split; [apply run_started; reflexivity|].
  split; [reflexivity|]. split; [reflexivity|]. split; [reflexivity|]. discriminate.
Qed.

Section TimeRangeTheorems.
Context `{Constants}.
#[local] Abbreviation TEngine := (PythonGraphEngine BackTestExecutionContext).
#[local] Abbreviation anything := (fun (_ : TEngine) (_ : World) => True).

Lemma inv_advance_engine_time_no_value_error :
  inv anything not_value_error True (advance_engine_time (C := BackTestExecutionContext)).
Proof.
  intros e w _. destruct (_execution_context e) as [ctx|] eqn:Hctx.
  - destruct (advance_engine_time_advances e ctx w Hctx) as (ctx' & w' & -> & _). done.
  - rewrite (advance_engine_time_no_context e w Hctx). split; [|done]. by intros msg.
Qed.

Lemma inv_evaluate_graph_no_value_error :
  inv anything not_value_error True (evaluate_graph (C := BackTestExecutionContext)).
Proof.
  apply (inv_evaluate_graph (fun _ => True)); try done; intros; by intros msg.
Qed.

Lemma inv_run_loop_no_value_error (fuel : nat) (t : datetime) :
  inv anything not_value_error True (run_loop (C := BackTestExecutionContext) fuel t).
Proof.
  induction fuel as [|fuel IH]; simpl.
  - by apply inv_out_of_fuel.
  - apply inv_and_then.
    + unfold loop_condition. intros e w _. cbv [and_then the_context get ret raise].
      destruct (_execution_context e); [done|]. split; [|done]. by intros msg.
    + intros [|]; [|apply inv_ret].
      apply inv_and_then; [apply inv_evaluate_graph_no_value_error|]. intros _.
      apply inv_and_then; [apply inv_advance_engine_time_no_value_error|]. intros _.
      exact IH.
Qed.

Lemma inv_stop_no_value_error : inv anything not_value_error True stop.
Proof.
  apply (inv_stop (fun _ => True)); try done; intros; by intros msg.
Qed.

Lemma inv_start_no_value_error : inv anything not_value_error True start.
Proof.
  intros e w _. destruct (is_started e) eqn:Hs.
  - by rewrite (start_already_started e w Hs).
  - destruct (_run_mode e) eqn:Hm.
    + rewrite (start_real_time e w Hs Hm). split; [|done]. by intros msg.
    + rewrite (start_back_test e w Hs Hm).
      apply (inv_start_nodes (fun _ => True) not_value_error True e); try done;
        intros; by intros msg.
Qed.

Lemma run_no_value_error (fuel : nat) (s t : datetime) (e : TEngine) (w : World) :
  s <= t ->
  match run fuel s t e w with
  | Failed x _ _ => not_value_error x
  | _ => True
  end.
Proof.
  intros Hle. rewrite run_unfold. rewrite bool_decide_eq_false_2 by lia.
  assert (Hinv : inv anything not_value_error True (start_stop_context (run_loop fuel t))).
  { unfold start_stop_context. apply inv_finally; [|apply inv_stop_no_value_error].
    apply inv_and_then; [apply inv_start_no_value_error|].
    intros _. apply inv_run_loop_no_value_error. }
  specialize (Hinv (with_times e s t) w I).
  destruct (start_stop_context (run_loop fuel t) (with_times e s t) w); tauto.
Qed.

(** C8, at the failing input. [run] raises its ValueError, before
    anything is started, when the end time is before the start time, and
    never raises a ValueError otherwise: this much holds of every engine.
    But on an engine as the constructor leaves it, whatever the graph and
    the run mode, a [run] whose end time is not before its start time does
    not enter its loop: [start] raises before the first node is started
    (the three lists do not exist), [stop] raises in its turn, and [run]
    ends with an AttributeError, no node called and no observer told. *)
Theorem run_checks_time_range (fuel : nat) (s t : datetime) (e : TEngine) (w : World)
    (g : Graph) (mode : RunMode) :
  (t < s ->
     run fuel s t e w
     = Failed (ValueError "End time cannot be before the start time") (with_times e s t) w)
  /\ (s <= t ->
        match run fuel s t e w with
        | Failed x _ _ => not_value_error x
        | _ => True
        end)
  /\ (s <= t ->
        exists e' w',
          run fuel s t (new_engine g mode) w = Failed AttributeError e' w'
          /\ trace w' = trace w
          /\ is_started e' = false).
Proof.
  split; [|split].
  - intros Hlt. rewrite run_unfold. by rewrite bool_decide_eq_true_2.
  - apply run_no_value_error.
  - intros Hle. rewrite run_unfold. rewrite bool_decide_eq_false_2 by lia.
    rewrite start_stop_context_unfold.
    destruct mode; eexists _, _; (split; [reflexivity|split; reflexivity]).
Qed.

End TimeRangeTheorems.

(** *** What the methods record *)

Section Traces.
Context {S : Type}.

Lemma add_events_nil (w : World) : add_events w [] = w.
Proof. destruct w. unfold add_events. simpl. by rewrite app_nil_r. Qed.

Lemma add_events_app (w : World) (a b : list Event) :
  add_events (add_events w a) b = add_events w (a ++ b).
Proof. unfold add_events. simpl. by rewrite app_assoc. Qed.

Lemma concat_singletons {A B} (f : A -> B) (l : list A) :
  concat ((fun x => [f x]) <$> l) = f <$> l.
Proof. induction l as [|x rest IH]; [done|]. simpl. by f_equal. Qed.

Lemma for_each_emit {A} (f : A -> Event) (l : list A) :
  forall (s : S) (w : World),
    for_each l (fun x => emit (f x)) s w = Done tt s (add_events w (f <$> l)).
Proof.
  induction l as [|x rest IH]; intros s w; simpl.
  - by rewrite add_events_nil.
  - unfold and_then. simpl. fold (add_events w [f x]). rewrite IH.
    by rewrite add_events_app.
Qed.

(** A loop whose every iteration returns: the state is folded through the
    iterations and the events are recorded in their order. *)
Lemma for_each_run {A} (I : S -> Prop) (l : list A) (body : A -> Eff S unit)
    (step : A -> S -> S) (evs : A -> list Event) :
  (forall x s w, x ∈ l -> I s ->
     body x s w = Done tt (step x s) (add_events w (evs x)) /\ I (step x s)) ->
  forall s w, I s ->
    for_each l body s w
    = Done tt (foldl (fun s x => step x s) s l) (add_events w (concat (evs <$> l)))
    /\ I (foldl (fun s x => step x s) s l).
Proof.
  induction l as [|x rest IH]; intros Hbody s w HI.
  - simpl. by rewrite add_events_nil.
  - destruct (Hbody x s w) as [Hx HI']; [left|done|].
    destruct (IH (fun y s w Hy => Hbody y s w (list_elem_of_further _ _ _ Hy))
                (step x s) (add_events w (evs x)) HI') as [Hrest HI''].
    split; [|exact HI'']. simpl. unfold and_then. rewrite Hx, Hrest.
    by rewrite add_events_app.
Qed.

(** A loop that an iteration leaves by raising. *)
Lemma for_each_fails {A} (I : S -> Prop) (pre post : list A) (x : A)
    (body : A -> Eff S unit) (step : A -> S -> S) (evs : A -> list Event)
    (exn : Exn) (fstep : S -> S) (fevs : list Event) :
  (forall y s w, y ∈ pre -> I s ->
     body y s w = Done tt (step y s) (add_events w (evs y)) /\ I (step y s)) ->
  (forall s w, I s -> body x s w = Failed exn (fstep s) (add_events w fevs)) ->
  forall s w, I s ->
    for_each (pre ++ x :: post) body s w
    = Failed exn (fstep (foldl (fun s y => step y s) s pre))
        (add_events w (concat (evs <$> pre) ++ fevs)).
Proof.
  induction pre as [|y rest IH]; intros Hbody Hx s w HI.
  - simpl. unfold and_then. by rewrite Hx.
  - destruct (Hbody y s w) as [Hy HI']; [left|done|].
    simpl. unfold and_then at 1. rewrite Hy.
    rewrite IH; [|intros z s' w' Hz; apply Hbody; by right|done|done].
    by rewrite add_events_app, <- app_assoc.
Qed.

Lemma for_each_filter {A} (P : A -> Prop) `{forall x, Decision (P x)}
    (body : A -> Eff S unit) (l : list A) :
  forall s w,
    for_each l (fun x => if bool_decide (P x) then body x else ret tt) s w
    = for_each (filter P l) body s w.
Proof.
  induction l as [|x rest IH]; intros s w; [done|].
  rewrite filter_cons. simpl. case_bool_decide as HP.
  - rewrite decide_True by done. simpl. unfold and_then.
    destruct (body x s w); [apply IH|done|done].
  - rewrite decide_False by done. unfold and_then, ret. apply IH.
Qed.

End Traces.

Section MethodTraces.
Context {C : Type} `{ExecutionContext C}.
Implicit Types (e : PythonGraphEngine C) (w : World).

Lemma attribute_run {A B} (field : PythonGraphEngine C -> option A)
    (K : A -> Eff (PythonGraphEngine C) B) (a : A) e w :
  field e = Some a -> and_then (attribute field) K e w = K a e w.
Proof. intros Hf. cbv [and_then attribute get ret raise]. by rewrite Hf. Qed.

Lemma attribute_missing {A B} (field : PythonGraphEngine C -> option A)
    (K : A -> Eff (PythonGraphEngine C) B) e w :
  field e = None -> and_then (attribute field) K e w = Failed AttributeError e w.
Proof. intros Hf. cbv [and_then attribute get ret raise]. by rewrite Hf. Qed.

Lemma notify_run (cb : Callback) e w :
  is_Some (_life_cycle_observers e) ->
  notify cb e w = Done tt e (add_events w (notified e cb)).
Proof.
  intros [l Hl]. unfold notify. rewrite (attribute_run _ _ l) by done.
  unfold notified, observers. rewrite Hl. simpl. apply for_each_emit.
Qed.

Lemma notify_before_evaluation_run e w :
  is_Some (_life_cycle_observers e) -> is_Some (_before_evaluation_notification e) ->
  notify_before_evaluation e w
  = Done tt (with_before_notifications e [])
      (add_events w ((Receiver <$> before_receivers e)
                     ++ notified e on_before_evaluation)).
Proof.
  intros Hobs [l Hl]. unfold notify_before_evaluation.
  rewrite (attribute_run _ _ l) by done.
  unfold before_receivers. rewrite Hl. simpl. unfold and_then. rewrite for_each_emit.
  unfold modify. rewrite notify_run by done. by rewrite add_events_app.
Qed.

Lemma notify_after_evaluation_run e w :
  is_Some (_life_cycle_observers e) -> is_Some (_after_evaluation_notification e) ->
  notify_after_evaluation e w
  = Done tt (with_after_notifications e [])
      (add_events w ((Receiver <$> after_receivers e)
                     ++ notified e on_after_evaluation)).
Proof.
  intros Hobs [l Hl]. unfold notify_after_evaluation.
  rewrite (attribute_run _ _ l) by done.
  unfold after_receivers. rewrite Hl. simpl. unfold and_then. rewrite for_each_emit.
  unfold modify. rewrite notify_run by done. by rewrite add_events_app.
Qed.

Lemma call_node_run (m : Method) (n : Node) (a : Action) e w :
  a <> Raises ->
  call_node m n a e w = Done tt (acted a e) (add_events w [NodeCall m (node_ndx n)]).
Proof. by destruct a. Qed.

Lemma call_node_raises (m : Method) (n : Node) e w :
  call_node m n Raises e w = Failed UserError e (add_events w [NodeCall m (node_ndx n)]).
Proof. reflexivity. Qed.

Lemma acted_observers (a : Action) e :
  _life_cycle_observers (acted a e) = _life_cycle_observers e.
Proof. unfold acted. by destruct (requests_stop a). Qed.

Lemma notified_same e e0 (cb : Callback) :
  _life_cycle_observers e = _life_cycle_observers e0 -> notified e cb = notified e0 cb.
Proof. unfold notified, observers. by intros ->. Qed.

(** A node's method between its two callbacks. *)
Lemma bracketed_run (before after : nat -> Callback) (m : Method) (a : Action) (n : Node)
    e0 e w :
  is_Some (_life_cycle_observers e0) ->
  a <> Raises -> _life_cycle_observers e = _life_cycle_observers e0 ->
  (notify (before (node_ndx n)) ;; call_node m n a ;; notify (after (node_ndx n))) e w
  = Done tt (acted a e) (add_events w (bracketed e0 before m after n)).
Proof.
  intros Hsome Ha Hobs. unfold and_then.
  rewrite notify_run by (by rewrite Hobs).
  rewrite (call_node_run _ _ _ _ _ Ha).
  rewrite notify_run by (by rewrite acted_observers, Hobs).
  rewrite !add_events_app. unfold bracketed.
  rewrite (notified_same (acted a e) e0) by (by rewrite acted_observers).
  by rewrite (notified_same e e0).
Qed.

Lemma bracketed_raises (before after : nat -> Callback) (m : Method) (n : Node) e0 e w :
  is_Some (_life_cycle_observers e0) ->
  _life_cycle_observers e = _life_cycle_observers e0 ->
  (notify (before (node_ndx n)) ;; call_node m n Raises ;; notify (after (node_ndx n))) e w
  = Failed UserError e
      (add_events w (notified e0 (before (node_ndx n)) ++ [NodeCall m (node_ndx n)])).
Proof.
  intros Hsome Hobs. unfold and_then. rewrite notify_run by (by rewrite Hobs).
  rewrite call_node_raises.
  by rewrite add_events_app, (notified_same e e0).
Qed.

(** The stop flag after the nodes of a list have acted. *)
Lemma acted_foldl (act : Node -> Action) (l : list Node) :
  forall e,
    foldl (fun s n => acted (act n) s) e l
    = with_stop_requested e
        (_stop_requested e || existsb (fun n => requests_stop (act n)) l).
Proof.
  induction l as [|n rest IH]; intros e; simpl.
  - rewrite orb_false_r. by destruct e.
  - rewrite IH. unfold acted. destruct (requests_stop (act n)); simpl.
    + by rewrite orb_true_r.
    + done.
Qed.

(** The loop over the nodes in [start] and [stop]. *)
Lemma for_each_bracketed (before after : nat -> Callback) (m : Method)
    (act : Node -> Action) (l : list Node) e w :
  is_Some (_life_cycle_observers e) ->
  (forall n, n ∈ l -> act n <> Raises) ->
  for_each l (fun node =>
    notify (before (node_ndx node)) ;; call_node m node (act node) ;;
    notify (after (node_ndx node))) e w
  = Done tt
      (with_stop_requested e
         (_stop_requested e || existsb (fun n => requests_stop (act n)) l))
      (add_events w (concat (bracketed e before m after <$> l))).
Proof.
  intros Hsome Hact. rewrite <- acted_foldl.
  apply (for_each_run (fun s => _life_cycle_observers s = _life_cycle_observers e));
    [|done].
  intros n s w' Hn Hs. split; [|by rewrite acted_observers].
  apply bracketed_run; [done|by apply Hact|done].
Qed.

Lemma for_each_bracketed_fails (before after : nat -> Callback) (m : Method)
    (act : Node -> Action) (pre post : list Node) (n : Node) e w :
  is_Some (_life_cycle_observers e) ->
  (forall k, k ∈ pre -> act k <> Raises) -> act n = Raises ->
  for_each (pre ++ n :: post) (fun node =>
    notify (before (node_ndx node)) ;; call_node m node (act node) ;;
    notify (after (node_ndx node))) e w
  = Failed UserError
      (with_stop_requested e
         (_stop_requested e || existsb (fun n => requests_stop (act n)) pre))
      (add_events w (concat (bracketed e before m after <$> pre)
                     ++ notified e (before (node_ndx n)) ++ [NodeCall m (node_ndx n)])).
Proof.
  intros Hsome Hact Hn. rewrite <- acted_foldl.
  apply (for_each_fails (fun s => _life_cycle_observers s = _life_cycle_observers e)
           pre post n _ (fun k s => acted (act k) s)
           (bracketed e before m after) UserError (fun s => s)); [| |done].
  - intros k s w' Hk Hs. split; [|by rewrite acted_observers].
    apply bracketed_run; [done|by apply Hact|done].
  - intros s w' Hs. rewrite Hn. by apply bracketed_raises.
Qed.

(** The loop over the push source nodes visits the first
    [push_source_nodes_end] nodes. *)
Lemma for_each_seq_nodes (ns : list Node) (body : Node -> Eff (PythonGraphEngine C) unit)
    (k : nat) :
  forall a e w,
    (a + k <= length ns)%nat ->
    for_each (seq a k) (fun i => node <~ nodes_getitem ns i; body node) e w
    = for_each (take k (drop a ns)) body e w.
Proof.
  induction k as [|k IH]; intros a e w Hle; simpl.
  - done.
  - destruct (lookup_lt_is_Some_2 ns a) as [n Hn]; [lia|].
    rewrite (drop_S _ _ _ Hn). simpl.
    unfold and_then in *. unfold nodes_getitem at 1. rewrite Hn. simpl.
    destruct (body n e w); [|done|done]. apply IH. lia.
Qed.

Lemma for_each_push_nodes (act : Node -> Action) e w :
  (push_source_nodes_end (graph e) <= length (nodes (graph e)))%nat ->
  (forall n, n ∈ push_nodes e -> act n <> Raises) ->
  for_each (seq 0 (push_source_nodes_end (graph e)))
    (fun i => node <~ nodes_getitem (nodes (graph e)) i; call_node Eval node (act node)) e w
  = Done tt
      (with_stop_requested e
         (_stop_requested e || existsb (fun n => requests_stop (act n)) (push_nodes e)))
      (add_events w ((fun n => NodeCall Eval (node_ndx n)) <$> push_nodes e)).
Proof.
  intros Hle Hact. rewrite for_each_seq_nodes by lia. rewrite drop_0.
  fold (push_nodes e). rewrite <- acted_foldl.
  destruct (for_each_run (fun _ : PythonGraphEngine C => True) (push_nodes e)
              (fun node => call_node Eval node (act node))
              (fun n s => acted (act n) s)
              (fun n => [NodeCall Eval (node_ndx n)])) with (s := e) (w := w)
    as [-> _]; [|done|].
  - intros n s w' Hn _. split; [|done]. apply call_node_run. by apply Hact.
  - by rewrite concat_singletons.
Qed.

(** [evaluate_graph] when no node raises: the state it leaves and the
    events it records. *)
Lemma evaluate_graph_run e (ctx : C) w :
  has_lists e ->
  _execution_context e = Some ctx ->
  (forall n, n ∈ evaluated_nodes e ctx -> eval_fn n (current_engine_time ctx) <> Raises) ->
  (push_has_pending_values ctx = true ->
   (push_source_nodes_end (graph e) <= length (nodes (graph e)))%nat) ->
  evaluate_graph e w
  = Done tt
      (after_evaluation e
         (if push_has_pending_values ctx then reset_push_has_pending_values ctx else ctx)
         (_stop_requested e
          || existsb (fun n => requests_stop (eval_fn n (current_engine_time ctx)))
               (evaluated_nodes e ctx)))
      (add_events w (evaluation e ctx)).
Proof.
  intros (Hobs & Hbef & Haft) Hctx Hact Hpush. unfold evaluate_graph.
  unfold and_then at 1. rewrite notify_before_evaluation_run by done.
  unfold and_then at 1. unfold the_context, and_then at 1, get. simpl. rewrite Hctx. simpl.
  unfold and_then at 1. cbn beta iota.
  set (now := current_engine_time ctx) in *.
  set (e1 := with_before_notifications e []).
  unfold evaluated_nodes in Hact. unfold evaluation, evaluation_start, evaluated_nodes.
  fold now.
  destruct (push_has_pending_values ctx) eqn:Hp.
  - unfold and_then at 1. unfold and_then at 1.
    unfold call_reset_push_has_pending_values, on_context. simpl. rewrite Hctx.
    set (e2 := with_context e1 (Some (reset_push_has_pending_values ctx))).
    change (nodes (graph e)) with (nodes (graph e2)).
    change (push_source_nodes_end (graph e)) with (push_source_nodes_end (graph e2)).
    rewrite (for_each_push_nodes (fun n => eval_fn n now) e2); cycle 1.
    { by apply Hpush. }
    { intros n Hn. apply Hact. apply elem_of_app. by left. }
    unfold and_then at 1. rewrite for_each_filter.
    fold (scheduled_nodes e2 now).
    rewrite (for_each_bracketed on_before_node_evaluation on_after_node_evaluation Eval
               (fun n => eval_fn n now)); cycle 1.
    { exact Hobs. }
    { intros n Hn. apply Hact. apply elem_of_app. by right. }
    rewrite notify_after_evaluation_run; [|exact Hobs|exact Haft].
    rewrite !add_events_app.
    f_equal.
    + unfold after_evaluation. simpl. rewrite existsb_app. by rewrite orb_assoc.
    + f_equal. rewrite <- !app_assoc. reflexivity.
  - unfold and_then at 1. unfold and_then at 1. unfold ret at 1.
    unfold and_then at 1. rewrite for_each_filter.
    fold (scheduled_nodes e1 now).
    rewrite (for_each_bracketed on_before_node_evaluation on_after_node_evaluation Eval
               (fun n => eval_fn n now)); cycle 1.
    { exact Hobs. }
    { intros n Hn. apply Hact. by rewrite app_nil_l. }
    rewrite notify_after_evaluation_run; [|exact Hobs|exact Haft].
    rewrite !add_events_app.
    f_equal.
    + unfold after_evaluation, e1. clear -Hctx. destruct e. simpl in *. by rewrite Hctx.
    + f_equal. rewrite ?app_nil_r, <- ?app_assoc. reflexivity.
Qed.

(** X11. On an engine that has its three lists (the constructor does not
    make them: they have been assigned since) and a context,
    [evaluate_graph], when no node that it evaluates raises, returns, and
    records, in this order: the queued before-evaluation receivers,
    [on_before_evaluation] on every observer, with a push pending the
    [eval] of the push source nodes (no observer told), for each later node
    scheduled at the current engine time [on_before_node_evaluation], its
    [eval] and [on_after_node_evaluation], the queued after-evaluation
    receivers, and [on_after_evaluation]. Both queues are empty afterwards,
    the stop flag is set if it was or if an evaluated node asked for a
    stop, the context has its pending push reset, and nothing else has
    changed; the host clock is not read. *)
Theorem evaluate_graph_events e (ctx : C) w :
  has_lists e ->
  _execution_context e = Some ctx ->
  (forall n, n ∈ evaluated_nodes e ctx -> eval_fn n (current_engine_time ctx) <> Raises) ->
  (push_has_pending_values ctx = true ->
   (push_source_nodes_end (graph e) <= length (nodes (graph e)))%nat) ->
  exists e' w',
    evaluate_graph e w = Done tt e' w'
    /\ trace w' = trace w ++ evaluation e ctx
    /\ reads w' = reads w
    /\ _before_evaluation_notification e' = Some []
    /\ _after_evaluation_notification e' = Some []
    /\ _stop_requested e'
       = _stop_requested e
         || existsb (fun n => requests_stop (eval_fn n (current_engine_time ctx)))
              (evaluated_nodes e ctx)
    /\ _execution_context e'
       = Some (if push_has_pending_values ctx
               then reset_push_has_pending_values ctx else ctx)
    /\ graph e' = graph e /\ is_started e' = is_started e
    /\ _life_cycle_observers e' = _life_cycle_observers e.
Proof.
  intros Hlists Hctx Hact Hpush. eexists _, _.
  split; [by apply evaluate_graph_run|]. simpl. by repeat split.
Qed.

(** X12. On an engine that has its list of observers and its queue of
    before-evaluation receivers, when the [eval] of a scheduled node
    raises, [evaluate_graph] raises at once: the node's [on_after_node_evaluation] is not told, the
    nodes after it are not evaluated, and the after-evaluation receivers
    are neither called nor taken from their queue, while the
    before-evaluation queue has been emptied. *)
Theorem evaluate_graph_node_raises e (ctx : C) w (pre post : list Node) (n : Node) :
  is_Some (_life_cycle_observers e) -> is_Some (_before_evaluation_notification e) ->
  _execution_context e = Some ctx ->
  (push_has_pending_values ctx = true ->
   (push_source_nodes_end (graph e) <= length (nodes (graph e)))%nat
   /\ forall m, m ∈ push_nodes e -> eval_fn m (current_engine_time ctx) <> Raises) ->
  scheduled_nodes e (current_engine_time ctx) = pre ++ n :: post ->
  (forall m, m ∈ pre -> eval_fn m (current_engine_time ctx) <> Raises) ->
  eval_fn n (current_engine_time ctx) = Raises ->
  exists e',
    evaluate_graph e w
    = Failed UserError e'
        (add_events w
           (evaluation_start e ctx
            ++ concat (bracketed e on_before_node_evaluation Eval on_after_node_evaluation
                         <$> pre)
            ++ notified e (on_before_node_evaluation (node_ndx n))
            ++ [NodeCall Eval (node_ndx n)]))
    /\ _before_evaluation_notification e' = Some []
    /\ _after_evaluation_notification e' = _after_evaluation_notification e.
Proof.
  intros Hobs Hbef Hctx Hpush Hsched Hpre Hn. unfold evaluate_graph.
  unfold and_then at 1. rewrite notify_before_evaluation_run by done.
  unfold and_then at 1. unfold the_context, and_then at 1, get. simpl. rewrite Hctx. simpl.
  unfold and_then at 1. cbn beta iota.
  set (now := current_engine_time ctx) in *.
  set (e1 := with_before_notifications e []).
  unfold evaluation_start.
  destruct (push_has_pending_values ctx) eqn:Hp.
  - destruct (Hpush eq_refl) as [Hle Hpushed].
    unfold and_then at 1. unfold and_then at 1.
    unfold call_reset_push_has_pending_values, on_context. simpl. rewrite Hctx.
    set (e2 := with_context e1 (Some (reset_push_has_pending_values ctx))).
    change (nodes (graph e)) with (nodes (graph e2)).
    change (push_source_nodes_end (graph e)) with (push_source_nodes_end (graph e2)).
    rewrite (for_each_push_nodes (fun n => eval_fn n now) e2) by done.
    unfold and_then at 1. rewrite for_each_filter.
    fold (scheduled_nodes e2 now). change (scheduled_nodes e2 now) with (scheduled_nodes e now).
    rewrite Hsched.
    rewrite (for_each_bracketed_fails on_before_node_evaluation on_after_node_evaluation Eval
               (fun n => eval_fn n now)) by done.
    eexists. split.
    { f_equal. rewrite !add_events_app. f_equal. rewrite <- !app_assoc. reflexivity. }
    split; reflexivity.
  - unfold and_then at 1. unfold and_then at 1. unfold ret at 1.
    unfold and_then at 1. rewrite for_each_filter.
    fold (scheduled_nodes e1 now). change (scheduled_nodes e1 now) with (scheduled_nodes e now).
    rewrite Hsched.
    rewrite (for_each_bracketed_fails on_before_node_evaluation on_after_node_evaluation Eval
               (fun n => eval_fn n now)) by done.
    eexists. split.
    { f_equal. rewrite !add_events_app. f_equal. rewrite ?app_nil_r, <- ?app_assoc.
      reflexivity. }
    split; reflexivity.
Qed.

(** *** Observers *)

Lemma list_remove_absent (x : nat) (l : list nat) : x ∉ l -> list_remove x l = None.
Proof.
  induction l as [|y rest IH]; [done|]. intros [Hne Hrest]%not_elem_of_cons. simpl.
  rewrite decide_False by done. by rewrite IH.
Qed.

Lemma list_remove_first (x : nat) (l1 l2 : list nat) :
  x ∉ l1 -> list_remove x (l1 ++ x :: l2) = Some (l1 ++ l2).
Proof.
  induction l1 as [|y rest IH]; simpl.
  - intros _. by rewrite decide_True.
  - intros [Hne Hrest]%not_elem_of_cons. rewrite decide_False by done. by rewrite IH.
Qed.

(** X13. On an engine as the constructor leaves it there is no list of
    observers: [add_life_cycle_observer] and [remove_life_cycle_observer]
    raise an AttributeError. Once the list has been assigned,
    [remove_life_cycle_observer] takes out the first registration of the
    observer and raises a ValueError, changing nothing, when there is
    none. So [add_life_cycle_observer] followed by
    [remove_life_cycle_observer] gives back the list of observers when the
    observer was not registered before; when it was, the earlier
    registration goes and the new one stays, at the end of the list. *)
Theorem remove_life_cycle_observer_first (observer : nat) e w :
  (_life_cycle_observers e = None ->
     add_life_cycle_observer observer e w = Failed AttributeError e w
     /\ remove_life_cycle_observer observer e w = Failed AttributeError e w)
  /\ (forall l,
        _life_cycle_observers e = Some l -> observer ∉ l ->
        add_life_cycle_observer observer e w
        = Done tt (with_observers e (l ++ [observer])) w
        /\ remove_life_cycle_observer observer e w
           = Failed (ValueError "list.remove(x): x not in list") e w
        /\ (add_life_cycle_observer observer ;; remove_life_cycle_observer observer) e w
           = Done tt e w)
  /\ (forall l1 l2,
        _life_cycle_observers e = Some (l1 ++ observer :: l2) -> observer ∉ l1 ->
        remove_life_cycle_observer observer e w = Done tt (with_observers e (l1 ++ l2)) w
        /\ (add_life_cycle_observer observer ;; remove_life_cycle_observer observer) e w
           = Done tt (with_observers e (l1 ++ l2 ++ [observer])) w).
Proof.
  split; [|split].
  - intros Hnone. split.
    + unfold add_life_cycle_observer. by rewrite attribute_missing.
    + unfold remove_life_cycle_observer. by rewrite attribute_missing.
  - intros l Hobs Hnot.
    assert (Hadd : add_life_cycle_observer observer e w
                   = Done tt (with_observers e (l ++ [observer])) w).
    { unfold add_life_cycle_observer. by rewrite (attribute_run _ _ l). }
    split; [exact Hadd|]. split.
    + unfold remove_life_cycle_observer. rewrite (attribute_run _ _ l) by done.
      by rewrite list_remove_absent.
    + unfold and_then at 1. rewrite Hadd.
      unfold remove_life_cycle_observer.
      rewrite (attribute_run _ _ (l ++ [observer])) by done.
      rewrite (list_remove_first observer l []) by done.
      rewrite app_nil_r. unfold modify. f_equal.
      destruct e. simpl in *. by rewrite Hobs.
  - intros l1 l2 Hobs Hnot. split.
    + unfold remove_life_cycle_observer.
      rewrite (attribute_run _ _ (l1 ++ observer :: l2)) by done.
      by rewrite list_remove_first.
    + unfold and_then at 1. unfold add_life_cycle_observer.
      rewrite (attribute_run _ _ (l1 ++ observer :: l2)) by done.
      unfold modify. unfold remove_life_cycle_observer.
      rewrite (attribute_run _ _ ((l1 ++ observer :: l2) ++ [observer])) by done.
      rewrite <- app_assoc. simpl.
      rewrite (list_remove_first observer l1 (l2 ++ [observer])) by done.
      reflexivity.
Qed.

End MethodTraces.

Section BackTestTraces.
Context `{Constants}.
#[local] Abbreviation XEngine := (PythonGraphEngine BackTestExecutionContext).
Implicit Types (e : XEngine) (w : World).

Lemma start_run e w :
  is_Some (_life_cycle_observers e) ->
  is_started e = false -> _run_mode e = BACK_TEST ->
  (forall n, n ∈ nodes (graph e) -> start_fn n <> Raises) ->
  start e w
  = Done tt
      (with_stop_requested (started e w)
         (existsb (fun n => requests_stop (start_fn n)) (nodes (graph e))))
      (add_events (bt_init (_start_time e) w).2 (start_events e)).
Proof.
  intros Hobs Hs Hm Hact. rewrite (start_back_test e w Hs Hm). unfold start_nodes.
  unfold and_then at 1. rewrite notify_run by exact Hobs.
  unfold and_then at 1.
  change (nodes (graph e)) with (nodes (graph (started e w))) at 1.
  rewrite (for_each_bracketed on_before_start_node on_after_start_node Start start_fn);
    [|exact Hobs|done].
  rewrite notify_run by exact Hobs. rewrite !add_events_app. reflexivity.
Qed.

Lemma stop_run e w :
  is_Some (_life_cycle_observers e) ->
  is_started e = true ->
  (forall n, n ∈ nodes (graph e) -> stop_fn n <> Raises) ->
  stop e w
  = Done tt
      (with_context
         (with_stop_requested (with_is_started e false)
            (_stop_requested e || existsb (fun n => requests_stop (stop_fn n)) (nodes (graph e))))
         None)
      (add_events w (stop_events e)).
Proof.
  intros Hobs Hs Hact. unfold stop. unfold and_then at 1. unfold get at 1. cbn beta iota.
  rewrite Hs. unfold and_then at 1. unfold modify at 1. cbn beta iota.
  unfold and_then at 1. rewrite notify_run by exact Hobs.
  unfold and_then at 1.
  change (nodes (graph e)) with (nodes (graph (with_is_started e false))) at 1.
  rewrite (for_each_bracketed on_before_stop_node on_before_start_node Stop stop_fn);
    [|exact Hobs|done].
  unfold and_then at 1. rewrite notify_run by exact Hobs.
  rewrite !add_events_app. reflexivity.
Qed.

(** X14. [start] on an engine in BACK_TEST mode that has its list of
    observers (the constructor does not make it: it has been assigned
    since) and is not started, when no node's [start] raises: the host
    clock is read once, for the new
    context, which is at the start time and proposes [MAX_DT]; the
    observers are told [on_before_start], then around each node's [start],
    in the order of the graph, [on_before_start_node] and
    [on_after_start_node], then [on_after_start]. The engine is started
    afterwards, and a stop requested before [start] is forgotten: the flag
    is set only if a node asked for a stop while it started. *)
Theorem start_events_in_order e w :
  is_Some (_life_cycle_observers e) ->
  is_started e = false -> _run_mode e = BACK_TEST ->
  (forall n, n ∈ nodes (graph e) -> start_fn n <> Raises) ->
  exists e' w',
    start e w = Done tt e' w'
    /\ trace w' = trace w ++ start_events e
    /\ reads w' = Datatypes.S (reads w)
    /\ is_started e' = true
    /\ _stop_requested e' = existsb (fun n => requests_stop (start_fn n)) (nodes (graph e))
    /\ _execution_context e'
       = Some {| _current_time := _start_time e;
                 _wall_clock_time_at_current_time := readings w (reads w);
                 _proposed_next_engine_time := MAX_DT |}
    /\ graph e' = graph e /\ _life_cycle_observers e' = _life_cycle_observers e.
Proof.
  intros Hobs Hs Hm Hact. eexists _, _. split; [by apply start_run|]. simpl.
  by repeat split.
Qed.

(** X15. [stop] on a started engine that has its list of observers (the
    constructor does not make it: it has been assigned since), when no
    node's [stop] raises: the observers are told [on_before_stop], then around each node's [stop], in
    the order of the graph, [on_before_stop_node] before it and
    [on_before_start_node] after it, then [on_after_stop]. Afterwards the
    engine is not started and has no context; a stop request survives. *)
Theorem stop_events_in_order e w :
  is_Some (_life_cycle_observers e) ->
  is_started e = true ->
  (forall n, n ∈ nodes (graph e) -> stop_fn n <> Raises) ->
  exists e' w',
    stop e w = Done tt e' w'
    /\ trace w' = trace w ++ stop_events e
    /\ reads w' = reads w
    /\ is_started e' = false
    /\ _execution_context e' = None
    /\ _stop_requested e'
       = _stop_requested e || existsb (fun n => requests_stop (stop_fn n)) (nodes (graph e))
    /\ graph e' = graph e /\ _life_cycle_observers e' = _life_cycle_observers e.
Proof.
  intros Hobs Hs Hact. eexists _, _. split; [by apply stop_run|]. simpl. by repeat split.
Qed.

(** X16. However [start] ends, by returning or by raising (in REAL_TIME
    mode, because the list of observers is missing, or because a node's
    [start] raised), the engine is marked as
    started afterwards: a second [start] returns at once and starts
    nothing, so nodes that the first call did not reach stay unstarted. *)
Theorem start_again_does_nothing e w :
  match start e w with
  | Done _ e' w' | Failed _ e' w' => is_started e' = true /\ start e' w' = Done tt e' w'
  | OutOfFuel _ _ => False
  end.
Proof.
  assert (Hagain : forall e' w', is_started e' = true ->
            is_started e' = true /\ start e' w' = Done tt e' w').
  { intros e' w' Hs'. split; [done|]. by apply start_already_started. }
  destruct (is_started e) eqn:Hs.
  - rewrite (start_already_started e w Hs). by apply Hagain.
  - destruct (_run_mode e) eqn:Hm.
    + rewrite (start_real_time e w Hs Hm). by apply Hagain.
    + rewrite (start_back_test e w Hs Hm).
      pose proof (inv_start_nodes (fun s => is_started s = true) (fun _ => True) False e
                    (fun _ => I) (fun s Hs' => Hs') (fun _ _ _ => I) (started e w)
                    (bt_init (_start_time e) w).2 eq_refl) as Hinv.
      destruct (start_nodes e (started e w) (bt_init (_start_time e) w).2)
        as [[] e' w'|x e' w'|e' w']; [by apply Hagain| |tauto].
      destruct Hinv as [_ Hs']. by apply Hagain.
Qed.

(** X17. On a started engine that has its list of observers, when the
    [stop] of a node raises, [stop] raises at once: the
    nodes after it in the graph are not stopped, [on_after_stop] is not
    told, and the engine keeps its context but is already marked as not
    started, so a second [stop] returns at once and the remaining nodes
    are never stopped. *)
Theorem stop_node_raises e w (pre post : list Node) (n : Node) :
  is_Some (_life_cycle_observers e) ->
  is_started e = true ->
  nodes (graph e) = pre ++ n :: post ->
  (forall m, m ∈ pre -> stop_fn m <> Raises) ->
  stop_fn n = Raises ->
  exists e' w',
    stop e w = Failed UserError e' w'
    /\ trace w'
       = trace w ++ notified e on_before_stop
         ++ concat (bracketed e on_before_stop_node Stop on_before_start_node <$> pre)
         ++ notified e (on_before_stop_node (node_ndx n)) ++ [NodeCall Stop (node_ndx n)]
    /\ is_started e' = false
    /\ _execution_context e' = _execution_context e
    /\ stop e' w' = Done tt e' w'.
Proof.
  intros Hobs Hs Hnodes Hpre Hn. eexists _, _. split.
  { unfold stop. unfold and_then at 1. unfold get at 1. cbn beta iota.
    rewrite Hs. unfold and_then at 1. unfold modify at 1. cbn beta iota.
    unfold and_then at 1. rewrite notify_run by exact Hobs.
    unfold and_then at 1. rewrite Hnodes.
    rewrite (for_each_bracketed_fails on_before_stop_node on_before_start_node Stop stop_fn);
      [|exact Hobs|done|done].
    rewrite add_events_app. reflexivity. }
  simpl. split; [reflexivity|]. split; [done|]. split; [done|].
  unfold stop, and_then, get. reflexivity.
Qed.

End BackTestTraces.

Section BackTestLoop.
Context `{Constants}.
#[local] Abbreviation YEngine := (PythonGraphEngine BackTestExecutionContext).
Implicit Types (e : YEngine) (w : World).

(** No case of [advance_engine_time] lets the host clock decide the
    back-test engine time. *)
Lemma back_test_advances_time (stop_requested : bool) (end_time : datetime)
    (ctx ctx' : BackTestExecutionContext) w w' :
  advances stop_requested end_time ctx w ctx' w' ->
  _current_time ctx'
  = (if stop_requested then end_time else _proposed_next_engine_time ctx)
  /\ _proposed_next_engine_time ctx' = _proposed_next_engine_time ctx
  /\ trace w' = trace w.
Proof.
  intros Hadv.
  destruct Hadv as [? ? Hstop Hset|? ? ? ? Hstop Hwall _ Hset
                    |? ? ? ? Hstop Hwall _ Hpush Hset|? ? ? ? Hstop Hwall _ _ Hset];
    simpl in *; try discriminate Hpush;
    try (injection Hwall as <- <-); injection Hset as <- <-; subst; done.
Qed.

(** X18. In back-test mode [advance_engine_time] ignores the host clock:
    with a stop requested the engine time becomes the end time, otherwise
    it becomes the proposed next engine time at once, whether the wall
    clock has reached it or not. The proposal is left as it is and nothing
    is recorded. *)
Theorem advance_engine_time_back_test e (ctx : BackTestExecutionContext) w :
  _execution_context e = Some ctx ->
  exists ctx' w',
    advance_engine_time e w = Done tt (with_context e (Some ctx')) w'
    /\ _current_time ctx'
       = (if _stop_requested e then _end_time e else _proposed_next_engine_time ctx)
    /\ _proposed_next_engine_time ctx' = _proposed_next_engine_time ctx
    /\ trace w' = trace w.
Proof.
  intros Hctx.
  destruct (advance_engine_time_advances e ctx w Hctx) as (ctx' & w' & Heq & Hadv).
  exists ctx', w'. split; [exact Heq|]. by apply back_test_advances_time.
Qed.

Lemma existsb_requests_stop_Returns (act : Node -> Action) (l : list Node) :
  (forall n, n ∈ l -> act n = Returns) ->
  existsb (fun n => requests_stop (act n)) l = false.
Proof.
  induction l as [|n rest IH]; intros Hall; [done|]. simpl.
  rewrite (Hall n) by left. simpl. apply IH. intros m Hm. apply Hall. by right.
Qed.

(** X19. The loop of [run], on a back-test engine that has its three
    lists (the constructor does not make them: they have been assigned
    since), with no stop requested, whose context is at a time up to the
    end time and proposes a later time than the end time: when the
    scheduled nodes only return, the
    graph is evaluated exactly once, the engine time jumps to the proposed
    time and the loop ends. (The back-test context always proposes
    [MAX_DT].) *)
Theorem run_loop_one_tick (fuel : nat) (t : datetime) e (ctx : BackTestExecutionContext) w :
  has_lists e ->
  _execution_context e = Some ctx ->
  _stop_requested e = false ->
  (forall n, n ∈ scheduled_nodes e (_current_time ctx) ->
     eval_fn n (_current_time ctx) = Returns) ->
  _current_time ctx <= t < _proposed_next_engine_time ctx ->
  exists e' w',
    run_loop (Datatypes.S (Datatypes.S fuel)) t e w = Done tt e' w'
    /\ trace w' = trace w ++ evaluation e ctx
    /\ (current_engine_time <$> _execution_context e')
       = Some (_proposed_next_engine_time ctx)
    /\ _stop_requested e' = false.
Proof.
  intros Hlists Hctx Hstop Hret [Hle Hlt].
  rewrite (run_loop_step _ t e ctx w Hctx Hle).
  unfold and_then at 1.
  rewrite (evaluate_graph_run e ctx w Hlists Hctx); cycle 1.
  { intros n Hn. pose proof (Hret n Hn) as Hr. simpl. rewrite Hr. discriminate. }
  { simpl. discriminate. }
  simpl push_has_pending_values. cbn iota.
  set (w1 := add_events w (evaluation e ctx)).
  assert (Hflag : _stop_requested e
                  || existsb (fun n => requests_stop (eval_fn n (current_engine_time ctx)))
                       (evaluated_nodes e ctx) = false).
  { rewrite Hstop. simpl. by apply existsb_requests_stop_Returns. }
  rewrite Hflag.
  set (e1 := after_evaluation e ctx false).
  destruct (advance_engine_time_advances e1 ctx w1 eq_refl) as (ctx' & w' & Heq & Hadv).
  apply back_test_advances_time in Hadv as (Htime & _ & Htrace). simpl in Htime.
  unfold and_then at 1. rewrite Heq.
  rewrite (run_loop_exit fuel t (with_context e1 (Some ctx')) ctx' w' eq_refl) by lia.
  exists (with_context e1 (Some ctx')), w'. split; [done|]. split; [by rewrite Htrace|].
  split; [|done]. simpl. by rewrite Htime.
Qed.

(** X20. Once a stop is requested the loop of [run] never ends: on every
    back-test engine that has its three lists (the constructor does not
    make them: they have been assigned since), with a context at a time up
    to the end time, a stop requested and nodes whose [eval] does not
    raise, the loop is still
    running when its fuel is used up, whatever the fuel. The engine time
    is set to the end time, and the test of the loop lets the end time
    pass. *)
Theorem run_loop_after_stop_request e (ctx : BackTestExecutionContext) w :
  has_lists e ->
  _execution_context e = Some ctx ->
  _stop_requested e = true ->
  _current_time ctx <= _end_time e ->
  (forall n t, n ∈ nodes (graph e) -> eval_fn n t <> Raises) ->
  forall fuel, exists e' w',
    run_loop fuel (_end_time e) e w = OutOfFuel e' w'
    /\ _stop_requested e' = true.
Proof.
  intros Hlists Hctx Hstop Hle Hnodes [|fuel].
  { exists e, w. by split. }
  rewrite (run_loop_step fuel _ e ctx w Hctx Hle).
  destruct (inv_returns
              (fun (s : YEngine) _ =>
                 graph s = graph e /\ _end_time s = _end_time e /\ _stop_requested s = true
                 /\ has_lists s /\ exists c, _execution_context s = Some c)
              evaluate_graph e w)
    as ([] & e1 & w1 & Heval & Hg & Ht & Hs & Hl1 & c1 & Hc1).
  { apply inv_evaluate_graph.
    - intros (s & (_ & _ & _ & Hl & _) & Hnot). done.
    - intros s (? & ? & ? & Hl & ?).
      split; [done|]. split; [done|]. split; [done|].
      split; [by apply has_lists_with_before|done].
    - intros s (? & ? & ? & Hl & ?).
      split; [done|]. split; [done|]. split; [done|].
      split; [by apply has_lists_with_after|done].
    - intros s (? & ? & ? & Hl & ?).
      split; [done|]. split; [done|]. split; [done|]. split; [exact Hl|done].
    - intros (s & (_ & _ & _ & _ & c & Hc) & Hnone). congruence.
    - intros s n t (Hg & _) Hn Hr. rewrite Hg in Hn. by apply (Hnodes n t). }
  { split; [done|]. split; [done|]. split; [done|]. split; [done|]. by exists ctx. }
  unfold and_then at 1. rewrite Heval. unfold and_then at 1.
  rewrite (advance_engine_time_stop_requested e1 c1 w1 Hc1 Hs).
  destruct (run_loop_stop_requested e Hnodes fuel
              (with_context e1 (Some (bt_set_current_engine_time (_end_time e1) c1 w1).1))
              (bt_set_current_engine_time (_end_time e1) c1 w1).2)
    as (e' & w' & Hrun & (_ & _ & Hs' & _)).
  { unfold stopped_at_end. simpl.
    split; [done|]. split; [done|]. split; [done|]. split; [exact Hl1|].
    eexists. split; [reflexivity|]. simpl. exact Ht. }
  exists e', w'. by split.
Qed.

End BackTestLoop.

Section ConstructedEngine.
Context `{Constants}.
#[local] Abbreviation ZEngine := (PythonGraphEngine BackTestExecutionContext).
Implicit Types (e : ZEngine) (w : World).

(** X29. [run] on an engine in BACK_TEST mode that has its list of
    observers (assigned since the construction) and is not started, with
    an end time that is not before the start time, when no node's [start]
    raises: [start] returns, having told the observers and started the
    nodes, the first test of the loop succeeds, and [run] goes on with
    [evaluate_graph] and [advance_engine_time], [stop] to follow however
    the loop ends. *)
Theorem run_enters_loop (fuel : nat) (s t : datetime) e w :
  is_Some (_life_cycle_observers e) ->
  s <= t -> _run_mode e = BACK_TEST -> is_started e = false ->
  (forall n, n ∈ nodes (graph e) -> start_fn n <> Raises) ->
  exists e1 w1,
    start (with_times e s t) w = Done tt e1 w1
    /\ trace w1 = trace w ++ start_events e
    /\ (current_engine_time <$> _execution_context e1) = Some s
    /\ run (Datatypes.S fuel) s t e w
       = finally (evaluate_graph ;; advance_engine_time ;; run_loop fuel t) stop e1 w1.
Proof.
  intros Hobs Hle Hm Hs Hact.
  pose proof (start_run (with_times e s t) w Hobs Hs Hm Hact) as Hstart.
  eexists _, _. split; [exact Hstart|]. split; [reflexivity|]. split; [reflexivity|].
  rewrite run_unfold. rewrite bool_decide_eq_false_2 by lia.
  rewrite start_stop_context_unfold, Hstart.
  unfold finally. erewrite run_loop_step; [reflexivity|reflexivity|simpl; lia].
Qed.

(** X30. The engine as the constructor leaves it, whatever the graph and
    the run mode, has none of its three lists. [evaluate_graph] raises an
    AttributeError at once. [stop] does nothing, the engine not being
    started. [start] in BACK_TEST mode marks the engine as started and
    makes the context, then raises an AttributeError before it has told an
    observer or started a node; on the engine it leaves, [stop] marks the
    engine as not started and raises an AttributeError in its turn, the
    context left in place. *)
Theorem new_engine_has_no_lists (g : Graph) (mode : RunMode) w :
  evaluate_graph (new_engine g mode) w = Failed AttributeError (new_engine g mode) w
  /\ stop (new_engine g mode) w = Done tt (new_engine g mode) w
  /\ exists e' w',
       start (new_engine g BACK_TEST) w = Failed AttributeError e' w'
       /\ trace w' = trace w
       /\ is_started e' = true
       /\ is_Some (_execution_context e')
       /\ stop e' w' = Failed AttributeError (with_is_started e' false) w'.
Proof.
  split; [reflexivity|]. split; [reflexivity|].
  eexists _, _. split; [reflexivity|]. split; [reflexivity|]. split; [reflexivity|].
  split; [by eexists|reflexivity].
Qed.

End ConstructedEngine.

(** The inputs at which the facts above are tried. *)

Lemma evaluate_graph_events_witness :
  exists e' w',
    evaluate_graph started_engine world0 = Done tt e' w'
    /\ trace w'
       = [ Observer 5 on_before_evaluation;
           Observer 5 (on_before_node_evaluation 0); NodeCall Eval 0;
           Observer 5 (on_after_node_evaluation 0);
           Observer 5 (on_before_node_evaluation 1); NodeCall Eval 1;
           Observer 5 (on_after_node_evaluation 1);
           Observer 5 on_after_evaluation ]
    /\ _stop_requested e' = false.
Proof.
  destruct (evaluate_graph_events started_engine
              {| _current_time := 0; _wall_clock_time_at_current_time := 0;
                 _proposed_next_engine_time := 20 |} world0)
    as (e' & w' & Heq & Htrace & _ & _ & _ & Hstop & _).
  - by repeat split.
  - reflexivity.
  - intros n Hn. change (n ∈ [quiet 0; quiet 1]) in Hn.
    apply elem_of_cons in Hn as [->|Hn]; [discriminate|].
    apply list_elem_of_singleton in Hn as ->. discriminate.
  - discriminate.
  - exists e', w'. split; [exact Heq|]. split; [exact Htrace|exact Hstop].
Defined.

Lemma evaluate_graph_node_raises_witness :
  exists e',
    evaluate_graph faulty_engine world0
    = Failed UserError e'
        (add_events world0
           [ Observer 5 on_before_evaluation;
             Observer 5 (on_before_node_evaluation 0); NodeCall Eval 0;
             Observer 5 (on_after_node_evaluation 0);
             Observer 5 (on_before_node_evaluation 1); NodeCall Eval 1 ])
    /\ _before_evaluation_notification e' = Some []
    /\ _after_evaluation_notification e' = _after_evaluation_notification faulty_engine.
Proof.
  destruct (evaluate_graph_node_raises faulty_engine
              {| _current_time := 0; _wall_clock_time_at_current_time := 0;
                 _proposed_next_engine_time := 20 |} world0 [quiet 0] [quiet 2] (faulty 1))
    as (e' & Heq & Hbefore & Hafter).
  - done.
  - done.
  - reflexivity.
  - discriminate.
  - reflexivity.
  - intros m Hm. apply list_elem_of_singleton in Hm as ->. discriminate.
  - reflexivity.
  - exists e'. split; [exact Heq|]. split; [exact Hbefore|exact Hafter].
Defined.

Lemma start_events_in_order_witness :
  exists e' w',
    @start sample_constants back_test_engine world0 = Done tt e' w'
    /\ trace w' = [NodeCall Start 0]
    /\ reads w' = 1%nat
    /\ is_started e' = true.
Proof.
  destruct (@start_events_in_order sample_constants back_test_engine world0)
    as (e' & w' & Heq & Htrace & Hreads & Hstarted & _).
  - done.
  - reflexivity.
  - reflexivity.
  - intros n Hn. apply list_elem_of_singleton in Hn as ->. discriminate.
  - exists e', w'. by repeat split.
Defined.

Lemma stop_events_in_order_witness :
  exists e' w',
    stop started_engine world0 = Done tt e' w'
    /\ trace w'
       = [ Observer 5 on_before_stop;
           Observer 5 (on_before_stop_node 0); NodeCall Stop 0;
           Observer 5 (on_before_start_node 0);
           Observer 5 (on_before_stop_node 1); NodeCall Stop 1;
           Observer 5 (on_before_start_node 1);
           Observer 5 on_after_stop ]
    /\ is_started e' = false
    /\ _execution_context e' = None.
Proof.
  destruct (stop_events_in_order started_engine world0)
    as (e' & w' & Heq & Htrace & _ & Hstarted & Hctx & _).
  - done.
  - reflexivity.
  - intros n Hn. apply elem_of_cons in Hn as [->|Hn]; [discriminate|].
    apply list_elem_of_singleton in Hn as ->. discriminate.
  - exists e', w'. by repeat split.
Defined.

Lemma stop_node_raises_witness :
  exists e' w',
    stop faulty_engine world0 = Failed UserError e' w'
    /\ trace w'
       = [ Observer 5 on_before_stop;
           Observer 5 (on_before_stop_node 0); NodeCall Stop 0;
           Observer 5 (on_before_start_node 0);
           Observer 5 (on_before_stop_node 1); NodeCall Stop 1 ]
    /\ is_started e' = false
    /\ _execution_context e' = _execution_context faulty_engine
    /\ stop e' w' = Done tt e' w'.
Proof.
  destruct (stop_node_raises faulty_engine world0 [quiet 0] [quiet 2] (faulty 1))
    as (e' & w' & Heq & Htrace & Hstarted & Hctx & Hagain).
  - done.
  - reflexivity.
  - reflexivity.
  - intros m Hm. apply list_elem_of_singleton in Hm as ->. discriminate.
  - reflexivity.
  - exists e', w'. split; [exact Heq|]. split; [exact Htrace|]. by repeat split.
Defined.

Lemma advance_engine_time_back_test_witness :
  exists ctx' w',
    advance_engine_time started_engine world0
    = Done tt (with_context started_engine (Some ctx')) w'
    /\ _current_time ctx' = 20
    /\ _proposed_next_engine_time ctx' = 20
    /\ trace w' = [].
Proof.
  apply (advance_engine_time_back_test started_engine
           {| _current_time := 0; _wall_clock_time_at_current_time := 0;
              _proposed_next_engine_time := 20 |} world0).
  reflexivity.
Defined.

Lemma run_loop_one_tick_witness :
  exists e' w',
    run_loop 2 10 started_engine world0 = Done tt e' w'
    /\ trace w'
       = [ Observer 5 on_before_evaluation;
           Observer 5 (on_before_node_evaluation 0); NodeCall Eval 0;
           Observer 5 (on_after_node_evaluation 0);
           Observer 5 (on_before_node_evaluation 1); NodeCall Eval 1;
           Observer 5 (on_after_node_evaluation 1);
           Observer 5 on_after_evaluation ]
    /\ (current_engine_time <$> _execution_context e') = Some 20
    /\ _stop_requested e' = false.
Proof.
  destruct (run_loop_one_tick 0 10 started_engine
              {| _current_time := 0; _wall_clock_time_at_current_time := 0;
                 _proposed_next_engine_time := 20 |} world0)
    as (e' & w' & Heq & Htrace & Htime & Hstop).
  - by repeat split.
  - reflexivity.
  - reflexivity.
  - intros n Hn. change (n ∈ [quiet 0; quiet 1]) in Hn.
    apply elem_of_cons in Hn as [->|Hn]; [reflexivity|].
    apply list_elem_of_singleton in Hn as ->. reflexivity.
  - simpl. lia.
  - exists e', w'. split; [exact Heq|]. split; [exact Htrace|]. split; [exact Htime|exact Hstop].
Defined.

Lemma run_enters_loop_witness :
  exists e1 w1,
    @start sample_constants (with_times back_test_engine 0 10) world0 = Done tt e1 w1
    /\ trace w1 = [NodeCall Start 0]
    /\ @run sample_constants 3 0 10 back_test_engine world0
       = finally (evaluate_graph ;; advance_engine_time ;; run_loop 2 10) stop e1 w1.
Proof.
  destruct (@run_enters_loop sample_constants 2 0 10 back_test_engine world0)
    as (e1 & w1 & Hstart & Htrace & _ & Hrun).
  - done.
  - lia.
  - reflexivity.
  - reflexivity.
  - intros n Hn. apply list_elem_of_singleton in Hn as ->. discriminate.
  - exists e1, w1. split; [exact Hstart|]. split; [exact Htrace|exact Hrun].
Defined.

Lemma run_loop_after_stop_request_witness :
  exists e' w',
    run_loop 1000 10 stop_requested_engine world0 = OutOfFuel e' w'
    /\ _stop_requested e' = true.
Proof.
  apply (run_loop_after_stop_request stop_requested_engine
           {| _current_time := 0; _wall_clock_time_at_current_time := 0;
              _proposed_next_engine_time := 20 |} world0).
  - by repeat split.
  - reflexivity.
  - reflexivity.
  - simpl. lia.
  - intros n t Hn. change (n ∈ [quiet 0; quiet 1]) in Hn.
    apply elem_of_cons in Hn as [->|Hn]; [discriminate|].
    apply list_elem_of_singleton in Hn as ->. discriminate.
Defined.

End EngineFacts.

(** ** Topological ranking: facts *)

Module WiringFacts.
Import Wiring.
#[local] Open Scope nat_scope.

(** *** Facts about dictionaries *)

Lemma dict_get_set_eq (k : node) (v : nat) (d : dict) :
  dict_get k (dict_set k v d) = Some v.
Proof.
  induction d as [|[k' v'] rest IH]; simpl.
  - by rewrite decide_True.
  - destruct (decide (k = k')) as [->|Hne]; simpl.
    + by rewrite decide_True.
    + by rewrite decide_False.
Qed.

Lemma dict_get_set_ne (k k' : node) (v : nat) (d : dict) :
  k <> k' -> dict_get k' (dict_set k v d) = dict_get k' d.
Proof.
  intros Hne. induction d as [|[k0 v0] rest IH]; simpl.
  - by rewrite decide_False.
  - destruct (decide (k = k0)) as [->|Hne0]; simpl.
    + by rewrite !decide_False.
    + destruct (decide (k' = k0)); [done|exact IH].
Qed.

Lemma dict_get_is_Some (k : node) (d : dict) :
  is_Some (dict_get k d) <-> k ∈ keys d.
Proof.
  induction d as [|[k' v'] rest IH]; simpl.
  - split; [by intros [? ?]|by intros ?%elem_of_nil].
  - destruct (decide (k = k')) as [->|Hne].
    + split; [intros _; left|by eauto].
    + rewrite IH. split; [by right|].
      intros Hin. apply elem_of_cons in Hin as [?|?]; [done|done].
Qed.

Lemma dict_get_None (k : node) (d : dict) :
  dict_get k d = None <-> k ∉ keys d.
Proof.
  rewrite <- dict_get_is_Some. apply eq_None_not_Some.
Qed.

Lemma keys_dict_set_present (k : node) (v : nat) (d : dict) :
  k ∈ keys d -> keys (dict_set k v d) = keys d.
Proof.
  induction d as [|[k' v'] rest IH]; simpl.
  - by intros ?%elem_of_nil.
  - intros Hin. destruct (decide (k = k')) as [->|Hne]; simpl; [done|].
    f_equal. apply IH. apply elem_of_cons in Hin as [?|?]; done.
Qed.

Lemma keys_dict_set_absent (k : node) (v : nat) (d : dict) :
  k ∉ keys d -> keys (dict_set k v d) = keys d ++ [k].
Proof.
  induction d as [|[k' v'] rest IH]; simpl; [done|].
  intros Hnin. apply not_elem_of_cons in Hnin as [Hne Hnin].
  rewrite decide_False by done. simpl. f_equal. by apply IH.
Qed.

Lemma keys_dict_set_elem (k n : node) (v : nat) (d : dict) :
  n ∈ keys (dict_set k v d) <-> n = k \/ n ∈ keys d.
Proof.
  destruct (decide (k ∈ keys d)) as [Hin|Hnin].
  - rewrite keys_dict_set_present by done. split; [by right|]. by intros [->|?].
  - rewrite keys_dict_set_absent by done. rewrite elem_of_app, list_elem_of_singleton. tauto.
Qed.

Lemma keys_dict_set_NoDup (k : node) (v : nat) (d : dict) :
  NoDup (keys d) -> NoDup (keys (dict_set k v d)).
Proof.
  intros Hnd. destruct (decide (k ∈ keys d)) as [Hin|Hnin].
  - by rewrite keys_dict_set_present.
  - rewrite keys_dict_set_absent by done. apply NoDup_app. split; [done|]. split.
    + intros x Hx ->%list_elem_of_singleton. done.
    + apply NoDup_singleton.
Qed.

Lemma dict_get_elem_of (k : node) (v : nat) (d : dict) :
  NoDup (keys d) -> (k, v) ∈ d -> dict_get k d = Some v.
Proof.
  induction d as [|[k' v'] rest IH]; simpl.
  - by intros _ ?%elem_of_nil.
  - intros Hnd Hin. apply NoDup_cons in Hnd as [Hk Hnd].
    apply elem_of_cons in Hin as [[= -> ->]|Hin].
    + by rewrite decide_True.
    + rewrite decide_False; [by apply IH|].
      intros ->. apply Hk. apply list_elem_of_fmap. by exists (k', v).
Qed.

(** *** Facts about [sorted] *)

Section SortingFacts.
Context (node_lt : node -> node -> bool).

Lemma insert_sorted_Permutation (x : nat * node) (l : list (nat * node)) :
  insert_sorted node_lt x l ≡ₚ x :: l.
Proof.
  induction l as [|y rest IH]; simpl; [done|].
  destruct (tuple_lt node_lt y x); [|done].
  rewrite IH. apply Permutation_swap.
Qed.

Lemma sorted_Permutation (l : list (nat * node)) : sorted node_lt l ≡ₚ l.
Proof.
  induction l as [|x rest IH]; simpl; [done|].
  by rewrite insert_sorted_Permutation, IH.
Qed.

Lemma tuple_lt_true (a b : nat * node) : tuple_lt node_lt a b = true -> rank_le a b.
Proof.
  unfold tuple_lt, rank_le. destruct (decide (a.1 = b.1)); [lia|].
  intros ?%bool_decide_eq_true. lia.
Qed.

Lemma tuple_lt_false (a b : nat * node) : tuple_lt node_lt a b = false -> rank_le b a.
Proof.
  unfold tuple_lt, rank_le. destruct (decide (a.1 = b.1)); [lia|].
  intros ?%bool_decide_eq_false. lia.
Qed.

Lemma insert_sorted_StronglySorted (x : nat * node) (l : list (nat * node)) :
  StronglySorted rank_le l -> StronglySorted rank_le (insert_sorted node_lt x l).
Proof.
  induction l as [|y rest IH]; simpl; intros Hs.
  - by repeat constructor.
  - apply StronglySorted_inv in Hs as [Hrest Hy].
    destruct (tuple_lt node_lt y x) eqn:Hlt.
    + constructor; [by apply IH|].
      rewrite insert_sorted_Permutation. constructor; [by apply tuple_lt_true|done].
    + apply tuple_lt_false in Hlt. constructor; [by constructor|].
      constructor; [done|].
      eapply Forall_impl; [exact Hy|]. unfold rank_le in *. simpl. intros; lia.
Qed.

Lemma sorted_StronglySorted (l : list (nat * node)) :
  StronglySorted rank_le (sorted node_lt l).
Proof.
  induction l as [|x rest IH]; simpl; [constructor|].
  by apply insert_sorted_StronglySorted.
Qed.

End SortingFacts.

(** *** The first loop: what it builds, and that it ends *)

Lemma elem_of_set_add (x y : node) (s : list node) :
  y ∈ set_add x s <-> y = x \/ y ∈ s.
Proof.
  unfold set_add. destruct (decide (x ∈ s)) as [Hin|Hnin].
  - split; [by right|]. by intros [->|?].
  - rewrite elem_of_app, list_elem_of_singleton. tauto.
Qed.

Lemma consumers_add_edge (f t f' t' : node) (m : gmap node (list node)) :
  t' ∈ consumers (add_edge f t m) f' <-> (f' = f /\ t' = t) \/ t' ∈ consumers m f'.
Proof.
  unfold add_edge, consumers at 1. destruct (decide (f = f')) as [->|Hne].
  - rewrite lookup_insert_eq. simpl. rewrite elem_of_set_add. naive_solver.
  - rewrite lookup_insert_ne by done. fold (consumers m f'). naive_solver.
Qed.

Lemma sum_list_with_le {A} (f g : A -> nat) (l : list A) :
  (forall x, x ∈ l -> f x <= g x) -> sum_list_with f l <= sum_list_with g l.
Proof.
  induction l as [|x rest IH]; simpl; intros Hle; [lia|].
  pose proof (Hle x (list_elem_of_here _ _)) as Hx.
  assert (sum_list_with f rest <= sum_list_with g rest).
  { apply IH. intros y Hy. apply Hle. by right. }
  lia.
Qed.

Lemma sum_list_with_filter_le {A} (f : A -> nat) (P : A -> Prop) `{forall x, Decision (P x)}
    (l : list A) :
  sum_list_with f (filter P l) <= sum_list_with f l.
Proof.
  induction l as [|x rest IH]; simpl; [lia|].
  rewrite filter_cons. destruct (decide (P x)); simpl; lia.
Qed.

Section DiscoverFacts.
Context (heap : node -> WiringNodeInstance) (height : node -> nat) (sinks : list node).
(** The wiring graph has no cycle: every input of a node lies lower. *)
Hypothesis acyclic : forall n m, m ∈ ts_nodes heap n -> height m < height n.

#[local] Abbreviation top := (Wiring.top height sinks).
#[local] Abbreviation expandable := (Wiring.expandable heap height sinks).
#[local] Abbreviation discovered := (Wiring.discovered heap height sinks).
#[local] Abbreviation sinks_seen := (Wiring.sinks_seen sinks).
#[local] Abbreviation weight := (Wiring.weight heap).
#[local] Abbreviation cost := (Wiring.cost heap height).

Lemma height_sink_le_top (k : node) : k ∈ sinks -> height k <= top.
Proof.
  unfold Wiring.top. induction sinks as [|x rest IH]; csimpl.
  - by intros ?%elem_of_nil.
  - intros [->|Hin]%elem_of_cons; [lia|]. specialize (IH Hin). lia.
Qed.

Lemma discovered_start : discovered (discovery_start sinks).
Proof.
  split; simpl.
  - constructor.
  - intros n r [=].
  - intros f t. unfold consumers. rewrite lookup_empty. simpl. by intros ?%elem_of_nil.
  - by intros s ?%elem_of_nil.
  - intros q Hq. split; [by left|by apply height_sink_le_top].
Qed.

Lemma visit_input_discovered (to_node from_node : node) (st : Discovery) :
  discovered st ->
  to_node ∈ keys (processed_nodes st) -> expandable to_node ->
  from_node ∈ ts_nodes heap to_node ->
  discovered (visit_input heap to_node st from_node)
  /\ to_node ∈ keys (processed_nodes (visit_input heap to_node st from_node)).
Proof.
  intros [Hnd Hrank Hedge Hsrc Hq] Hto Hexp Hfrom. unfold visit_input.
  destruct (is_source_node (heap from_node)) eqn:Hs; simpl.
  - split; [split; simpl|].
    + by apply keys_dict_set_NoDup.
    + intros n r. destruct (decide (from_node = n)) as [->|Hne].
      * rewrite dict_get_set_eq. by intros [= <-].
      * rewrite dict_get_set_ne by done. apply Hrank.
    + intros f t [(-> & ->)|Hold]%consumers_add_edge.
      * split; [done|]. split; [|done]. apply keys_dict_set_elem. by right.
      * destruct (Hedge f t Hold) as (? & ? & ?). split; [done|]. split; [|done].
        apply keys_dict_set_elem. by right.
    + intros s [->|Hold]%elem_of_set_add.
      * split; [|done]. apply keys_dict_set_elem. by left.
      * destruct (Hsrc s Hold) as [? ?]. split; [|done]. apply keys_dict_set_elem. by right.
    + exact Hq.
    + apply keys_dict_set_elem. by right.
  - split; [split; simpl|]; try done.
    + intros f t [(-> & ->)|Hold]%consumers_add_edge; [done|by apply Hedge].
    + intros q [Hold|Heq%list_elem_of_singleton]%elem_of_app; [by apply Hq|subst q].
      split; [by right|]. destruct Hexp as [_ Hh].
      specialize (acyclic to_node from_node Hfrom). lia.
Qed.

Lemma visit_inputs_discovered (to_node : node) (froms : list node) :
  forall st,
    discovered st ->
    to_node ∈ keys (processed_nodes st) -> expandable to_node ->
    (forall f, f ∈ froms -> f ∈ ts_nodes heap to_node) ->
    discovered (foldl (visit_input heap to_node) st froms).
Proof.
  induction froms as [|f rest IH]; intros st Hst Hto Hexp Hall; simpl; [done|].
  destruct (visit_input_discovered to_node f st Hst Hto Hexp) as [Hst' Hto'].
  { apply Hall. left. }
  apply IH; [done|done|done|]. intros f' Hf'. apply Hall. by right.
Qed.

Lemma visit_inputs_queue (to_node : node) (froms : list node) :
  forall st,
    nodes_to_process (foldl (visit_input heap to_node) st froms)
    = nodes_to_process st
      ++ filter (fun f => is_source_node (heap f) = false) froms.
Proof.
  induction froms as [|f rest IH]; intros st; simpl.
  - by rewrite app_nil_r.
  - rewrite IH. rewrite filter_cons. unfold visit_input.
    case_decide as Hd; destruct (is_source_node (heap f)); try done; simpl.
    by rewrite <- app_assoc.
Qed.

Lemma discover_node_discovered (to_node : node) (st : Discovery) :
  discovered st -> expandable to_node -> discovered (discover_node heap to_node st).
Proof.
  intros Hst Hexp. unfold discover_node.
  destruct (dict_mem to_node (processed_nodes st)); [done|].
  apply visit_inputs_discovered; simpl; [|by apply keys_dict_set_elem; left|done|done].
  destruct Hst as [Hnd Hrank Hedge Hsrc Hq]. split; simpl.
  - by apply keys_dict_set_NoDup.
  - intros n r. destruct (decide (to_node = n)) as [->|Hne].
    + rewrite dict_get_set_eq. by intros [= <-].
    + rewrite dict_get_set_ne by done. apply Hrank.
  - intros f t Ht. destruct (Hedge f t Ht) as (? & ? & ?). split; [done|]. split; [|done].
    apply keys_dict_set_elem. by right.
  - intros s Hs. destruct (Hsrc s Hs) as [? ?]. split; [|done].
    apply keys_dict_set_elem. by right.
  - exact Hq.
Qed.

Lemma visit_inputs_keys (to_node : node) (froms : list node) (n : node) :
  forall st,
    n ∈ keys (processed_nodes st) ->
    n ∈ keys (processed_nodes (foldl (visit_input heap to_node) st froms)).
Proof.
  induction froms as [|f rest IH]; intros st Hn; simpl; [done|].
  apply IH. unfold visit_input. destruct (is_source_node (heap f)); simpl; [|done].
  apply keys_dict_set_elem. by right.
Qed.

Lemma discover_node_keys (to_node : node) (st : Discovery) (n : node) :
  n = to_node \/ n ∈ keys (processed_nodes st) ->
  n ∈ keys (processed_nodes (discover_node heap to_node st)).
Proof.
  intros Hn. unfold discover_node.
  destruct (dict_mem to_node (processed_nodes st)) eqn:Hmem.
  - destruct Hn as [->|Hn]; [|done].
    apply bool_decide_eq_true in Hmem. by apply dict_get_is_Some.
  - apply visit_inputs_keys. simpl. apply keys_dict_set_elem. tauto.
Qed.

Lemma discover_node_queue (to_node : node) (st : Discovery) (n : node) :
  n ∈ nodes_to_process st -> n ∈ nodes_to_process (discover_node heap to_node st).
Proof.
  intros Hn. unfold discover_node. destruct (dict_mem to_node (processed_nodes st)); [done|].
  rewrite visit_inputs_queue. simpl. apply elem_of_app. by left.
Qed.

Lemma weight_mono (h h' : nat) (n : node) : h <= h' -> weight h n <= weight h' n.
Proof.
  revert h' n. induction h as [|h IH]; intros h' n Hle.
  - destruct h'; simpl; lia.
  - destruct h' as [|h']; [lia|]. simpl.
    apply le_n_S, sum_list_with_le. intros m _. apply IH. lia.
Qed.

Lemma cost_inputs (n : node) : sum_list_with cost (ts_nodes heap n) < cost n.
Proof.
  unfold Wiring.cost at 2. destruct (height n) as [|h] eqn:Hh.
  - destruct (ts_nodes heap n) as [|m rest] eqn:Hts; simpl; [lia|].
    specialize (acyclic n m). rewrite Hts in acyclic.
    specialize (acyclic (list_elem_of_here _ _)). lia.
  - simpl. apply Nat.lt_succ_r, sum_list_with_le. intros m Hm.
    unfold Wiring.cost. apply weight_mono. specialize (acyclic n m Hm). lia.
Qed.

Lemma cost_pos (n : node) : 0 < cost n.
Proof. unfold Wiring.cost. destruct (height n); simpl; lia. Qed.

Lemma discover_node_queue_cost (to_node : node) (st : Discovery) :
  sum_list_with cost (nodes_to_process (discover_node heap to_node st))
  < sum_list_with cost (nodes_to_process st) + cost to_node.
Proof.
  unfold discover_node. destruct (dict_mem to_node (processed_nodes st)).
  - pose proof (cost_pos to_node). lia.
  - rewrite visit_inputs_queue. simpl. rewrite sum_list_with_app.
    pose proof (cost_inputs to_node).
    pose proof (sum_list_with_filter_le cost
                  (fun f => is_source_node (heap f) = false) (ts_nodes heap to_node)).
    lia.
Qed.

Lemma discover_terminates (fuel : nat) :
  forall st,
    discovered st -> sinks_seen st ->
    sum_list_with cost (nodes_to_process st) < fuel ->
    exists st', discover heap fuel st = Some st'
                /\ discovered st' /\ sinks_seen st' /\ nodes_to_process st' = [].
Proof.
  induction fuel as [|fuel IH]; intros st Hst Hseen Hfuel; [lia|].
  destruct (nodes_to_process st) as [|to_node rest] eqn:Hq.
  - exists st. simpl. rewrite Hq. done.
  - simpl. rewrite Hq.
    set (st1 := {| nodes_to_process := rest; processed_nodes := processed_nodes st;
                   mapping := mapping st; source_nodes := source_nodes st |}).
    assert (Hst1 : discovered st1).
    { destruct Hst as [Hnd Hrank Hedge Hsrc Hqs]. split; simpl; try done.
      intros q Hin. apply Hqs. rewrite Hq. by right. }
    assert (Hexp : expandable to_node).
    { apply (disc_queue _ _ _ _ Hst). rewrite Hq. left. }
    apply IH.
    + by apply discover_node_discovered.
    + intros k Hk. destruct (Hseen k Hk) as [Hin|Hin].
      * rewrite Hq in Hin. apply elem_of_cons in Hin as [->|Hin].
        -- right. apply discover_node_keys. by left.
        -- left. by apply discover_node_queue.
      * right. apply discover_node_keys. by right.
    + pose proof (discover_node_queue_cost to_node st1) as Hcost.
      simpl in Hcost. simpl in Hfuel. lia.
Qed.

Lemma sinks_seen_start : sinks_seen (discovery_start sinks).
Proof. intros k Hk. by left. Qed.

End DiscoverFacts.

Lemma discover_more_fuel (heap : node -> WiringNodeInstance) (fuel fuel' : nat) :
  forall st st',
    discover heap fuel st = Some st' -> fuel <= fuel' -> discover heap fuel' st = Some st'.
Proof.
  revert fuel'. induction fuel as [|fuel IH]; intros fuel' st st' Hd Hle.
  - destruct fuel'; simpl in *; destruct (nodes_to_process st); done.
  - destruct fuel' as [|fuel']; [lia|]. simpl in *.
    destruct (nodes_to_process st); [done|]. apply IH; [done|lia].
Qed.

(** *** The second loop: the fixed point it reaches, and that it ends *)

Lemma rank_consumers_spec (g : node) (ts : list node) :
  forall rk,
    g ∈ keys (ranks rk) -> g ∉ ts -> (forall t, t ∈ ts -> t ∈ keys (ranks rk)) ->
    exists rk',
      rank_consumers g rk ts = Ok rk'
      /\ worklist rk' = reverse ts ++ worklist rk
      /\ keys (ranks rk') = keys (ranks rk)
      /\ max_rank rk <= max_rank rk'
      /\ (forall n, n ∉ ts -> dict_get n (ranks rk') = dict_get n (ranks rk))
      /\ (forall n r, dict_get n (ranks rk) = Some r ->
            exists r', dict_get n (ranks rk') = Some r' /\ r <= r')
      /\ (forall t, t ∈ ts ->
            exists rg rt, dict_get g (ranks rk) = Some rg
                          /\ dict_get t (ranks rk') = Some rt
                          /\ rg + 1 <= rt /\ rg + 1 <= max_rank rk')
      /\ ((forall n r, dict_get n (ranks rk) = Some r -> r <= Nat.max 1 (max_rank rk)) ->
          (forall n r, dict_get n (ranks rk') = Some r -> r <= Nat.max 1 (max_rank rk'))).
Proof.
  induction ts as [|t rest IH]; intros rk Hg Hnot Hts.
  - exists rk. simpl. repeat split; auto.
    + intros n r Hn. eauto.
    + by intros t ?%elem_of_nil.
  - apply not_elem_of_cons in Hnot as [Hgt Hnot].
    assert (Ht : t ∈ keys (ranks rk)) by (apply Hts; left).
    apply dict_get_is_Some in Ht as [r_to Hr_to].
    apply dict_get_is_Some in Hg as Hg'. destruct Hg' as [r_from Hr_from].
    set (r := Nat.max r_to (r_from + 1)).
    set (rk1 := {| worklist := t :: worklist rk; ranks := dict_set t r (ranks rk);
                   max_rank := Nat.max (max_rank rk) r |}).
    assert (Hstep : rank_consumer g rk t = Ok rk1).
    { unfold rank_consumer, dict_getitem. by rewrite Hr_to, Hr_from. }
    simpl. rewrite Hstep. simpl.
    assert (Hkeys1 : keys (ranks rk1) = keys (ranks rk)).
    { simpl. apply keys_dict_set_present. apply dict_get_is_Some. by eexists. }
    destruct (IH rk1) as (rk' & Hrun & Hwork & Hkeys & Hmax & Hsame & Hmono & Hnew & Hbound).
    { by rewrite Hkeys1. }
    { done. }
    { intros t' Ht'. rewrite Hkeys1. apply Hts. by right. }
    exists rk'. split; [exact Hrun|]. split.
    { rewrite Hwork. simpl. rewrite reverse_cons, <- app_assoc. done. }
    split; [congruence|]. split; [simpl in Hmax; lia|]. split.
    { intros n Hn. apply not_elem_of_cons in Hn as [Hne Hn].
      rewrite (Hsame n Hn). simpl. by apply dict_get_set_ne. }
    split.
    { intros n r0 Hn. destruct (decide (t = n)) as [->|Hne].
      - destruct (Hmono n r) as (r' & Hr' & Hle); [simpl; apply dict_get_set_eq|].
        exists r'. split; [done|]. rewrite Hr_to in Hn. injection Hn as <-.
        unfold r in *. lia.
      - apply Hmono. simpl. by rewrite dict_get_set_ne. }
    split.
    { intros t' [->|Ht']%elem_of_cons.
      - destruct (Hmono t r) as (r' & Hr' & Hle); [simpl; apply dict_get_set_eq|].
        exists r_from, r'. simpl in Hmax. unfold r in *.
        split; [done|]. split; [done|]. split; lia.
      - destruct (Hnew t' Ht') as (rg & rt & Hrg & Hrt & Hle1 & Hle2).
        exists rg, rt. simpl in Hrg. rewrite dict_get_set_ne in Hrg by done.
        split; [exact Hrg|]. split; [exact Hrt|]. split; assumption. }
    intros Hb. apply Hbound. intros n r0. simpl.
    destruct (decide (t = n)) as [->|Hne].
    + rewrite dict_get_set_eq. intros [= <-]. unfold r in *. lia.
    + rewrite dict_get_set_ne by done. intros Hn. specialize (Hb n r0 Hn). lia.
Qed.

Section RankFacts.
Context (heap : node -> WiringNodeInstance) (height : node -> nat) (sinks : list node).
Hypothesis acyclic : forall n m, m ∈ ts_nodes heap n -> height m < height n.
(** The outcome of the first loop. *)
Context (st : Discovery).
Hypothesis found : discovered heap height sinks st.

#[local] Abbreviation settled := (Wiring.settled heap st).
#[local] Abbreviation ranked := (Wiring.ranked heap st).
#[local] Abbreviation after_reset := (Wiring.after_reset heap).
#[local] Abbreviation up_weight := (Wiring.up_weight st).
#[local] Abbreviation up_cost := (Wiring.up_cost height sinks st).

Lemma consumer_higher (f t : node) :
  t ∈ consumers (mapping st) f -> height f < height t /\ height t <= top height sinks.
Proof.
  intros Ht. destruct (disc_edge _ _ _ _ found f t Ht) as (Hin & _ & _ & Htop).
  split; [by apply acyclic|done].
Qed.

Lemma consumer_processed (f t : node) :
  t ∈ consumers (mapping st) f -> t ∈ keys (processed_nodes st).
Proof. intros Ht. by destruct (disc_edge _ _ _ _ found f t Ht) as (_ & ? & _). Qed.

Lemma source_processed (s : node) :
  s ∈ source_nodes st -> s ∈ keys (processed_nodes st).
Proof. intros Hs. by destruct (disc_source _ _ _ _ found s Hs) as [? _]. Qed.

Lemma not_own_consumer (g : node) : g ∉ consumers (mapping st) g.
Proof. intros Hg. apply consumer_higher in Hg. lia. Qed.

Lemma ranked_start : ranked (ranking_start st).
Proof.
  split; simpl.
  - done.
  - intros q Hq. rewrite elem_of_reverse in Hq. by apply source_processed.
  - intros f (s & Hs & Hp). right. exists s. split; [by rewrite elem_of_reverse|done].
  - intros n r Hn. rewrite (disc_rank _ _ _ _ found n r Hn). lia.
  - intros n Hn _ _. left. by rewrite elem_of_reverse.
  - done.
Qed.

Lemma after_reset_get_eq (g : node) (rest : list node) (rk : Ranking) :
  dict_get g (ranks (after_reset g rest rk))
  = if is_push heap g then Some 0 else dict_get g (ranks rk).
Proof.
  unfold Wiring.after_reset. destruct (is_push heap g); simpl; [apply dict_get_set_eq|done].
Qed.

Lemma after_reset_get_ne (g : node) (rest : list node) (rk : Ranking) (n : node) :
  n <> g -> dict_get n (ranks (after_reset g rest rk)) = dict_get n (ranks rk).
Proof.
  intros Hne. unfold Wiring.after_reset. destruct (is_push heap g); simpl; [|done].
  by apply dict_get_set_ne.
Qed.

Lemma after_reset_le (g : node) (rest : list node) (rk : Ranking) (n r : nat) :
  dict_get n (ranks rk) = Some r ->
  exists r', dict_get n (ranks (after_reset g rest rk)) = Some r' /\ r' <= r.
Proof.
  intros Hn. destruct (decide (n = g)) as [->|Hne].
  - rewrite after_reset_get_eq.
    destruct (is_push heap g); [exists 0|exists r]; (split; [done|lia]).
  - rewrite after_reset_get_ne by done. exists r. split; [done|lia].
Qed.

Lemma rank_node_ranked (g : node) (rest : list node) (rk : Ranking) :
  ranked rk -> worklist rk = g :: rest ->
  exists rk',
    rank_node heap true (mapping st) g
      {| worklist := rest; ranks := ranks rk; max_rank := max_rank rk |} = Ok rk'
    /\ ranked rk'
    /\ worklist rk' = reverse (consumers (mapping st) g) ++ rest.
Proof.
  intros [Hkeys Hwork Hsettled Hbound Hpush Hkeep] Hwl.
  assert (Hg : g ∈ keys (ranks rk)).
  { rewrite Hkeys. apply Hwork. rewrite Hwl. left. }
  set (rkA := after_reset g rest rk).
  assert (HkeysA : keys (ranks rkA) = keys (ranks rk)).
  { unfold rkA, Wiring.after_reset. destruct (is_push heap g); simpl; [|done].
    by apply keys_dict_set_present. }
  assert (HmaxA : max_rank rkA = max_rank rk).
  { unfold rkA, Wiring.after_reset. by destruct (is_push heap g). }
  assert (HworkA : worklist rkA = rest).
  { unfold rkA, Wiring.after_reset. by destruct (is_push heap g). }
  destruct (rank_consumers_spec g (consumers (mapping st) g) rkA)
    as (rk' & Hrun & Hwork' & Hkeys' & Hmax' & Hsame & Hmono & Hnew & Hbound').
  { by rewrite HkeysA. }
  { apply not_own_consumer. }
  { intros t Ht. rewrite HkeysA, Hkeys. by apply (consumer_processed g t). }
  exists rk'. split.
  { unfold rank_node. simpl. fold (is_push heap g).
    replace (if is_push heap g then _ else _) with rkA; [exact Hrun|].
    unfold rkA, Wiring.after_reset. by destruct (is_push heap g). }
  split; [|by rewrite Hwork', HworkA].
  assert (Hsettled_g : settled rk' g).
  { intros t Ht. destruct (Hnew t Ht) as (rg & rt & Hrg & Hrt & Hle1 & Hle2).
    exists rg, rt. split; [|done].
    rewrite Hsame; [done|apply not_own_consumer]. }
  split.
  - congruence.
  - intros q. rewrite Hwork', HworkA, elem_of_app, elem_of_reverse. intros [Hq|Hq].
    + by apply (consumer_processed g q).
    + apply Hwork. rewrite Hwl. by right.
  - intros f Hf. rewrite Hwork', HworkA.
    destruct (Hsettled f Hf) as [Hset|(g' & Hg' & Hpath)].
    + destruct (decide (f ∈ consumers (mapping st) g)) as [Hin|Hnin].
      * right. exists f. split; [|constructor].
        rewrite elem_of_app, elem_of_reverse. by left.
      * left. intros t Ht. destruct (Hset t Ht) as (rf & rt & Hrf & Hrt & Hle1 & Hle2).
        destruct (after_reset_le g rest rk f rf Hrf) as (rf' & Hrf' & Hlef).
        destruct (after_reset_le g rest rk t rt Hrt) as (rtA & HrtA & _).
        destruct (Hmono t rtA HrtA) as (rt' & Hrt' & _).
        exists rf', rt'. split; [by rewrite Hsame|]. split; [done|].
        split; [lia|]. intros Hnp.
        assert (HrtA' : dict_get t (ranks rkA) = Some rt).
        { unfold rkA. destruct (decide (t = g)) as [Heq|Hne]; [subst t|].
          - rewrite after_reset_get_eq. unfold is_push in Hnp |- *. by rewrite Hnp.
          - by rewrite after_reset_get_ne. }
        destruct (Hmono t rt HrtA') as (rt'' & Hrt'' & Hle'').
        rewrite Hrt' in Hrt''. injection Hrt'' as <-. specialize (Hle2 Hnp). lia.
    + clearbody rkA. rewrite Hwl in Hg'. apply elem_of_cons in Hg' as [->|Hg'].
      * inversion Hpath as [|? t ? Ht Hpath']; subst.
        -- by left.
        -- right. exists t. split; [|done].
           rewrite elem_of_app, elem_of_reverse. by left.
      * right. exists g'. split; [|done]. apply elem_of_app. by right.
  - apply Hbound'. intros n r. rewrite HmaxA. unfold rkA.
    destruct (decide (n = g)) as [->|Hne].
    + rewrite after_reset_get_eq.
      destruct (is_push heap g); [intros [= <-]; lia|apply Hbound].
    + rewrite after_reset_get_ne by done. apply Hbound.
  - intros n Hn Hnever Hp. rewrite Hwork', HworkA.
    rewrite Hsame by apply Hnever. unfold rkA.
    destruct (decide (n = g)) as [->|Hne].
    + right. rewrite after_reset_get_eq. by rewrite Hp.
    + rewrite after_reset_get_ne by done.
      destruct (Hpush n Hn Hnever Hp) as [Hin|Hzero]; [|by right].
      left. rewrite Hwl in Hin. apply elem_of_cons in Hin as [?|Hin]; [done|].
      apply elem_of_app. by right.
  - intros n Hnever Hp. rewrite Hsame by apply Hnever. unfold rkA.
    destruct (decide (n = g)) as [->|Hne].
    + rewrite after_reset_get_eq, Hp. by apply Hkeep.
    + rewrite after_reset_get_ne by done. by apply Hkeep.
Qed.

Lemma up_weight_mono (k k' : nat) (n : node) : k <= k' -> up_weight k n <= up_weight k' n.
Proof.
  revert k' n. induction k as [|k IH]; intros k' n Hle.
  - destruct k'; simpl; lia.
  - destruct k' as [|k']; [lia|]. simpl.
    apply le_n_S, sum_list_with_le. intros m _. apply IH. lia.
Qed.

Lemma up_cost_consumers (g : node) :
  sum_list_with up_cost (consumers (mapping st) g) < up_cost g.
Proof.
  unfold Wiring.up_cost at 2. destruct (top height sinks - height g) as [|k] eqn:Hk.
  - destruct (consumers (mapping st) g) as [|t rest] eqn:Hts; simpl; [lia|].
    assert (Ht : t ∈ consumers (mapping st) g) by (rewrite Hts; left).
    apply consumer_higher in Ht. lia.
  - simpl. apply Nat.lt_succ_r, sum_list_with_le. intros t Ht.
    unfold Wiring.up_cost. apply up_weight_mono. apply consumer_higher in Ht. lia.
Qed.

Lemma rank_nodes_terminates (fuel : nat) :
  forall rk,
    ranked rk ->
    sum_list_with up_cost (worklist rk) < fuel ->
    exists rk', rank_nodes heap fuel true (mapping st) rk = Some (Ok rk')
                /\ ranked rk' /\ worklist rk' = [].
Proof.
  induction fuel as [|fuel IH]; intros rk Hrk Hfuel; [lia|].
  destruct (worklist rk) as [|g rest] eqn:Hwl.
  - exists rk. simpl. rewrite Hwl. done.
  - simpl. rewrite Hwl.
    destruct (rank_node_ranked g rest rk Hrk Hwl) as (rk1 & Hstep & Hrk1 & Hwl1).
    rewrite Hstep. apply IH; [done|].
    rewrite Hwl1, sum_list_with_app, sum_list_with_reverse.
    pose proof (up_cost_consumers g). simpl in Hfuel. lia.
Qed.

End RankFacts.

Lemma rank_nodes_more_fuel (heap : node -> WiringNodeInstance) (b : bool)
    (m : gmap node (list node)) (fuel fuel' : nat) :
  forall rk r,
    rank_nodes heap fuel b m rk = Some r -> fuel <= fuel' ->
    rank_nodes heap fuel' b m rk = Some r.
Proof.
  revert fuel'. induction fuel as [|fuel IH]; intros fuel' rk r Hr Hle.
  - destruct fuel'; simpl in *; destruct (worklist rk); done.
  - destruct fuel' as [|fuel']; [lia|]. simpl in *.
    destruct (worklist rk); [done|].
    destruct (rank_node heap b m n _); [|done]. apply IH; [done|lia].
Qed.

(** *** The ranks of the sinks, and the emitted order *)

Lemma rank_sinks_fold_get_other (mr : nat) (nodes : list node) (n : node) :
  forall d, n ∉ nodes ->
    dict_get n (foldl (fun d k => dict_set k mr d) d nodes) = dict_get n d.
Proof.
  induction nodes as [|k rest IH]; intros d Hn; simpl; [done|].
  apply not_elem_of_cons in Hn as [Hne Hn].
  rewrite IH by done. by apply dict_get_set_ne.
Qed.

Lemma rank_sinks_fold_get_sink (mr : nat) (nodes : list node) (n : node) :
  forall d, n ∈ nodes ->
    dict_get n (foldl (fun d k => dict_set k mr d) d nodes) = Some mr.
Proof.
  induction nodes as [|k rest IH]; intros d Hn; simpl.
  - by apply elem_of_nil in Hn.
  - destruct (decide (n ∈ rest)) as [Hin|Hnin]; [by apply IH|].
    apply elem_of_cons in Hn as [->|Hn]; [|done].
    rewrite rank_sinks_fold_get_other by done. apply dict_get_set_eq.
Qed.

Lemma rank_sinks_fold_keys (mr : nat) (nodes : list node) :
  forall d, (forall k, k ∈ nodes -> k ∈ keys d) ->
    keys (foldl (fun d k => dict_set k mr d) d nodes) = keys d.
Proof.
  induction nodes as [|k rest IH]; intros d Hin; simpl; [done|].
  assert (Hk : keys (dict_set k mr d) = keys d).
  { apply keys_dict_set_present. apply Hin. left. }
  rewrite IH; [done|]. intros k' Hk'. rewrite Hk. apply Hin. by right.
Qed.

Lemma StronglySorted_filter {A} (R : A -> A -> Prop) (P : A -> Prop)
    `{forall x, Decision (P x)} (l : list A) :
  StronglySorted R l -> StronglySorted R (filter P l).
Proof.
  induction l as [|x rest IH]; intros Hs; [constructor|].
  apply StronglySorted_inv in Hs as [Hrest Hx].
  rewrite filter_cons. destruct (decide (P x)); [|by apply IH].
  constructor; [by apply IH|].
  rewrite Forall_forall in Hx |- *. intros y [_ Hy]%list_elem_of_filter. by apply Hx.
Qed.

Lemma StronglySorted_nodes (table : dict) (l : list (nat * node)) :
  Forall (fun x => dict_get x.2 table = Some x.1) l ->
  StronglySorted rank_le l ->
  StronglySorted (fun a b => rank_in table a <= rank_in table b) (map snd l).
Proof.
  induction l as [|x rest IH]; intros Hl Hs; simpl; [constructor|].
  apply Forall_cons in Hl as [Hx Hl].
  apply StronglySorted_inv in Hs as [Hrest Hfirst].
  constructor; [by apply IH|].
  apply Forall_fmap. apply Forall_forall. intros y Hy. simpl.
  rewrite Forall_forall in Hl, Hfirst.
  unfold rank_in. rewrite Hx, (Hl y Hy). simpl. by apply Hfirst.
Qed.

Section EmitFacts.
Context (heap : node -> WiringNodeInstance) (node_lt : node -> node -> bool).

Lemma emit_nodes_Permutation (table : dict) :
  emit_nodes heap node_lt table
  ≡ₚ filter (fun n => is_stub (heap n) = false) (keys table).
Proof.
  unfold emit_nodes. rewrite sorted_Permutation.
  unfold keys. rewrite <- list_fmap_compose.
  erewrite (list_fmap_ext _ fst); [done|]. by intros ? [? ?].
Qed.

Lemma emit_nodes_sorted (table : dict) :
  NoDup (keys table) ->
  StronglySorted (fun a b => rank_in table a <= rank_in table b)
    (emit_nodes heap node_lt table).
Proof.
  intros Hnd. unfold emit_nodes. apply StronglySorted_filter.
  apply StronglySorted_nodes; [|apply sorted_StronglySorted].
  rewrite sorted_Permutation. apply Forall_fmap, Forall_forall.
  intros [k v] Hkv. simpl. by apply dict_get_elem_of.
Qed.

End EmitFacts.

Lemma rank_consumer_Some (g t : node) (rk rk' : Ranking) :
  rank_consumer g rk t = Ok rk' ->
  exists r_to r_from,
    dict_get t (ranks rk) = Some r_to /\ dict_get g (ranks rk) = Some r_from
    /\ rk' = {| worklist := t :: worklist rk;
                ranks := dict_set t (Nat.max r_to (r_from + 1)) (ranks rk);
                max_rank := Nat.max (max_rank rk) (Nat.max r_to (r_from + 1)) |}.
Proof.
  unfold rank_consumer, dict_getitem.
  destruct (dict_get t (ranks rk)) as [r_to|]; simpl; [|done].
  destruct (dict_get g (ranks rk)) as [r_from|]; simpl; [|done].
  intros [= <-]. by exists r_to, r_from.
Qed.

(** *** The largest rank, and the order among equal ranks *)

Lemma rank_nodes_invariant (heap : node -> WiringNodeInstance) (b : bool)
    (m : gmap node (list node)) (J : dict -> nat -> Prop) :
  (forall g rk rk',
     J (ranks rk) (max_rank rk) -> rank_node heap b m g rk = Ok rk' ->
     J (ranks rk') (max_rank rk')) ->
  forall fuel rk rk',
    rank_nodes heap fuel b m rk = Some (Ok rk') ->
    J (ranks rk) (max_rank rk) -> J (ranks rk') (max_rank rk').
Proof.
  intros Hstep. induction fuel as [|fuel IH]; intros rk rk'; simpl.
  - destruct (worklist rk); [|done]. by intros [= <-].
  - destruct (worklist rk) as [|g rest]; [by intros [= <-]|].
    destruct (rank_node heap b m g _) as [rk1|] eqn:Hnode; [|done].
    intros Hrest HJ. apply (IH _ _ Hrest).
    exact (Hstep g {| worklist := rest; ranks := ranks rk; max_rank := max_rank rk |}
             rk1 HJ Hnode).
Qed.

Section LargestRank.
Context (heap : node -> WiringNodeInstance) (m : gmap node (list node)).
#[local] Abbreviation assigned := (Wiring.max_rank_assigned heap m).

Lemma rank_consumers_assigned (g : node) (ts : list node) :
  forall rk rk',
    (forall t, t ∈ ts -> t ∈ consumers m g) ->
    rank_consumers g rk ts = Ok rk' ->
    assigned (ranks rk) (max_rank rk) -> assigned (ranks rk') (max_rank rk').
Proof.
  induction ts as [|t rest IH]; intros rk rk' Hts; simpl; [by intros [= <-]|].
  destruct (rank_consumer g rk t) as [rk1|] eqn:Hstep; simpl; [|done].
  intros Hrest Htop.
  apply (IH _ _ (fun t' Ht' => Hts t' (list_elem_of_further _ _ _ Ht'))) in Hrest; [done|].
  apply rank_consumer_Some in Hstep as (r_to & r_from & Hto & Hfrom & ->). simpl.
  right. destruct (decide (max_rank rk <= Nat.max r_to (r_from + 1))) as [Hle|Hgt].
  - exists t, g. split; [apply Hts; left|]. right.
    exists (Nat.max r_to (r_from + 1)). split; [apply dict_get_set_eq|lia].
  - destruct Htop as [Hzero|(t0 & f0 & Hc & [Hp|(r0 & Hr0 & Hle0)])]; [lia|..].
    + exists t0, f0. split; [done|by left].
    + exists t0, f0. split; [done|]. right.
      destruct (decide (t = t0)) as [->|Hne].
      * rewrite Hto in Hr0. injection Hr0 as <-. lia.
      * exists r0. split; [by rewrite dict_get_set_ne|lia].
Qed.

Lemma rank_node_assigned (b : bool) (g : node) (rk rk' : Ranking) :
  assigned (ranks rk) (max_rank rk) -> rank_node heap b m g rk = Ok rk' ->
  assigned (ranks rk') (max_rank rk').
Proof.
  unfold rank_node. intros Htop.
  destruct (negb b && node_type_is_NodeTypeEnum_PUSH_SOURCE_NODE (heap g)); [done|].
  intros Hrun. apply (rank_consumers_assigned _ _ _ _ (fun t Ht => Ht)) in Hrun; [done|].
  fold (is_push heap g). destruct (is_push heap g) eqn:Hp; [|done]. simpl.
  destruct Htop as [Hzero|(t0 & f0 & Hc & [Hp0|(r0 & Hr0 & Hle0)])]; [by left|..].
  - right. exists t0, f0. split; [done|by left].
  - right. exists t0, f0. split; [done|].
    destruct (decide (g = t0)) as [->|Hne]; [by left|].
    right. exists r0. split; [by rewrite dict_get_set_ne|done].
Qed.

End LargestRank.

Section TupleOrder.
Context (node_lt : node -> node -> bool).
Hypothesis order : strict_total_order node_lt.
#[local] Abbreviation le := (tuple_le node_lt).

Lemma tuple_lt_true_le (a b : nat * node) : tuple_lt node_lt a b = true -> le a b.
Proof.
  unfold tuple_lt, tuple_le. destruct (decide (a.1 = b.1)) as [Heq|Hne].
  - destruct (decide (a.2 = b.2)); [done|]. intros Hlt. right. split; [done|by right].
  - intros ?%bool_decide_eq_true. by left.
Qed.

Lemma tuple_lt_false_le (a b : nat * node) : tuple_lt node_lt a b = false -> le b a.
Proof.
  unfold tuple_lt, tuple_le. destruct (decide (a.1 = b.1)) as [Heq|Hne].
  - destruct (decide (a.2 = b.2)) as [Hsame|Hdiff].
    + intros _. right. split; [done|by left].
    + intros Hlt. right. split; [done|]. right.
      destruct (lt_total _ order a.2 b.2 Hdiff) as [Hab|Hba]; [congruence|done].
  - intros ?%bool_decide_eq_false. left. lia.
Qed.

Lemma tuple_le_trans (a b c : nat * node) : le a b -> le b c -> le a c.
Proof.
  unfold tuple_le. intros [Hab|[Hab Hn]] [Hbc|[Hbc Hn']]; [left; lia|left; lia|left; lia|].
  right. split; [lia|].
  destruct Hn as [->|Hn]; [done|]. destruct Hn' as [<-|Hn']; [by right|].
  right. by apply (lt_transitive _ order _ b.2).
Qed.

Lemma insert_sorted_tuple_le (x : nat * node) (l : list (nat * node)) :
  StronglySorted le l -> StronglySorted le (insert_sorted node_lt x l).
Proof.
  induction l as [|y rest IH]; simpl; intros Hs.
  - by repeat constructor.
  - apply StronglySorted_inv in Hs as [Hrest Hy].
    destruct (tuple_lt node_lt y x) eqn:Hlt.
    + constructor; [by apply IH|].
      rewrite insert_sorted_Permutation. constructor; [by apply tuple_lt_true_le|done].
    + apply tuple_lt_false_le in Hlt. constructor; [by constructor|].
      constructor; [done|].
      eapply Forall_impl; [exact Hy|]. intros z Hz. by apply (tuple_le_trans x y z).
Qed.

Lemma sorted_tuple_le (l : list (nat * node)) : StronglySorted le (sorted node_lt l).
Proof.
  induction l as [|x rest IH]; simpl; [constructor|].
  by apply insert_sorted_tuple_le.
Qed.

Lemma StronglySorted_nodes_tuple (table : dict) (l : list (nat * node)) :
  Forall (fun x => dict_get x.2 table = Some x.1) l ->
  StronglySorted le l ->
  StronglySorted (fun a b => a = b \/ tuple_order node_lt table a b) (map snd l).
Proof.
  induction l as [|x rest IH]; intros Hl Hs; simpl; [constructor|].
  apply Forall_cons in Hl as [Hx Hl].
  apply StronglySorted_inv in Hs as [Hrest Hfirst].
  constructor; [by apply IH|].
  apply Forall_fmap. apply Forall_forall. intros y Hy. simpl.
  rewrite Forall_forall in Hl, Hfirst.
  unfold tuple_order, rank_in. rewrite Hx, (Hl y Hy). simpl.
  destruct (Hfirst y Hy) as [Hlt|[Heq [Hsame|Hlt]]]; [right; by left|by left|].
  right. right. by split.
Qed.

Lemma StronglySorted_strict {A} (R : A -> A -> Prop) (l : list A) :
  NoDup l -> StronglySorted (fun a b => a = b \/ R a b) l -> StronglySorted R l.
Proof.
  induction l as [|x rest IH]; intros Hnd Hs; [constructor|].
  apply NoDup_cons in Hnd as [Hx Hnd].
  apply StronglySorted_inv in Hs as [Hrest Hfirst].
  constructor; [by apply IH|].
  rewrite Forall_forall in Hfirst |- *. intros y Hy.
  destruct (Hfirst y Hy) as [->|HR]; [done|exact HR].
Qed.

(** The emitted nodes stand in the order of their (rank, node) tuples. *)
Lemma emit_nodes_tuple_order (heap : node -> WiringNodeInstance) (table : dict) :
  NoDup (keys table) ->
  StronglySorted (tuple_order node_lt table) (emit_nodes heap node_lt table).
Proof.
  intros Hnd. apply StronglySorted_strict.
  { rewrite emit_nodes_Permutation. by apply NoDup_filter. }
  unfold emit_nodes. apply StronglySorted_filter.
  apply StronglySorted_nodes_tuple; [|apply sorted_tuple_le].
  rewrite sorted_Permutation. apply Forall_fmap, Forall_forall.
  intros [k v] Hkv. simpl. by apply dict_get_elem_of.
Qed.

End TupleOrder.

(** *** What [toposort] computes *)

Section ToposortFacts.
Context (heap : node -> WiringNodeInstance) (node_lt : node -> node -> bool).
Context (height : node -> nat) (sinks : list node).
Hypothesis acyclic : forall n m, m ∈ ts_nodes heap n -> height m < height n.

Lemma toposort_loops_end :
  exists fuel st rk,
    discover heap fuel (discovery_start sinks) = Some st
    /\ discovered heap height sinks st
    /\ (forall k, k ∈ sinks -> k ∈ keys (processed_nodes st))
    /\ rank_nodes heap fuel true (mapping st) (ranking_start st) = Some (Ok rk)
    /\ ranked heap st rk /\ worklist rk = [].
Proof.
  set (fuel1 := S (sum_list_with (cost heap height) sinks)).
  destruct (discover_terminates heap height sinks acyclic fuel1 (discovery_start sinks))
    as (st & Hdisc & Hst & Hseen & Hempty).
  { apply discovered_start. }
  { apply sinks_seen_start. }
  { simpl. unfold fuel1. lia. }
  set (fuel2 := S (sum_list_with (up_cost height sinks st) (worklist (ranking_start st)))).
  destruct (rank_nodes_terminates heap height sinks acyclic st Hst fuel2 (ranking_start st))
    as (rk & Hrank & Hrk & Hwl).
  { by eapply ranked_start. }
  { unfold fuel2. lia. }
  exists (Nat.max fuel1 fuel2), st, rk. split.
  { apply (discover_more_fuel heap fuel1); [done|lia]. }
  split; [done|]. split.
  { intros k Hk. destruct (Hseen k Hk) as [Hin|Hin]; [|done].
    rewrite Hempty in Hin. by apply elem_of_nil in Hin. }
  split; [|done].
  apply (rank_nodes_more_fuel heap true _ fuel2); [done|lia].
Qed.

Lemma source_never_consumer (st : Discovery) (s : node) :
  discovered heap height sinks st ->
  s ∈ source_nodes st -> s ∉ sinks -> never_consumer st s.
Proof.
  intros Hst Hs Hnot f Hin.
  destruct (disc_edge _ _ _ _ Hst f s Hin) as (_ & _ & [Hsink|Hsrc] & _); [done|].
  destruct (disc_source _ _ _ _ Hst s Hs) as [_ Hsource]. congruence.
Qed.


End ToposortFacts.

Lemma small_graph_acyclic :
  forall n m, m ∈ ts_nodes small_graph n -> small_height m < small_height n.
Proof.
  intros [|[|n]] m; unfold ts_nodes; simpl.
  - intros Hm. repeat (apply elem_of_cons in Hm as [->|Hm]); simpl; try lia.
    by apply elem_of_nil in Hm.
  - by intros ?%elem_of_nil.
  - by intros ?%elem_of_nil.
Qed.

Lemma ltb_strict_total_order : strict_total_order Nat.ltb.
Proof.
  split.
  - intros a. apply Nat.ltb_irrefl.
  - intros a b c Hab%Nat.ltb_lt Hbc%Nat.ltb_lt. apply Nat.ltb_lt. lia.
  - intros a b Hne. rewrite !Nat.ltb_lt. lia.
Qed.



(** *** The nodes that the first loop meets *)

Section SurveyFacts.
Context (heap : node -> WiringNodeInstance) (sinks : list node).
#[local] Abbreviation surveyed_upto := (Wiring.surveyed_upto heap sinks).
#[local] Abbreviation surveyed := (Wiring.surveyed heap sinks).
#[local] Abbreviation upstream := (Wiring.upstream heap sinks).
#[local] Abbreviation explored := (Wiring.explored heap sinks).

Lemma surveyed_start : surveyed (discovery_start sinks).
Proof.
  split; simpl.
  - intros n [Hn|Hn]; [by apply elem_of_nil in Hn|by constructor].
  - intros q Hq. by left.
  - by intros n ?%elem_of_nil.
  - by intros t f ?%elem_of_nil.
  - intros f t. unfold consumers. rewrite lookup_empty. simpl. by intros ?%elem_of_nil.
  - by intros s ?%elem_of_nil.
  - intros k Hk. by right.
Qed.

Lemma visit_input_surveyed (to_node from_node : node) (done : list node) (st : Discovery) :
  from_node ∈ ts_nodes heap to_node -> upstream to_node ->
  to_node ∈ keys (processed_nodes st) ->
  surveyed_upto (fun t f => t <> to_node \/ f ∈ done) st ->
  surveyed_upto (fun t f => t <> to_node \/ f ∈ done ++ [from_node])
    (visit_input heap to_node st from_node)
  /\ to_node ∈ keys (processed_nodes (visit_input heap to_node st from_node)).
Proof.
  intros Hfrom Hup Hto [Hu Hq Hk Hi He Hs Hsk]. unfold visit_input.
  assert (Hupf : upstream from_node) by (by eapply upstream_input).
  destruct (is_source_node (heap from_node)) eqn:Hsrc; simpl.
  - split; [split; simpl|].
    + intros n [[->|Hn]%keys_dict_set_elem|Hn]; [done|apply Hu; by left|apply Hu; by right].
    + exact Hq.
    + intros n [->|Hn]%keys_dict_set_elem.
      * right. right. apply elem_of_set_add. by left.
      * destruct (Hk n Hn) as [?|[?|?]]; [by left|by right; left|].
        right. right. apply elem_of_set_add. by right.
    + intros t f [->|Ht]%keys_dict_set_elem Hns Hf Hv; [congruence|].
      destruct (decide (t = to_node /\ f = from_node)) as [[-> ->]|Hother].
      * split; [left; apply keys_dict_set_elem; by left|].
        apply consumers_add_edge. by left.
      * destruct (Hi t f Ht Hns Hf) as [Hin Hc].
        { destruct Hv as [?|[?|Heq%list_elem_of_singleton]%elem_of_app];
            [by left|by right|].
          left. intros ->. by apply Hother. }
        split; [|apply consumers_add_edge; by right].
        destruct Hin as [?|?]; [left; apply keys_dict_set_elem; by right|by right].
    + intros f t [(-> & ->)|Hold]%consumers_add_edge.
      * split; [done|]. split; [apply keys_dict_set_elem; by right|].
        intros _. apply elem_of_set_add. by left.
      * destruct (He f t Hold) as (? & ? & Hsn). split; [done|].
        split; [apply keys_dict_set_elem; by right|].
        intros Hf. apply elem_of_set_add. right. by apply Hsn.
    + intros s [->|Hold]%elem_of_set_add.
      * split; [apply keys_dict_set_elem; by left|]. split; [done|].
        exists to_node. apply consumers_add_edge. by left.
      * destruct (Hs s Hold) as (? & ? & t & Ht).
        split; [apply keys_dict_set_elem; by right|]. split; [done|].
        exists t. apply consumers_add_edge. by right.
    + intros k Hkk. destruct (Hsk k Hkk) as [?|?]; [|by right].
      left. apply keys_dict_set_elem. by right.
    + apply keys_dict_set_elem. by right.
  - split; [split; simpl|]; try done.
    + intros n [Hn|[Hn|Heq%list_elem_of_singleton]%elem_of_app];
        [apply Hu; by left|apply Hu; by right|by subst n].
    + intros q [Hold|Heq%list_elem_of_singleton]%elem_of_app;
        [by apply Hq|subst q; by right].
    + intros t f Ht Hns Hf Hv.
      destruct (decide (t = to_node /\ f = from_node)) as [[-> ->]|Hother].
      * split; [right; apply elem_of_app; right; by apply list_elem_of_singleton|].
        apply consumers_add_edge. by left.
      * destruct (Hi t f Ht Hns Hf) as [Hin Hc].
        { destruct Hv as [?|[?|Heq%list_elem_of_singleton]%elem_of_app];
            [by left|by right|].
          left. intros ->. by apply Hother. }
        split; [|apply consumers_add_edge; by right].
        destruct Hin as [?|?]; [by left|right; apply elem_of_app; by left].
    + intros f t [(-> & ->)|Hold]%consumers_add_edge.
      * split; [done|]. split; [done|]. congruence.
      * by apply He.
    + intros s Hold. destruct (Hs s Hold) as (? & ? & t & Ht).
      split; [done|]. split; [done|]. exists t. apply consumers_add_edge. by right.
    + intros k Hkk. destruct (Hsk k Hkk) as [?|?]; [by left|].
      right. apply elem_of_app. by left.
Qed.

Lemma visit_inputs_surveyed (to_node : node) (froms : list node) :
  forall done st,
    (forall f, f ∈ froms -> f ∈ ts_nodes heap to_node) -> upstream to_node ->
    to_node ∈ keys (processed_nodes st) ->
    surveyed_upto (fun t f => t <> to_node \/ f ∈ done) st ->
    surveyed_upto (fun t f => t <> to_node \/ f ∈ done ++ froms)
      (foldl (visit_input heap to_node) st froms).
Proof.
  induction froms as [|f0 rest IH]; intros done st Hall Hup Hto Hst; simpl.
  - by rewrite app_nil_r.
  - destruct (visit_input_surveyed to_node f0 done st) as [Hst' Hto']; [|done|done|done|].
    { apply Hall. left. }
    rewrite cons_middle, app_assoc. apply IH; [|done|done|done].
    intros f Hf. apply Hall. by right.
Qed.

Lemma surveyed_upto_weaken (P Q : node -> node -> Prop) (st : Discovery) :
  (forall t f, f ∈ ts_nodes heap t -> Q t f -> P t f) ->
  surveyed_upto P st -> surveyed_upto Q st.
Proof.
  intros HPQ [Hu Hq Hk Hi He Hs Hsk]. split; try done.
  intros t f Ht Hns Hf Hv. apply Hi; auto.
Qed.

Lemma discover_node_surveyed (to_node : node) (rest : list node) (st : Discovery) :
  surveyed st -> nodes_to_process st = to_node :: rest ->
  surveyed (discover_node heap to_node
              {| nodes_to_process := rest; processed_nodes := processed_nodes st;
                 mapping := mapping st; source_nodes := source_nodes st |}).
Proof.
  intros [Hu Hq Hk Hi He Hs Hsk] Hqueue. unfold discover_node. simpl.
  assert (Hup : Wiring.upstream heap sinks to_node).
  { apply Hu. right. rewrite Hqueue. left. }
  destruct (dict_mem to_node (processed_nodes st)) eqn:Hmem.
  - apply bool_decide_eq_true, dict_get_is_Some in Hmem.
    split; simpl; try done.
    + intros n [Hn|Hn]; apply Hu; [by left|right; rewrite Hqueue; by right].
    + intros q Hin. apply Hq. rewrite Hqueue. by right.
    + intros t f Ht Hns Hf _. destruct (Hi t f Ht Hns Hf I) as [[?|Hin] Hc]; [by split; [left|]|].
      split; [|done]. rewrite Hqueue in Hin.
      apply elem_of_cons in Hin as [->|?]; [by left|by right].
    + intros k Hkk. destruct (Hsk k Hkk) as [?|Hin]; [by left|].
      rewrite Hqueue in Hin. apply elem_of_cons in Hin as [->|?]; [by left|by right].
  - apply (surveyed_upto_weaken (fun t f => t <> to_node \/ f ∈ [] ++ ts_nodes heap to_node)).
    { intros t f Hf _. destruct (decide (t = to_node)) as [->|?]; [by right|by left]. }
    apply visit_inputs_surveyed; simpl; [done|done|apply keys_dict_set_elem; by left|].
    split; simpl.
    + intros n [[->|Hn]%keys_dict_set_elem|Hn]; [done|apply Hu; by left|].
      apply Hu. right. rewrite Hqueue. by right.
    + intros q Hin. apply Hq. rewrite Hqueue. by right.
    + intros n [->|Hn]%keys_dict_set_elem.
      * destruct (Hq to_node) as [?|?]; [rewrite Hqueue; left|by left|by right; left].
      * by apply Hk.
    + intros t f [->|Ht]%keys_dict_set_elem Hns Hf [Hne|Hin];
        [done|by apply elem_of_nil in Hin| |by apply elem_of_nil in Hin].
      destruct (Hi t f Ht Hns Hf I) as [[?|Hin] Hc].
      * split; [|done]. left. apply keys_dict_set_elem. by right.
      * split; [|done]. rewrite Hqueue in Hin.
        apply elem_of_cons in Hin as [->|?]; [|by right].
        left. apply keys_dict_set_elem. by left.
    + intros f t Ht. destruct (He f t Ht) as (? & ? & ?). split; [done|].
      split; [|done]. apply keys_dict_set_elem. by right.
    + intros s Hin. destruct (Hs s Hin) as (? & ? & ?). split; [|done].
      apply keys_dict_set_elem. by right.
    + intros k Hkk. destruct (Hsk k Hkk) as [?|Hin].
      * left. apply keys_dict_set_elem. by right.
      * rewrite Hqueue in Hin. apply elem_of_cons in Hin as [->|?]; [|by right].
        left. apply keys_dict_set_elem. by left.
Qed.

Lemma discover_surveyed (fuel : nat) :
  forall st st',
    discover heap fuel st = Some st' -> surveyed st ->
    surveyed st' /\ nodes_to_process st' = [].
Proof.
  induction fuel as [|fuel IH]; intros st st'; simpl.
  - destruct (nodes_to_process st) eqn:Hq; [|done]. intros [= <-]. done.
  - destruct (nodes_to_process st) as [|to_node rest] eqn:Hq.
    + intros [= <-]. done.
    + intros Hd Hst. apply (IH _ _ Hd). by apply discover_node_surveyed.
Qed.

(** When the first loop has ended, the nodes it has met are nodes
    upstream of the sinks, and all of those that are reached through nodes
    that are no source nodes. *)
Lemma surveyed_keys (st : Discovery) :
  surveyed st -> nodes_to_process st = [] ->
  forall n,
    (n ∈ keys (processed_nodes st) -> upstream n)
    /\ (explored n -> n ∈ keys (processed_nodes st)).
Proof.
  intros Hst Hq n. split.
  - intros Hn. apply (sv_upstream _ _ _ _ Hst). by left.
  - induction 1 as [k Hk|t f _ IH Hns Hf].
    + destruct (sv_sinks _ _ _ _ Hst k Hk) as [?|Hin]; [done|].
      rewrite Hq in Hin. by apply elem_of_nil in Hin.
    + destruct (sv_inputs _ _ _ _ Hst t f IH Hns Hf I) as [[?|Hin] _]; [done|].
      rewrite Hq in Hin. by apply elem_of_nil in Hin.
Qed.

Lemma upstream_explored (n : node) :
  (forall m, is_source_node (heap m) = true -> ts_nodes heap m = []) ->
  upstream n -> explored n.
Proof.
  intros Hsrc. induction 1 as [k Hk|t f _ IH Hf]; [by constructor|].
  apply (explored_input _ _ t); [done| |done].
  destruct (is_source_node (heap t)) eqn:Ht; [|done].
  rewrite (Hsrc t Ht) in Hf. by apply elem_of_nil in Hf.
Qed.

End SurveyFacts.

(** *** More about the second loop: no rank too low, none too high *)

Lemma rank_nodes_ranks_invariant (heap : node -> WiringNodeInstance) (b : bool)
    (m : gmap node (list node)) (J : dict -> Prop) :
  (forall g rk rk', J (ranks rk) -> rank_node heap b m g rk = Ok rk' -> J (ranks rk')) ->
  forall fuel rk rk',
    rank_nodes heap fuel b m rk = Some (Ok rk') -> J (ranks rk) -> J (ranks rk').
Proof.
  intros Hstep. induction fuel as [|fuel IH]; intros rk rk'; simpl.
  - destruct (worklist rk); [|done]. by intros [= <-].
  - destruct (worklist rk) as [|g rest]; [by intros [= <-]|].
    destruct (rank_node heap b m g _) as [rk1|] eqn:Hnode; [|done].
    intros Hrest HJ. apply (IH _ _ Hrest).
    exact (Hstep g {| worklist := rest; ranks := ranks rk; max_rank := max_rank rk |}
             rk1 HJ Hnode).
Qed.

Section RankBounds.
Context (heap : node -> WiringNodeInstance) (m : gmap node (list node)).
#[local] Abbreviation ranks_low := (Wiring.ranks_low heap).
#[local] Abbreviation ranks_tight := (Wiring.ranks_tight heap m).

Lemma rank_consumers_low (g : node) (ts : list node) :
  forall rk rk',
    rank_consumers g rk ts = Ok rk' -> ranks_low (ranks rk) -> ranks_low (ranks rk').
Proof.
  induction ts as [|t rest IH]; intros rk rk'; simpl; [by intros [= <-]|].
  destruct (rank_consumer g rk t) as [rk1|] eqn:Hstep; simpl; [|done].
  intros Hrest Hlow. apply (IH _ _ Hrest).
  apply rank_consumer_Some in Hstep as (r_to & r_from & _ & _ & ->). simpl.
  intros n r. destruct (decide (t = n)) as [->|Hne].
  - rewrite dict_get_set_eq. intros [= <-] _. lia.
  - rewrite dict_get_set_ne by done. apply Hlow.
Qed.

Lemma reset_low (g : node) (d : dict) :
  is_push heap g = true -> ranks_low d -> ranks_low (dict_set g 0 d).
Proof.
  intros Hp Hlow n r. destruct (decide (g = n)) as [->|Hne].
  - intros _ Hnp. congruence.
  - rewrite dict_get_set_ne by done. apply Hlow.
Qed.

Lemma rank_node_low (b : bool) (g : node) (rk rk' : Ranking) :
  ranks_low (ranks rk) -> rank_node heap b m g rk = Ok rk' -> ranks_low (ranks rk').
Proof.
  unfold rank_node. intros Hlow.
  destruct (negb b && node_type_is_NodeTypeEnum_PUSH_SOURCE_NODE (heap g)); [done|].
  intros Hrun. apply (rank_consumers_low _ _ _ _ Hrun).
  fold (is_push heap g). destruct (is_push heap g) eqn:Hp; [|done].
  simpl. by apply reset_low.
Qed.

Hypothesis no_loop : forall x, x ∉ consumers m x.

Lemma rank_consumers_tight (g : node) (ts : list node) :
  forall rk rk',
    (forall t, t ∈ ts -> t ∈ consumers m g) ->
    (is_push heap g = true -> dict_get g (ranks rk) = Some 0) ->
    rank_consumers g rk ts = Ok rk' ->
    ranks_tight (ranks rk) -> ranks_tight (ranks rk').
Proof.
  induction ts as [|t rest IH]; intros rk rk' Hts Hg; simpl; [by intros [= <-]|].
  destruct (rank_consumer g rk t) as [rk1|] eqn:Hstep; simpl; [|done].
  intros Hrest Htight.
  apply rank_consumer_Some in Hstep as (r_to & r_from & Hto & Hfrom & ->).
  assert (Hgt : g <> t).
  { intros ->. apply (no_loop t). apply Hts. left. }
  apply (IH _ _ (fun t' Ht' => Hts t' (list_elem_of_further _ _ _ Ht'))) in Hrest; [done| |].
  { simpl. rewrite dict_get_set_ne by done. exact Hg. }
  simpl. intros x rx. destruct (decide (t = x)) as [<-|Hne].
  - rewrite dict_get_set_eq. intros [= <-] Hnp.
    destruct (decide (r_from + 1 <= r_to)) as [Hle|Hgt'].
    + rewrite Nat.max_l by done.
      destruct (Htight t r_to Hto Hnp) as [?|(f & rf & Hf & Hrf & Hle')]; [by left|].
      right. exists f, rf. split; [done|]. split; [|done].
      rewrite dict_get_set_ne; [done|]. intros ->. by apply (no_loop f).
    + rewrite Nat.max_r by lia. right. exists g, r_from. split; [apply Hts; left|].
      split; [by rewrite dict_get_set_ne|].
      unfold handed_on. destruct (is_push heap g) eqn:Hp; [|lia].
      rewrite (Hg eq_refl) in Hfrom. injection Hfrom as <-. lia.
  - rewrite dict_get_set_ne by done. intros Hx Hnp.
    destruct (Htight x rx Hx Hnp) as [?|(f & rf & Hf & Hrf & Hle)]; [by left|].
    right. destruct (decide (t = f)) as [<-|Hnf].
    + exists t, (Nat.max r_to (r_from + 1)). split; [done|].
      split; [apply dict_get_set_eq|].
      rewrite Hto in Hrf. injection Hrf as <-.
      unfold handed_on in *. destruct (is_push heap t); lia.
    + exists f, rf. split; [done|]. split; [by rewrite dict_get_set_ne|done].
Qed.

Lemma reset_tight (g : node) (d : dict) :
  is_push heap g = true -> ranks_tight d -> ranks_tight (dict_set g 0 d).
Proof.
  intros Hp Htight t r. destruct (decide (g = t)) as [->|Hne]; [intros _ ?; congruence|].
  rewrite dict_get_set_ne by done. intros Ht Hnp.
  destruct (Htight t r Ht Hnp) as [?|(f & rf & Hf & Hrf & Hle)]; [by left|].
  right. destruct (decide (g = f)) as [<-|Hnf].
  - exists g, 0. split; [done|]. split; [apply dict_get_set_eq|].
    unfold handed_on in *. by rewrite Hp in *.
  - exists f, rf. split; [done|]. split; [by rewrite dict_get_set_ne|done].
Qed.

Lemma rank_node_tight (b : bool) (g : node) (rk rk' : Ranking) :
  ranks_tight (ranks rk) -> rank_node heap b m g rk = Ok rk' -> ranks_tight (ranks rk').
Proof.
  unfold rank_node. intros Htight.
  destruct (negb b && node_type_is_NodeTypeEnum_PUSH_SOURCE_NODE (heap g)); [done|].
  intros Hrun. apply (rank_consumers_tight _ _ _ _ (fun t Ht => Ht)) in Hrun; [done| |].
  - fold (is_push heap g). destruct (is_push heap g) eqn:Hp; [|done].
    intros _. simpl. apply dict_get_set_eq.
  - fold (is_push heap g). destruct (is_push heap g) eqn:Hp; [|done].
    simpl. by apply reset_tight.
Qed.

End RankBounds.

(** *** The order of the result *)

Lemma sorted_before (table : dict) (l : list node) (a b : node) :
  StronglySorted (fun x y => rank_in table x <= rank_in table y) l ->
  a ∈ l -> b ∈ l -> rank_in table a < rank_in table b -> before l a b.
Proof.
  induction 1 as [|x rest Hsorted IH Hall]; intros Ha Hb Hlt.
  - by apply elem_of_nil in Ha.
  - rewrite Forall_forall in Hall.
    apply elem_of_cons in Ha as [->|Ha].
    + apply elem_of_cons in Hb as [->|Hb]; [lia|].
      apply list_elem_of_lookup_1 in Hb as [j Hj].
      exists 0, (S j). split; [done|]. split; [done|lia].
    + apply elem_of_cons in Hb as [->|Hb].
      * specialize (Hall a Ha). lia.
      * destruct (IH Ha Hb Hlt) as (i & j & Hi & Hj & Hij).
        exists (S i), (S j). split; [done|]. split; [done|lia].
Qed.

Lemma path_snoc (m : gmap node (list node)) (s g t : node) :
  path m s g -> t ∈ consumers m g -> path m s t.
Proof.
  induction 1 as [g|g u f Hu _ IH]; intros Ht.
  - apply (path_next _ _ t); [done|constructor].
  - apply (path_next _ _ u); [done|by apply IH].
Qed.

Lemma toposort_more_fuel (heap : node -> WiringNodeInstance) (node_lt : node -> node -> bool)
    (sinks : list node) (b : bool) (fuel fuel' : nat) (st : Discovery)
    (r : pyresult Ranking) :
  discover heap fuel (discovery_start sinks) = Some st ->
  rank_nodes heap fuel b (mapping st) (ranking_start st) = Some r ->
  fuel <= fuel' ->
  toposort_ranks heap fuel' sinks b = Some (rk ← r; Ok (rank_sinks sinks rk))
  /\ toposort heap node_lt fuel' sinks b
     = Some (rk ← r; Ok (emit_nodes heap node_lt (rank_sinks sinks rk))).
Proof.
  intros Hd Hr Hle.
  assert (Hranks : toposort_ranks heap fuel' sinks b
                   = Some (rk ← r; Ok (rank_sinks sinks rk))).
  { unfold toposort_ranks. rewrite (discover_more_fuel heap fuel fuel' _ _ Hd Hle). simpl.
    by rewrite (rank_nodes_more_fuel heap b _ fuel fuel' _ _ Hr Hle). }
  split; [exact Hranks|]. unfold toposort. rewrite Hranks. simpl. by destruct r.
Qed.

Section OutcomeFacts.
Context (heap : node -> WiringNodeInstance) (node_lt : node -> node -> bool).
Context (height : node -> nat) (sinks : list node).
Hypothesis acyclic : forall n m, m ∈ ts_nodes heap n -> height m < height n.

(** The two loops end, and what holds when they have. *)
Lemma toposort_outcome :
  exists fuel st rk,
    discover heap fuel (discovery_start sinks) = Some st
    /\ discovered heap height sinks st
    /\ surveyed heap sinks st
    /\ nodes_to_process st = []
    /\ rank_nodes heap fuel true (mapping st) (ranking_start st) = Some (Ok rk)
    /\ ranked heap st rk
    /\ worklist rk = []
    /\ ranks_low heap (ranks rk)
    /\ ranks_tight heap (mapping st) (ranks rk)
    /\ keys (rank_sinks sinks rk) = keys (processed_nodes st)
    /\ NoDup (keys (processed_nodes st))
    /\ (forall fuel', fuel <= fuel' ->
          toposort_ranks heap fuel' sinks true = Some (Ok (rank_sinks sinks rk))
          /\ toposort heap node_lt fuel' sinks true
             = Some (Ok (emit_nodes heap node_lt (rank_sinks sinks rk)))).
Proof.
  destruct (toposort_loops_end heap height sinks acyclic)
    as (fuel & st & rk & Hdisc & Hst & Hsinks & Hrank & Hrk & Hwl).
  destruct (discover_surveyed heap sinks fuel _ _ Hdisc (surveyed_start heap sinks))
    as [Hsv Hq].
  assert (Hloop : forall x, x ∉ consumers (mapping st) x).
  { intros x. by apply (not_own_consumer heap height sinks acyclic st Hst). }
  exists fuel, st, rk.
  split; [exact Hdisc|]. split; [exact Hst|]. split; [exact Hsv|]. split; [exact Hq|].
  split; [exact Hrank|]. split; [exact Hrk|]. split; [exact Hwl|]. split.
  { apply (rank_nodes_ranks_invariant heap true (mapping st) (ranks_low heap)
             (fun g rk0 rk1 => rank_node_low heap (mapping st) true g rk0 rk1)
             fuel _ _ Hrank).
    simpl. intros n r Hn _. by rewrite (disc_rank _ _ _ _ Hst n r Hn). }
  split.
  { apply (rank_nodes_ranks_invariant heap true (mapping st)
             (ranks_tight heap (mapping st))
             (fun g rk0 rk1 => rank_node_tight heap (mapping st) Hloop true g rk0 rk1)
             fuel _ _ Hrank).
    simpl. intros n r Hn _. left. by rewrite (disc_rank _ _ _ _ Hst n r Hn). }
  split.
  { unfold rank_sinks. rewrite rank_sinks_fold_keys; [apply (rk_keys _ _ _ Hrk)|].
    intros k Hk. rewrite (rk_keys _ _ _ Hrk). by apply Hsinks. }
  split; [apply (disc_nodup _ _ _ _ Hst)|].
  intros fuel' Hle.
  exact (toposort_more_fuel heap node_lt sinks true fuel fuel' st (Ok rk) Hdisc Hrank Hle).
Qed.

End OutcomeFacts.

(** *** What is emitted, and where the push sources stand *)

Section EmittedFacts.
Context (heap : node -> WiringNodeInstance) (node_lt : node -> node -> bool).
Context (height : node -> nat) (sinks : list node).
Hypothesis acyclic : forall n m, m ∈ ts_nodes heap n -> height m < height n.

(** X21. On a wiring graph without cycles [toposort] returns a list
    without duplicates. Every node of it is no stub and lies upstream of
    the sinks it was given; every node that is no stub and is met going up
    from the sinks through nodes that are no source nodes is in it. When
    the source nodes have no inputs, the list holds exactly the nodes
    upstream of the sinks that are no stubs. *)
Theorem toposort_emits_upstream :
  exists fuel out,
    (forall fuel', fuel <= fuel' ->
       toposort heap node_lt fuel' sinks true = Some (Ok out))
    /\ NoDup out
    /\ (forall n, n ∈ out -> is_stub (heap n) = false /\ upstream heap sinks n)
    /\ (forall n, explored heap sinks n -> is_stub (heap n) = false -> n ∈ out)
    /\ ((forall m, is_source_node (heap m) = true -> ts_nodes heap m = []) ->
        forall n, n ∈ out <-> upstream heap sinks n /\ is_stub (heap n) = false).
Proof.
  destruct (toposort_outcome heap node_lt height sinks acyclic)
    as (fuel & st & rk & _ & _ & Hsv & Hq & _ & _ & _ & _ & _ & Hkeys & Hnd & Hrun).
  exists fuel, (emit_nodes heap node_lt (rank_sinks sinks rk)).
  assert (Hout : forall n, n ∈ emit_nodes heap node_lt (rank_sinks sinks rk)
                           <-> is_stub (heap n) = false /\ n ∈ keys (processed_nodes st)).
  { intros n. by rewrite emit_nodes_Permutation, Hkeys, list_elem_of_filter. }
  split; [intros fuel' Hle; by destruct (Hrun fuel' Hle)|]. split.
  { rewrite emit_nodes_Permutation, Hkeys. by apply NoDup_filter. }
  split.
  { intros n [Hstub Hn]%Hout. split; [done|]. by apply (surveyed_keys heap sinks st Hsv Hq n). }
  split.
  { intros n Hn Hstub. apply Hout. split; [done|].
    by apply (surveyed_keys heap sinks st Hsv Hq n). }
  intros Hsrc n. rewrite Hout. split.
  - intros [Hstub Hn]. split; [|done]. by apply (surveyed_keys heap sinks st Hsv Hq n).
  - intros [Hn Hstub]. split; [done|].
    apply (surveyed_keys heap sinks st Hsv Hq n). by apply upstream_explored.
Qed.

(** X22. On a wiring graph without cycles, a push source node of the
    result that is no sink stands before every sink and before every node
    that is no push source. *)
Theorem toposort_push_sources_first :
  exists fuel out,
    (forall fuel', fuel <= fuel' ->
       toposort heap node_lt fuel' sinks true = Some (Ok out))
    /\ forall p n,
         p ∈ out -> is_push heap p = true -> is_source_node (heap p) = true ->
         p ∉ sinks ->
         n ∈ out -> n ∈ sinks \/ is_push heap n = false ->
         before out p n.
Proof.
  destruct (toposort_outcome heap node_lt height sinks acyclic)
    as (fuel & st & rk & _ & Hst & Hsv & Hq & _ & Hrk & Hwl & Hlow & _ & Hkeys & Hnd & Hrun).
  exists fuel, (emit_nodes heap node_lt (rank_sinks sinks rk)).
  assert (Hout : forall n, n ∈ emit_nodes heap node_lt (rank_sinks sinks rk)
                           <-> is_stub (heap n) = false /\ n ∈ keys (processed_nodes st)).
  { intros n. by rewrite emit_nodes_Permutation, Hkeys, list_elem_of_filter. }
  split; [intros fuel' Hle; by destruct (Hrun fuel' Hle)|].
  intros p n Hp Hpush Hsrc Hnot Hn Hcase.
  apply sorted_before with (table := rank_sinks sinks rk); [|done|done|].
  { apply emit_nodes_sorted. by rewrite Hkeys. }
  pose proof Hp as [_ Hpk]%Hout. pose proof Hn as [_ Hnk]%Hout.
  assert (Hps : p ∈ source_nodes st).
  { destruct (sv_keys _ _ _ _ Hsv p Hpk) as [?|[?|?]]; [done|congruence|done]. }
  assert (Hp0 : dict_get p (ranks rk) = Some 0).
  { destruct (rk_push _ _ _ Hrk p Hps) as [Hin|Hzero]; [|done|..|done].
    - by apply (source_never_consumer heap height sinks st p).
    - rewrite Hwl in Hin. by apply elem_of_nil in Hin. }
  assert (Hmax : 1 <= max_rank rk).
  { destruct (sv_source _ _ _ _ Hsv p Hps) as (_ & _ & t & Ht).
    destruct (rk_settled _ _ _ Hrk p) as [Hset|(g & Hg & _)].
    - exists p. split; [done|constructor].
    - destruct (Hset t Ht) as (rf & rt & _ & _ & Hle & _). lia.
    - rewrite Hwl in Hg. by apply elem_of_nil in Hg. }
  unfold rank_in, rank_sinks. rewrite (rank_sinks_fold_get_other _ _ p) by done.
  rewrite Hp0. simpl.
  destruct (decide (n ∈ sinks)) as [Hin|Hnin].
  - rewrite rank_sinks_fold_get_sink by done. simpl. lia.
  - rewrite rank_sinks_fold_get_other by done.
    destruct Hcase as [?|Hnp]; [done|].
    assert (Hnr : n ∈ keys (ranks rk)) by (by rewrite (rk_keys _ _ _ Hrk)).
    apply dict_get_is_Some in Hnr as [r Hr]. rewrite Hr. simpl.
    specialize (Hlow n r Hr Hnp). lia.
Qed.

#[local] Abbreviation up_cost := (Wiring.up_cost height sinks).

Lemma rank_nodes_raises (st : Discovery) (fuel : nat) :
  discovered heap height sinks st ->
  forall rk q,
    ranked heap st rk ->
    q ∈ worklist rk -> is_NodeTypeEnum_push heap q = true ->
    sum_list_with (up_cost st) (worklist rk) < fuel ->
    rank_nodes heap fuel false (mapping st) rk = Some (Raise CustomMessageWiringError).
Proof.
  intros Hst. induction fuel as [|fuel IH]; intros rk q Hrk Hq Hflag Hfuel; [lia|].
  destruct (worklist rk) as [|g rest] eqn:Hwl; [by apply elem_of_nil in Hq|].
  simpl. rewrite Hwl. unfold rank_node at 1. simpl.
  destruct (node_type_is_NodeTypeEnum_PUSH_SOURCE_NODE (heap g)) eqn:Hg; [done|].
  destruct (rank_node_ranked heap height sinks acyclic st Hst g rest rk Hrk Hwl)
    as (rk1 & Hstep & Hrk1 & Hwl1).
  unfold rank_node in Hstep. simpl in Hstep. rewrite Hstep.
  apply (IH rk1 q Hrk1).
  - rewrite Hwl1. apply elem_of_app. right.
    apply elem_of_cons in Hq as [->|Hq]; [|done].
    unfold is_NodeTypeEnum_push in Hflag. congruence.
  - done.
  - rewrite Hwl1, sum_list_with_app, sum_list_with_reverse.
    pose proof (up_cost_consumers heap height sinks acyclic st Hst g).
    simpl in Hfuel. lia.
Qed.

(** X23. On a wiring graph without cycles, when push nodes are not
    supported and a source node marked [NodeTypeEnum.PUSH_SOURCE_NODE] is
    an input of a node met going up from the sinks, [toposort] raises
    [CustomMessageWiringError]. *)
Theorem toposort_refuses_push_nodes (p t : node) :
  explored heap sinks t -> is_source_node (heap t) = false ->
  p ∈ ts_nodes heap t ->
  is_source_node (heap p) = true -> is_NodeTypeEnum_push heap p = true ->
  exists fuel, forall fuel', fuel <= fuel' ->
    toposort heap node_lt fuel' sinks false = Some (Raise CustomMessageWiringError).
Proof.
  intros Ht Htsrc Hp Hpsrc Hflag.
  destruct (toposort_outcome heap node_lt height sinks acyclic)
    as (fuel & st & rk & Hdisc & Hst & Hsv & Hq & _).
  assert (Hps : p ∈ source_nodes st).
  { assert (Htk : t ∈ keys (processed_nodes st)).
    { by apply (surveyed_keys heap sinks st Hsv Hq t). }
    destruct (sv_inputs _ _ _ _ Hsv t p Htk Htsrc Hp I) as [_ Hc].
    by apply (sv_edge _ _ _ _ Hsv p t Hc). }
  set (fuel2 := S (sum_list_with (up_cost st) (worklist (ranking_start st)))).
  assert (Hraise : rank_nodes heap fuel2 false (mapping st) (ranking_start st)
                   = Some (Raise CustomMessageWiringError)).
  { apply (rank_nodes_raises st fuel2 Hst _ p).
    - by eapply ranked_start.
    - simpl. by rewrite elem_of_reverse.
    - done.
    - unfold fuel2. lia. }
  exists (Nat.max fuel fuel2). intros fuel' Hle.
  destruct (toposort_more_fuel heap node_lt sinks false (Nat.max fuel fuel2) fuel' st
              (Raise CustomMessageWiringError)) as [_ Hrun]; [| |done|done].
  - apply (discover_more_fuel heap fuel); [done|lia].
  - apply (rank_nodes_more_fuel heap false _ fuel2); [done|lia].
Qed.

End EmittedFacts.

(** X24. When no node upstream of the sinks is marked
    [NodeTypeEnum.PUSH_SOURCE_NODE], [toposort] does the same whether push
    nodes are supported or not. *)
Theorem toposort_without_push_nodes (heap : node -> WiringNodeInstance)
    (node_lt : node -> node -> bool) (sinks : list node) :
  (forall n, upstream heap sinks n -> is_NodeTypeEnum_push heap n = false) ->
  forall fuel,
    toposort heap node_lt fuel sinks false = toposort heap node_lt fuel sinks true.
Proof.
  intros Hnone fuel. unfold toposort, toposort_ranks.
  destruct (discover heap fuel (discovery_start sinks)) as [st|] eqn:Hdisc; [|done].
  destruct (discover_surveyed heap sinks fuel _ _ Hdisc (surveyed_start heap sinks))
    as [Hsv Hempty].
  simpl.
  assert (Hkey : forall n, n ∈ keys (processed_nodes st) ->
                   node_type_is_NodeTypeEnum_PUSH_SOURCE_NODE (heap n) = false).
  { intros n Hn. apply Hnone. by apply (surveyed_keys heap sinks st Hsv Hempty n). }
  assert (Hsame : forall fuel0 rk,
             (forall q, q ∈ worklist rk -> q ∈ keys (processed_nodes st)) ->
             rank_nodes heap fuel0 false (mapping st) rk
             = rank_nodes heap fuel0 true (mapping st) rk).
  { clear fuel Hdisc. induction fuel0 as [|fuel0 IH]; intros rk Hwork; [done|].
    simpl. destruct (worklist rk) as [|g rest] eqn:Hwl; [done|].
    assert (Hnode : forall rk0, rank_node heap false (mapping st) g rk0
                                = rank_node heap true (mapping st) g rk0).
    { intros rk0. unfold rank_node. rewrite Hkey; [done|]. apply Hwork. left. }
    rewrite Hnode.
    destruct (rank_node heap true (mapping st) g _) as [rk1|] eqn:Hstep; [|done].
    apply IH. intros q Hq.
    assert (Hwl1 : forall ts rk0 rk2,
               rank_consumers g rk0 ts = Ok rk2 ->
               forall x, x ∈ worklist rk2 -> x ∈ ts \/ x ∈ worklist rk0).
    { clear. induction ts as [|t ts IHts]; intros rk0 rk2; simpl.
      - intros [= <-] x ?. by right.
      - destruct (rank_consumer g rk0 t) as [rk1|] eqn:Hstep; simpl; [|done].
        apply rank_consumer_Some in Hstep as (r_to & r_from & _ & _ & ->).
        intros Hrest x Hx. destruct (IHts _ _ Hrest x Hx) as [?|Hin].
        + left. by right.
        + simpl in Hin. apply elem_of_cons in Hin as [->|?]; [left; left|by right]. }
    unfold rank_node in Hstep. simpl in Hstep.
    destruct (Hwl1 _ _ _ Hstep q Hq) as [Hin|Hin].
    - by apply (sv_edge _ _ _ _ Hsv g q Hin).
    - apply Hwork. right.
      by destruct (node_type_is_WiringNodeType_PUSH_SOURCE_NODE (heap g)). }
  rewrite Hsame; [done|].
  intros q Hq. simpl in Hq. rewrite elem_of_reverse in Hq.
  by apply (sv_source _ _ _ _ Hsv q Hq).
Qed.

(** *** The ranks as levels, and producers before consumers *)

Section LevelFacts.
Context (heap : node -> WiringNodeInstance) (node_lt : node -> node -> bool).
Context (height : node -> nat) (sinks : list node).
Hypothesis acyclic : forall n m, m ∈ ts_nodes heap n -> height m < height n.
(** The source nodes are the nodes without inputs. *)
Hypothesis sources_read_nothing :
  forall n, is_source_node (heap n) = true <-> ts_nodes heap n = [].
(** No node reads a sink. *)
Hypothesis sinks_feed_nothing : forall k t, k ∈ sinks -> k ∉ ts_nodes heap t.
Hypothesis push_is_source :
  forall n, is_push heap n = true -> is_source_node (heap n) = true.

Lemma key_reached (st : Discovery) :
  surveyed heap sinks st -> nodes_to_process st = [] ->
  forall h f,
    height f < h -> f ∈ keys (processed_nodes st) -> f ∉ sinks -> reached st f.
Proof.
  intros Hsv Hq. induction h as [|h IH]; intros f Hh Hf Hns; [lia|].
  destruct (is_source_node (heap f)) eqn:Hsrc.
  - exists f. split; [|constructor].
    destruct (sv_keys _ _ _ _ Hsv f Hf) as [?|[?|?]]; [done|congruence|done].
  - destruct (ts_nodes heap f) as [|f' rest] eqn:Hts.
    + apply sources_read_nothing in Hts. congruence.
    + assert (Hin : f' ∈ ts_nodes heap f) by (rewrite Hts; left).
      destruct (sv_inputs _ _ _ _ Hsv f f' Hf Hsrc Hin I) as [[Hk|Hk] Hc].
      * destruct (IH f') as (s & Hs & Hp).
        { apply acyclic in Hin. lia. }
        { done. }
        { intros Hsink. by apply (sinks_feed_nothing f' f). }
        exists s. split; [done|]. by apply (path_snoc _ _ f').
      * rewrite Hq in Hk. by apply elem_of_nil in Hk.
Qed.

(** The ranks [toposort] sorts by. *)
Lemma toposort_levels :
  exists fuel st rk,
    (forall fuel', fuel <= fuel' ->
       toposort_ranks heap fuel' sinks true = Some (Ok (rank_sinks sinks rk))
       /\ toposort heap node_lt fuel' sinks true
          = Some (Ok (emit_nodes heap node_lt (rank_sinks sinks rk))))
    /\ keys (rank_sinks sinks rk) = keys (processed_nodes st)
    /\ NoDup (keys (processed_nodes st))
    /\ (forall t f, t ∈ keys (processed_nodes st) -> f ∈ ts_nodes heap t ->
          f ∈ keys (processed_nodes st)
          /\ rank_in (rank_sinks sinks rk) f < rank_in (rank_sinks sinks rk) t)
    /\ (forall t, t ∈ keys (processed_nodes st) -> t ∉ sinks ->
          rank_in (rank_sinks sinks rk) t
          = if is_source_node (heap t) then (if is_push heap t then 0 else 1)
            else 1 + max_list (rank_in (rank_sinks sinks rk) <$> ts_nodes heap t)).
Proof.
  destruct (toposort_outcome heap node_lt height sinks acyclic)
    as (fuel & st & rk & _ & Hst & Hsv & Hq & _ & Hrk & Hwl & Hlow & Htight
        & Hkeys & Hnd & Hrun).
  exists fuel, st, rk.
  assert (Hother : forall n, n ∉ sinks ->
            dict_get n (rank_sinks sinks rk) = dict_get n (ranks rk)).
  { intros n Hn. unfold rank_sinks. by apply rank_sinks_fold_get_other. }
  assert (Hnosrc : forall t f, f ∈ ts_nodes heap t -> is_source_node (heap t) = false).
  { intros t f Hf. destruct (is_source_node (heap t)) eqn:Hsrc; [|done].
    apply sources_read_nothing in Hsrc. rewrite Hsrc in Hf. by apply elem_of_nil in Hf. }
  assert (Hbelow : forall t f, t ∈ keys (processed_nodes st) -> f ∈ ts_nodes heap t ->
            f ∈ keys (processed_nodes st)
            /\ rank_in (rank_sinks sinks rk) f < rank_in (rank_sinks sinks rk) t).
  { intros t f Ht Hf. pose proof (Hnosrc t f Hf) as Htsrc.
    destruct (sv_inputs _ _ _ _ Hsv t f Ht Htsrc Hf I) as [[Hk|Hk] Hc];
      [|rewrite Hq in Hk; by apply elem_of_nil in Hk].
    split; [done|].
    assert (Hfs : f ∉ sinks) by (intros ?; by apply (sinks_feed_nothing f t)).
    destruct (rk_settled _ _ _ Hrk f) as [Hset|(g & Hg & _)].
    - by apply (key_reached st Hsv Hq (S (height f))); [lia|..].
    - destruct (Hset t Hc) as (rf & rt & Hrf & Hrt & Hmax & Hle).
      unfold rank_in. rewrite (Hother f Hfs), Hrf. simpl.
      destruct (decide (t ∈ sinks)) as [Hin|Hnin].
      + unfold rank_sinks. rewrite rank_sinks_fold_get_sink by done. simpl. lia.
      + rewrite (Hother t Hnin), Hrt. simpl.
        assert (Hnp : is_push heap t = false).
        { destruct (is_push heap t) eqn:Hp; [|done].
          apply push_is_source in Hp. congruence. }
        specialize (Hle Hnp). lia.
    - rewrite Hwl in Hg. by apply elem_of_nil in Hg. }
  split; [exact Hrun|]. split; [exact Hkeys|]. split; [exact Hnd|].
  split; [exact Hbelow|].
  intros t Ht Hts. destruct (is_source_node (heap t)) eqn:Hsrc.
  - assert (Hs : t ∈ source_nodes st).
    { destruct (sv_keys _ _ _ _ Hsv t Ht) as [?|[?|?]]; [done|congruence|done]. }
    pose proof (source_never_consumer heap height sinks st t Hst Hs Hts) as Hnever.
    unfold rank_in. rewrite (Hother t Hts).
    destruct (is_push heap t) eqn:Hp.
    + destruct (rk_push _ _ _ Hrk t Hs Hnever Hp) as [Hin|Hzero]; [|by rewrite Hzero].
      rewrite Hwl in Hin. by apply elem_of_nil in Hin.
    + rewrite (rk_keep _ _ _ Hrk t Hnever Hp).
      apply dict_get_is_Some in Ht as [r Hr].
      by rewrite Hr, (disc_rank _ _ _ _ Hst t r Hr).
  - assert (Hnp : is_push heap t = false).
    { destruct (is_push heap t) eqn:Hp; [|done]. apply push_is_source in Hp. congruence. }
    assert (Hne : ts_nodes heap t <> []).
    { intros Hnil. apply sources_read_nothing in Hnil. congruence. }
    assert (Htr : t ∈ keys (ranks rk)) by (by rewrite (rk_keys _ _ _ Hrk)).
    apply dict_get_is_Some in Htr as [rt Hrt].
    apply Nat.le_antisymm.
    + unfold rank_in at 1. rewrite (Hother t Hts), Hrt. simpl.
      destruct (Htight t rt Hrt Hnp) as [Hle|(f & rf & Hc & Hrf & Hle)]; [lia|].
      destruct (sv_edge _ _ _ _ Hsv f t Hc) as (Hf & _ & _).
      assert (Hfs : f ∉ sinks) by (intros ?; by apply (sinks_feed_nothing f t)).
      assert (Hin : rank_in (rank_sinks sinks rk) f
                    ∈ rank_in (rank_sinks sinks rk) <$> ts_nodes heap t).
      { by apply list_elem_of_fmap_2. }
      apply max_list_elem_of_le in Hin.
      unfold rank_in at 1 in Hin. rewrite (Hother f Hfs), Hrf in Hin. simpl in Hin.
      unfold handed_on in Hle. destruct (is_push heap f); lia.
    + assert (Hmax : max_list (rank_in (rank_sinks sinks rk) <$> ts_nodes heap t)
                     ∈ rank_in (rank_sinks sinks rk) <$> ts_nodes heap t).
      { apply max_list_elem_of. intros Hnil. by apply fmap_nil_inv in Hnil. }
      apply list_elem_of_fmap in Hmax as (f & Heq & Hf). rewrite Heq.
      destruct (Hbelow t f Ht Hf) as [_ Hlt]. lia.
Qed.

(** X25. On a wiring graph without cycles, where the source nodes are the
    nodes without inputs, no node reads a sink and the push sources are
    source nodes, the result of [toposort] is a topological order: every
    input of a node of the result that is no stub is in the result, and
    stands before the node. *)
Theorem toposort_producers_first :
  exists fuel out,
    (forall fuel', fuel <= fuel' ->
       toposort heap node_lt fuel' sinks true = Some (Ok out))
    /\ forall t f,
         t ∈ out -> f ∈ ts_nodes heap t -> is_stub (heap f) = false ->
         before out f t.
Proof.
  destruct toposort_levels as (fuel & st & rk & Hrun & Hkeys & Hnd & Hbelow & _).
  exists fuel, (emit_nodes heap node_lt (rank_sinks sinks rk)).
  assert (Hout : forall n, n ∈ emit_nodes heap node_lt (rank_sinks sinks rk)
                           <-> is_stub (heap n) = false /\ n ∈ keys (processed_nodes st)).
  { intros n. by rewrite emit_nodes_Permutation, Hkeys, list_elem_of_filter. }
  split; [intros fuel' Hle; by destruct (Hrun fuel' Hle)|].
  intros t f Ht Hf Hstub. pose proof Ht as [_ Htk]%Hout.
  destruct (Hbelow t f Htk Hf) as [Hfk Hlt].
  apply sorted_before with (table := rank_sinks sinks rk); [|by apply Hout|done|done].
  apply emit_nodes_sorted. by rewrite Hkeys.
Qed.

(** X26. On such a graph the rank [toposort] sorts a node by, sinks
    apart, is its level: 0 for a push source, 1 for another source node,
    and for a node with inputs one more than the highest rank among its
    inputs. *)
Theorem toposort_ranks_are_levels :
  exists fuel table,
    (forall fuel', fuel <= fuel' ->
       toposort_ranks heap fuel' sinks true = Some (Ok table))
    /\ forall t, t ∈ keys table -> t ∉ sinks ->
         rank_in table t
         = if is_source_node (heap t) then (if is_push heap t then 0 else 1)
           else 1 + max_list (rank_in table <$> ts_nodes heap t).
Proof.
  destruct toposort_levels as (fuel & st & rk & Hrun & Hkeys & _ & _ & Hlevel).
  exists fuel, (rank_sinks sinks rk).
  split; [intros fuel' Hle; by destruct (Hrun fuel' Hle)|].
  intros t Ht. rewrite Hkeys in Ht. by apply Hlevel.
Qed.

End LevelFacts.

Lemma chain_graph_acyclic :
  forall n m, m ∈ ts_nodes chain_graph n -> chain_height m < chain_height n.
Proof.
  intros [|[|[|n]]] m; unfold ts_nodes; simpl; intros Hm;
    repeat (apply elem_of_cons in Hm as [->|Hm]); simpl; try lia;
    by apply elem_of_nil in Hm.
Qed.

Lemma chain_graph_sources :
  forall n, is_source_node (chain_graph n) = true <-> ts_nodes chain_graph n = [].
Proof. intros [|[|[|n]]]; unfold ts_nodes; simpl; split; done. Qed.

Lemma chain_graph_sinks : forall k t, k ∈ [0] -> k ∉ ts_nodes chain_graph t.
Proof.
  intros k t ->%list_elem_of_singleton.
  destruct t as [|[|[|t]]]; unfold ts_nodes; simpl; intros Hm;
    repeat (apply elem_of_cons in Hm as [?|Hm]); try done;
    by apply elem_of_nil in Hm.
Qed.

Lemma chain_graph_push :
  forall n, is_push chain_graph n = true -> is_source_node (chain_graph n) = true.
Proof. by intros [|[|[|n]]]. Qed.

Lemma toposort_emits_upstream_witness :
  exists fuel out,
    toposort chain_graph Nat.ltb fuel [0] true = Some (Ok out)
    /\ NoDup out
    /\ 3 ∈ out.
Proof.
  destruct (toposort_emits_upstream chain_graph Nat.ltb chain_height [0]
              chain_graph_acyclic)
    as (fuel & out & Hrun & Hnd & _ & Hin & _).
  exists fuel, out. split; [by apply Hrun|]. split; [done|].
  apply Hin; [|done].
  apply (explored_input _ _ 1); [|done|].
  - apply (explored_input _ _ 0); [|done|].
    + apply explored_sink. left.
    + unfold ts_nodes. simpl. left.
  - unfold ts_nodes. simpl. right. left.
Defined.

Lemma toposort_push_sources_first_witness :
  exists fuel out,
    toposort chain_graph Nat.ltb fuel [0] true = Some (Ok out)
    /\ (3 ∈ out -> 2 ∈ out -> before out 3 2).
Proof.
  destruct (toposort_push_sources_first chain_graph Nat.ltb chain_height [0]
              chain_graph_acyclic)
    as (fuel & out & Hrun & Hfirst).
  exists fuel, out. split; [by apply Hrun|].
  intros H3 H2. apply Hfirst; try done.
  - by intros ?%list_elem_of_singleton.
  - by right.
Defined.

Lemma toposort_refuses_push_nodes_witness :
  exists fuel,
    toposort chain_graph Nat.ltb fuel [0] false = Some (Raise CustomMessageWiringError).
Proof.
  destruct (toposort_refuses_push_nodes chain_graph Nat.ltb chain_height [0]
              chain_graph_acyclic 3 1) as [fuel Hrun].
  - apply (explored_input _ _ 0); [|done|].
    + apply explored_sink. left.
    + unfold ts_nodes. simpl. left.
  - done.
  - unfold ts_nodes. simpl. right. left.
  - done.
  - done.
  - exists fuel. by apply Hrun.
Defined.

Lemma toposort_without_push_nodes_witness :
  toposort small_graph Nat.ltb 10 [sink_node] false
  = toposort small_graph Nat.ltb 10 [sink_node] true.
Proof.
  apply toposort_without_push_nodes. by intros [|[|n]] _.
Defined.

Lemma toposort_producers_first_witness :
  exists fuel out,
    toposort chain_graph Nat.ltb fuel [0] true = Some (Ok out)
    /\ (0 ∈ out -> before out 1 0)
    /\ (1 ∈ out -> before out 2 1 /\ before out 3 1).
Proof.
  destruct (toposort_producers_first chain_graph Nat.ltb chain_height [0]
              chain_graph_acyclic chain_graph_sources chain_graph_sinks
              chain_graph_push)
    as (fuel & out & Hrun & Hfirst).
  exists fuel, out. split; [by apply Hrun|]. split.
  - intros H0. apply Hfirst; [done| |done]. unfold ts_nodes. simpl. left.
  - intros H1. split; (apply Hfirst; [done| |done]); unfold ts_nodes; simpl.
    + left.
    + right. left.
Defined.

Lemma toposort_ranks_are_levels_witness :
  exists fuel table,
    toposort_ranks chain_graph fuel [0] true = Some (Ok table)
    /\ (1 ∈ keys table ->
        rank_in table 1 = 1 + max_list (rank_in table <$> [2; 3])).
Proof.
  destruct (toposort_ranks_are_levels chain_graph Nat.ltb chain_height [0]
              chain_graph_acyclic chain_graph_sources chain_graph_sinks
              chain_graph_push)
    as (fuel & table & Hrun & Hlevel).
  exists fuel, table. split; [by apply Hrun|].
  intros H1. apply (Hlevel 1 H1). by intros ?%list_elem_of_singleton.
Defined.

(** *** A cycle that a source node feeds: the second loop never ends *)

Lemma rank_consumers_runs (g : node) (ts : list node) :
  forall rk,
    g ∈ keys (ranks rk) -> (forall t, t ∈ ts -> t ∈ keys (ranks rk)) ->
    exists rk',
      rank_consumers g rk ts = Ok rk'
      /\ worklist rk' = reverse ts ++ worklist rk
      /\ keys (ranks rk') = keys (ranks rk).
Proof.
  induction ts as [|t rest IH]; intros rk Hg Hts.
  - by exists rk.
  - assert (Ht : t ∈ keys (ranks rk)) by (apply Hts; left).
    apply dict_get_is_Some in Ht as [r_to Hr_to].
    apply dict_get_is_Some in Hg as Hg'. destruct Hg' as [r_from Hr_from].
    set (rk1 := {| worklist := t :: worklist rk;
                   ranks := dict_set t (Nat.max r_to (r_from + 1)) (ranks rk);
                   max_rank := Nat.max (max_rank rk) (Nat.max r_to (r_from + 1)) |}).
    assert (Hstep : rank_consumer g rk t = Ok rk1).
    { unfold rank_consumer, dict_getitem. by rewrite Hr_to, Hr_from. }
    assert (Hkeys1 : keys (ranks rk1) = keys (ranks rk)).
    { simpl. apply keys_dict_set_present. apply dict_get_is_Some. by eexists. }
    destruct (IH rk1) as (rk' & Hrun & Hwork & Hkeys).
    { by rewrite Hkeys1. }
    { intros t' Ht'. rewrite Hkeys1. apply Hts. by right. }
    exists rk'. simpl. rewrite Hstep. simpl. split; [exact Hrun|]. split; [|congruence].
    rewrite Hwork. simpl. by rewrite reverse_cons, <- app_assoc.
Qed.

Section CycleFacts.
Context (heap : node -> WiringNodeInstance) (sinks : list node).
(** The outcome of the first loop. *)
Context (st : Discovery).
Hypothesis found : surveyed heap sinks st.
Hypothesis queue_empty : nodes_to_process st = [].

#[local] Abbreviation leads_to_cycle := (Wiring.leads_to_cycle (mapping st)).

Lemma path_app (a b c : node) :
  path (mapping st) a b -> path (mapping st) b c -> path (mapping st) a c.
Proof.
  induction 1 as [|a t b Ht _ IH]; [done|].
  intros Hbc. apply (path_next _ _ t); [done|by apply IH].
Qed.

Lemma path_inv (a b : node) :
  path (mapping st) a b ->
  a = b \/ exists u, u ∈ consumers (mapping st) a /\ path (mapping st) u b.
Proof. intros [|? u ? Hu Hub]; [by left|right; by exists u]. Qed.

Lemma consumer_leads_to_cycle (g : node) :
  leads_to_cycle g ->
  exists t, t ∈ consumers (mapping st) g /\ leads_to_cycle t.
Proof.
  intros (c & t & Hgc & Ht & Htc).
  apply path_inv in Hgc as [->|(u & Hu & Huc)].
  - exists t. split; [done|].
    pose proof Htc as [->|(u & Hu & Huc)]%path_inv.
    + exists c, c. split; [constructor|]. split; [done|constructor].
    + exists t, u. split; [constructor|]. split; [done|].
      apply (path_app _ c); [done|]. apply (path_next _ _ t); [done|constructor].
  - exists u. split; [done|]. by exists c, t.
Qed.

Lemma feeds_path (f t : node) :
  feeds heap sinks f t ->
  exists u, u ∈ consumers (mapping st) f /\ path (mapping st) u t.
Proof.
  induction 1 as [f t Ht Hsrc Hf|f u t Hu Hsrc Hf _ (v & Hv & Hvt)].
  - exists t. split; [|constructor].
    apply (sv_inputs _ _ _ _ found t f); [|done|done|done].
    by apply (surveyed_keys heap sinks st found queue_empty t).
  - exists u. split; [|by apply (path_next _ _ v)].
    apply (sv_inputs _ _ _ _ found u f); [|done|done|done].
    by apply (surveyed_keys heap sinks st found queue_empty u).
Qed.

Lemma rank_nodes_never_ends (fuel : nat) :
  forall rk,
    keys (ranks rk) = keys (processed_nodes st) ->
    (forall q, q ∈ worklist rk -> q ∈ keys (processed_nodes st)) ->
    (exists g, g ∈ worklist rk /\ leads_to_cycle g) ->
    rank_nodes heap fuel true (mapping st) rk = None.
Proof.
  induction fuel as [|fuel IH]; intros rk Hkeys Hwork (g & Hg & Hcycle).
  - simpl. destruct (worklist rk); [by apply elem_of_nil in Hg|done].
  - simpl. destruct (worklist rk) as [|q rest] eqn:Hwl; [by apply elem_of_nil in Hg|].
    set (rkA := if is_push heap q
                then {| worklist := rest; ranks := dict_set q 0 (ranks rk);
                        max_rank := max_rank rk |}
                else {| worklist := rest; ranks := ranks rk; max_rank := max_rank rk |}).
    assert (Hq : q ∈ keys (ranks rk)) by (rewrite Hkeys; apply Hwork; left).
    assert (HkeysA : keys (ranks rkA) = keys (ranks rk)).
    { unfold rkA. destruct (is_push heap q); simpl; [|done].
      by apply keys_dict_set_present. }
    assert (HworkA : worklist rkA = rest).
    { unfold rkA. by destruct (is_push heap q). }
    destruct (rank_consumers_runs q (consumers (mapping st) q) rkA)
      as (rk' & Hrun & Hwork' & Hkeys').
    { by rewrite HkeysA. }
    { intros t Ht. rewrite HkeysA, Hkeys. by apply (sv_edge _ _ _ _ found q t Ht). }
    unfold rank_node. simpl. fold (is_push heap q). fold rkA. rewrite Hrun.
    apply IH.
    + congruence.
    + intros x. rewrite Hwork', HworkA, elem_of_app, elem_of_reverse. intros [Hx|Hx].
      * by apply (sv_edge _ _ _ _ found q x Hx).
      * apply Hwork. by right.
    + rewrite Hwork', HworkA. apply elem_of_cons in Hg as [->|Hg].
      * destruct (consumer_leads_to_cycle q Hcycle) as (t & Ht & Hlead).
        exists t. split; [|done]. rewrite elem_of_app, elem_of_reverse. by left.
      * exists g. split; [|done]. apply elem_of_app. by right.
Qed.

End CycleFacts.

(** X28. When a source node feeds a node that lies on a cycle of nodes
    met going up from the sinks, [toposort] does not return: the loop that
    ranks the nodes still has nodes to rank after any number of
    iterations. *)
Theorem toposort_cycle_never_returns (heap : node -> WiringNodeInstance)
    (node_lt : node -> node -> bool) (sinks : list node) (s c : node) :
  is_source_node (heap s) = true ->
  feeds heap sinks s c -> feeds heap sinks c c ->
  forall fuel, toposort heap node_lt fuel sinks true = None.
Proof.
  intros Hsrc Hsc Hcc fuel. unfold toposort, toposort_ranks.
  destruct (discover heap fuel (discovery_start sinks)) as [st|] eqn:Hdisc; [|done].
  destruct (discover_surveyed heap sinks fuel _ _ Hdisc (surveyed_start heap sinks))
    as [Hsv Hempty].
  simpl.
  destruct (feeds_path heap sinks st Hsv Hempty s c Hsc) as (u & Hu & Huc).
  destruct (feeds_path heap sinks st Hsv Hempty c c Hcc) as (t & Ht & Htc).
  assert (Hs : s ∈ source_nodes st) by (by apply (sv_edge _ _ _ _ Hsv s u Hu)).
  rewrite (rank_nodes_never_ends heap sinks st Hsv fuel (ranking_start st)); [done|done| |].
  - intros q Hq. simpl in Hq. rewrite elem_of_reverse in Hq.
    by apply (sv_source _ _ _ _ Hsv q Hq).
  - exists s. split; [simpl; by rewrite elem_of_reverse|].
    exists c, t. split; [by apply (path_next _ _ u)|]. by split.
Qed.

Lemma toposort_cycle_never_returns_witness :
  toposort loop_graph Nat.ltb 1000 [0] true = None.
Proof.
  assert (H0 : explored loop_graph [0] 0) by (apply explored_sink; left).
  assert (H1 : explored loop_graph [0] 1).
  { apply (explored_input _ _ 0); [done|done|]. unfold ts_nodes. simpl. left. }
  assert (H2 : explored loop_graph [0] 2).
  { apply (explored_input _ _ 1); [done|done|]. unfold ts_nodes. simpl. left. }
  apply (toposort_cycle_never_returns loop_graph Nat.ltb [0] 3 1).
  - done.
  - apply feeds_input; [done|done|]. unfold ts_nodes. simpl. right. left.
  - apply (feeds_through _ _ 1 2); [done|done| |].
    + unfold ts_nodes. simpl. left.
    + apply feeds_input; [done|done|]. unfold ts_nodes. simpl. left.
Defined.

End WiringFacts.
